(** * rapid-api-kit: the query-translation and CRUD-request engine

    A shallow embedding of the handlers of [createRouter] that list,
    read, create, replace, partially update and delete documents and serve
    the distinct values of a field (both the CommonJS variant
    [src/createRouter.js] and the TypeScript variant, which adds
    attachments and the distinct-values route), of the attachment helpers
    ([extractFileFields], [convertFileFieldsForMongoose], [isFileAccepted],
    [validateFiles], [uploadFiles], [deleteBlobs], [extractBlobUrls]) and
    of what [rapidAPI] does with the file fields of a schema at start-up.
    The definitions come first, the facts and theorems about them after.

    Conventions of the embedding.
    - Strings are Rocq strings read as sequences of characters of the ASCII
      range.  The Unicode-only cases of the JavaScript string primitives
      (non-ASCII white space, non-ASCII case mapping, the line separators
      U+2028 and U+2029) are outside the model.
    - Numbers are [jsnum]: NaN, the two infinities, or a rational.  What
      the handlers read from a string ([Number], [parseInt]) and the
      offset they compute from it are rounded to the nearest double
      ([Num.round]: ties to the even significand, an infinity from 2^1024
      on, zero below half the smallest subnormal).  The quotient of the
      document count by the limit and the difference in the comparator of
      the distinct-values route are exact: on doubles the first agrees
      with the rounded quotient for counts up to 2^53 and the second has
      the sign of the rounded difference.  The two zeros are not
      distinguished.
    - Objects used as maps are [gmap string _] (the object of uploaded URLs,
      whose values are listed in property order, is an association list
      kept in that order: array indices first, ascending, then the other
      names as they were created); only own properties are modelled, and
      a write that would land on [Object.prototype] or on one of its
      members is a separate outcome of the filter loop.
    - The storage engine and the blob store are an environment of oracle
      functions over an abstract world; every call is logged in a trace. *)

From Stdlib Require Import ZArith QArith Qround Qreduction Qabs Ascii String List Permutation Sorted Lia.
From stdpp Require Import gmap strings list fin_maps pretty.

Open Scope Z_scope.

Arguments Ascii.eqb : simpl never.

(** ** JavaScript strings *)

Module Str.

Definition chars (s : string) : list ascii := String.list_ascii_of_string s.
Definition str (l : list ascii) : string := String.string_of_list_ascii l.

(** [strip_prefix p l]: the rest of [l] after the prefix [p], if [l]
    starts with [p]. *)
Fixpoint strip_prefix (p l : list ascii) : option (list ascii) :=
  match p, l with
  | [], _ => Some l
  | a :: p', b :: l' => if Ascii.eqb a b then strip_prefix p' l' else None
  | _ :: _, [] => None
  end.

Definition strip_suffix (suf l : list ascii) : option (list ascii) :=
  reverse <$> strip_prefix (reverse suf) (reverse l).

(** [s.startsWith(p)] and [s.endsWith(p)]. *)
Definition startsWith (s p : string) : bool :=
  bool_decide (is_Some (strip_prefix (chars p) (chars s))).
Definition endsWith (s p : string) : bool :=
  bool_decide (is_Some (strip_suffix (chars p) (chars s))).

(** [s.slice(1, -1)]: drop the first and the last character. *)
Definition slice_1_m1 (s : string) : string :=
  let l := chars s in str (take (length l - 2)%nat (drop 1 l)).

(** White space of the ASCII range, as [trim], [Number] and [parseInt]
    see it: TAB, LF, VT, FF, CR and SP. *)
Definition is_space (c : ascii) : bool :=
  match c with
  | "009" | "010" | "011" | "012" | "013" | " " => true
  | _ => false
  end%char.

(** Line terminators, which the dot of a regular expression refuses. *)
Definition is_line_terminator (c : ascii) : bool :=
  match c with
  | "010" | "013" => true
  | _ => false
  end%char.

Fixpoint trimStart_l (l : list ascii) : list ascii :=
  match l with
  | c :: l' => if is_space c then trimStart_l l' else l
  | [] => []
  end.
Definition trim_l (l : list ascii) : list ascii :=
  reverse (trimStart_l (reverse (trimStart_l l))).
Definition trim (s : string) : string := str (trim_l (chars s)).

(** [s.toLowerCase()] on the letters A-Z. *)
Definition lower_char (c : ascii) : ascii :=
  let n := nat_of_ascii c in
  if ((65 <=? n) && (n <=? 90))%nat then ascii_of_nat (n + 32) else c.
Definition toLowerCase (s : string) : string := str (lower_char <$> chars s).

(** [s.split(",")]. *)
Fixpoint split_l (sep : ascii) (cur : list ascii) (l : list ascii) : list (list ascii) :=
  match l with
  | [] => [reverse cur]
  | c :: l' => if Ascii.eqb c sep then reverse cur :: split_l sep [] l'
               else split_l sep (c :: cur) l'
  end.
Definition split_comma (s : string) : list string :=
  str <$> split_l ","%char [] (chars s).

(** [parts.join(sep)]. *)
Fixpoint join (sep : string) (parts : list string) : string :=
  match parts with
  | [] => ""
  | [p] => p
  | p :: rest => p +:+ sep +:+ join sep rest
  end.

(** [s.replace(pat, by)] with a string pattern: the first occurrence. *)
Fixpoint replace_first_l (pat by_ : list ascii) (l : list ascii) : list ascii :=
  match strip_prefix pat l with
  | Some rest => by_ ++ rest
  | None => match l with
            | [] => []
            | c :: l' => c :: replace_first_l pat by_ l'
            end
  end.
Definition replace_first (s pat by_ : string) : string :=
  str (replace_first_l (chars pat) (chars by_) (chars s)).

(** Two lists that differ at a position both have. *)
Fixpoint clash (p l : list ascii) : bool :=
  match p, l with
  | a :: p', b :: l' => if Ascii.eqb a b then clash p' l' else true
  | _, _ => false
  end.

End Str.

(** ** JavaScript numbers *)

Inductive jsnum :=
| NaN
| PInf
| NInf
| Fin (q : Q).

Module Num.

Definition int (z : Z) : jsnum := Fin (inject_Z z).

Definition isNaN (n : jsnum) : bool :=
  match n with NaN => true | _ => false end.

(** Truthiness of a number: everything but 0 and NaN. *)
Definition truthy (n : jsnum) : bool :=
  match n with
  | NaN => false
  | Fin q => negb (Qeq_bool q 0)
  | _ => true
  end.

Definition digit_val (c : ascii) : option Z :=
  let n := Z.of_nat (nat_of_ascii c) in
  if (48 <=? n) && (n <=? 57) then Some (n - 48)
  else if (97 <=? n) && (n <=? 102) then Some (n - 87)
  else if (65 <=? n) && (n <=? 70) then Some (n - 55)
  else None.

Definition digit_in (radix : Z) (c : ascii) : option Z :=
  match digit_val c with
  | Some d => if d <? radix then Some d else None
  | None => None
  end.

(** The longest prefix of digits of the radix, as a value and a count,
    and what follows it. *)
Fixpoint span_digits (radix : Z) (acc : Z) (cnt : nat) (l : list ascii)
  : Z * nat * list ascii :=
  match l with
  | c :: l' =>
      match digit_in radix c with
      | Some d => span_digits radix (acc * radix + d) (S cnt) l'
      | None => (acc, cnt, l)
      end
  | [] => (acc, cnt, [])
  end.

(** A whole string of digits of the radix (at least one). *)
Definition all_digits (radix : Z) (l : list ascii) : option Z :=
  match span_digits radix 0 0 l with
  | (v, S _, []) => Some v
  | _ => None
  end.

(** The whole part of the binary logarithm of [a / b], for positive [a]
    and [b]. *)
Definition ilog2 (a b : Z) : Z :=
  let k := Z.log2 a - Z.log2 b in
  if (if 0 <=? k then b * 2 ^ k <=? a else b <=? a * 2 ^ (- k)) then k else k - 1.

(** The integer nearest to [n / d], the even one of two that are equally
    near. *)
Definition nearest_even (n d : Z) : Z :=
  let m := n / d in
  let r := n mod d in
  if (d <? 2 * r) || ((d =? 2 * r) && Z.odd m) then m + 1 else m.

(** The double nearest to [a / b], for positive [a] and [b]: a significand
    [m] of at most 53 bits at the binary exponent [e] (never below -1074,
    the exponent of the subnormals), that is [m * 2^e]; [Infinity] from
    2^1024 on. *)
Definition round_pos (a b : Z) : jsnum :=
  let e := Z.max (ilog2 a b - 52) (-1074) in
  if 0 <=? e then
    let m := nearest_even a (b * 2 ^ e) in
    if 2 ^ 1024 <=? m * 2 ^ e then PInf else Fin (inject_Z (m * 2 ^ e))
  else
    let m := nearest_even (a * 2 ^ (- e)) b in
    Fin (Qred (Qmake m (Z.to_pos (2 ^ (- e))))).

(** The Number value for a rational: the nearest double. *)
Definition round (q : Q) : jsnum :=
  match Qnum q with
  | 0 => Fin 0
  | Z.pos a => round_pos (Z.pos a) (Z.pos (Qden q))
  | Z.neg a =>
      match round_pos (Z.pos a) (Z.pos (Qden q)) with
      | Fin x => Fin (- x)
      | _ => NInf
      end
  end.

(** The result of an arithmetic operation, from its exact value. *)
Definition fl (n : jsnum) : jsnum :=
  match n with
  | Fin q => round q
  | _ => n
  end.

(** The value [m * 10^k] as a reduced fraction. *)
Definition decimalQ (m k : Z) : Q :=
  if 0 <=? k then inject_Z (m * 10 ^ k)
  else Qred (Qmake m (Z.to_pos (10 ^ (- k)))).

(** ExponentPart: [e] or [E], an optional sign, at least one digit. *)
Definition parse_exponent (l : list ascii) : option Z :=
  match l with
  | [] => Some 0
  | c :: l' =>
      if Ascii.eqb c "e" || Ascii.eqb c "E" then
        match l' with
        | "+"%char :: ds => all_digits 10 ds
        | "-"%char :: ds => Z.opp <$> all_digits 10 ds
        | ds => all_digits 10 ds
        end
      else None
  end.

(** StrUnsignedDecimalLiteral: digits, an optional fraction, an optional
    exponent; at least one digit before or after the point. *)
Definition parse_unsigned_decimal (l : list ascii) : option Q :=
  let '(ip, ni, r1) := span_digits 10 0 0 l in
  let '(m, nf, r2) :=
    match r1 with
    | "."%char :: r => span_digits 10 ip 0 r
    | _ => (ip, 0%nat, r1)
    end in
  match (ni + nf)%nat with
  | O => None
  | S _ =>
      match parse_exponent r2 with
      | Some e => Some (decimalQ m (e - Z.of_nat nf))
      | None => None
      end
  end.

Definition Infinity_l : list ascii := Str.chars "Infinity".

(** StringToNumber: what [Number(s)] does for a string; the value the
    literal denotes is rounded to the nearest double.  (The language lets
    an engine ignore the digits after the twentieth; V8 does not.) *)
Definition StringToNumber (s : string) : jsnum :=
  let l := Str.trim_l (Str.chars s) in
  match l with
  | [] => Fin 0
  | "0"%char :: x :: ds =>
      if Ascii.eqb x "x" || Ascii.eqb x "X"
      then from_option (λ n, round (inject_Z n)) NaN (all_digits 16 ds)
      else if Ascii.eqb x "o" || Ascii.eqb x "O"
      then from_option (λ n, round (inject_Z n)) NaN (all_digits 8 ds)
      else if Ascii.eqb x "b" || Ascii.eqb x "B"
      then from_option (λ n, round (inject_Z n)) NaN (all_digits 2 ds)
      else from_option round NaN (parse_unsigned_decimal l)
  | "+"%char :: r =>
      if bool_decide (r = Infinity_l) then PInf
      else from_option round NaN (parse_unsigned_decimal r)
  | "-"%char :: r =>
      if bool_decide (r = Infinity_l) then NInf
      else from_option (λ q, round (- q)) NaN (parse_unsigned_decimal r)
  | _ =>
      if bool_decide (l = Infinity_l) then PInf
      else from_option round NaN (parse_unsigned_decimal l)
  end.

(** [parseInt(s)] without a radix argument: the integer the digits denote,
    rounded to the nearest double.  (The language lets an engine ignore
    the decimal digits after the twentieth; V8 does not.) *)
Definition parseInt (s : string) : jsnum :=
  let l := Str.trimStart_l (Str.chars s) in
  let '(neg, l1) :=
    match l with
    | "-"%char :: r => (true, r)
    | "+"%char :: r => (false, r)
    | _ => (false, l)
    end in
  let '(radix, l2) :=
    match l1 with
    | "0"%char :: x :: r =>
        if Ascii.eqb x "x" || Ascii.eqb x "X" then (16, r) else (10, l1)
    | _ => (10, l1)
    end in
  match span_digits radix 0 0 l2 with
  | (_, O, _) => NaN
  | (v, S _, _) => round (inject_Z (if neg then - v else v))
  end.

(** [Math.max(a, b)] and [Math.min(a, b)]. *)
Definition max (a b : jsnum) : jsnum :=
  match a, b with
  | NaN, _ | _, NaN => NaN
  | PInf, _ | _, PInf => PInf
  | NInf, x | x, NInf => x
  | Fin x, Fin y => if Qle_bool x y then b else a
  end.

Definition min (a b : jsnum) : jsnum :=
  match a, b with
  | NaN, _ | _, NaN => NaN
  | NInf, _ | _, NInf => NInf
  | PInf, x | x, PInf => x
  | Fin x, Fin y => if Qle_bool x y then a else b
  end.

Definition sign (q : Q) : comparison := Qcompare q 0.

(** [a - b], [a * b], [a / b]. *)
Definition sub (a b : jsnum) : jsnum :=
  match a, b with
  | NaN, _ | _, NaN => NaN
  | PInf, PInf | NInf, NInf => NaN
  | PInf, _ | _, NInf => PInf
  | NInf, _ | _, PInf => NInf
  | Fin x, Fin y => Fin (Qred (x - y))
  end.

Definition inf_of (c : comparison) : jsnum :=
  match c with Gt => PInf | Lt => NInf | Eq => NaN end.

Definition flip (c : comparison) : comparison := CompOpp c.

Definition mul (a b : jsnum) : jsnum :=
  match a, b with
  | NaN, _ | _, NaN => NaN
  | PInf, PInf | NInf, NInf => PInf
  | PInf, NInf | NInf, PInf => NInf
  | PInf, Fin y | Fin y, PInf => inf_of (sign y)
  | NInf, Fin y | Fin y, NInf => inf_of (flip (sign y))
  | Fin x, Fin y => Fin (Qred (x * y))
  end.

Definition div (a b : jsnum) : jsnum :=
  match a, b with
  | NaN, _ | _, NaN => NaN
  | (PInf | NInf), (PInf | NInf) => NaN
  | PInf, Fin y => match sign y with Lt => NInf | _ => PInf end
  | NInf, Fin y => match sign y with Lt => PInf | _ => NInf end
  | Fin _, (PInf | NInf) => Fin 0
  | Fin x, Fin y =>
      match sign y with
      | Eq => inf_of (sign x)
      | _ => Fin (Qred (x / y))
      end
  end.

(** [Math.ceil(a)]. *)
Definition ceil (a : jsnum) : jsnum :=
  match a with
  | Fin x => int (Qceiling x)
  | _ => a
  end.

(** [a < b] and [a > b]. *)
Definition lt (a b : jsnum) : bool :=
  match a, b with
  | NaN, _ | _, NaN => false
  | _, NInf | PInf, _ => false
  | NInf, _ | _, PInf => true
  | Fin x, Fin y => negb (Qle_bool y x)
  end.
Definition gt (a b : jsnum) : bool := lt b a.

End Num.

(** ** The filter compiler (the loop of the list handler) *)

(** The two implementations of [createRouter]: the CommonJS file
    [src/createRouter.js] (sloppy mode) and the TypeScript module (an ES
    module, hence strict mode). *)
Inductive variant := CommonJS | TypeScript.

(** A value of [req.query]: a string, an array or a nested object. *)
#[warnings="-register-all"]
Inductive qsval :=
| QStr (s : string)
| QArr (l : list qsval)
| QObj (o : list (string * qsval)).

(** [String(value)]. *)
Fixpoint ToString (v : qsval) : string :=
  match v with
  | QStr s => s
  | QArr l => Str.join "," (ToString <$> l)
  | QObj _ => "[object Object]"
  end.

(** [Number(value)]: arrays and objects go through their string. *)
Definition ToNumber (v : qsval) : jsnum := Num.StringToNumber (ToString v).

Inductive operator := Gt | Gte | Lt | Lte | Ne.

Definition op_name (op : operator) : string :=
  match op with
  | Gt => "gt" | Gte => "gte" | Lt => "lt" | Lte => "lte" | Ne => "ne"
  end.

Definition operators : list operator := [Gt; Gte; Lt; Lte; Ne].

(** The property [`$${operator}`]. *)
Definition op_prop (op : operator) : string := "$" +:+ op_name op.

(** [filterBy.length === 0 ? <default> : filterBy.includes(field)]. *)
Definition isFilterable (v : variant) (filterBy : list string) (field : string) : bool :=
  match filterBy with
  | [] => match v with CommonJS => true | TypeScript => false end
  | _ => bool_decide (field ∈ filterBy)
  end.

(** The field part of [/^(.+)_(gt|gte|lt|lte|ne)$/]: at least one
    character, none of them a line terminator. *)
Definition dot_plus (l : list ascii) : bool :=
  match l with
  | [] => false
  | _ => forallb (λ c, negb (Str.is_line_terminator c)) l
  end.

Definition match_op (key : list ascii) (op : operator) : option (string * operator) :=
  match Str.strip_suffix (Str.chars ("_" +:+ op_name op)) key with
  | Some f => if dot_plus f then Some (Str.str f, op) else None
  | None => None
  end.

(** [key.match(/^(.+)_(gt|gte|lt|lte|ne)$/)]: the operator follows the last
    underscore, so at most one alternative applies. *)
Definition operatorMatch (key : string) : option (string * operator) :=
  foldr (λ op r, match match_op (Str.chars key) op with
                 | Some m => Some m
                 | None => r
                 end) None operators.

(** What a clause's value is after [isNaN(..) ? .. : Number(..)]: a number
    or the value as it came (in the TypeScript variant always its string). *)
Inductive atom :=
| ANum (n : jsnum)
| ARaw (v : qsval).

(** The value stored under a field of the query object: an atom, or an
    object carrying operator properties.  [CNode None props] is an object
    literal the loop created (the compound node, or the regex node);
    [CNode (Some raw) props] is an array or object of [req.query] that the
    loop stored as it came and later wrote operator properties on. *)
Inductive clause :=
| CAtom (a : atom)
| CNode (base : option qsval) (props : gmap string atom).

(** The outcome of the loop: the query object, a [TypeError] (strict mode
    refuses to create a property on a primitive), or a write that lands on
    [Object.prototype], on one of its members or on the prototype slot of
    the query object, after which the run is outside the model. *)
Inductive filter_result :=
| Compiled (q : gmap string clause)
| TypeError (field : string)
| PrototypeWrite (field : string).

(** The property names every object literal inherits. *)
Definition inherited_names : list string :=
  ["constructor"; "__defineGetter__"; "__defineSetter__"; "hasOwnProperty";
   "__lookupGetter__"; "__lookupSetter__"; "isPrototypeOf";
   "propertyIsEnumerable"; "toString"; "valueOf"; "__proto__";
   "toLocaleString"].

Definition inherited (name : string) : bool := bool_decide (name ∈ inherited_names).

(** [isNaN(value) ? value : Number(value)] in the CommonJS variant,
    [isNaN(Number(strValue)) ? strValue : Number(strValue)] in the
    TypeScript one. *)
Definition coerce (v : variant) (value : qsval) : atom :=
  match v with
  | CommonJS =>
      if Num.isNaN (ToNumber value) then ARaw value else ANum (ToNumber value)
  | TypeScript =>
      let strValue := ToString value in
      if Num.isNaN (Num.StringToNumber strValue) then ARaw (QStr strValue)
      else ANum (Num.StringToNumber strValue)
  end.

Definition is_primitive (a : atom) : bool :=
  match a with
  | ANum _ | ARaw (QStr _) => true
  | ARaw _ => false
  end.

(** Truthiness, for [!query[field]]. *)
Definition truthy (c : clause) : bool :=
  match c with
  | CAtom (ANum n) => Num.truthy n
  | CAtom (ARaw (QStr s)) => negb (bool_decide (s = ""))
  | _ => true
  end.

(** [{ $regex: value.slice(1, -1), $options: "i" }]. *)
Definition regex_node (value : string) : clause :=
  CNode None (<["$options" := ARaw (QStr "i")]>
              {["$regex" := ARaw (QStr (Str.slice_1_m1 value))]}).

(** How the loop reads a key. *)
Inductive key_kind :=
| Internal
| OpKey (field : string) (op : operator)
| Bare.

Definition classify (key : string) : key_kind :=
  if Str.startsWith key "_" then Internal
  else match operatorMatch key with
       | Some (field, op) => OpKey field op
       | None => Bare
       end.

(** [query[field][`$${operator}`] = a], after
    [if (!query[field]) query[field] = {}]. *)
Definition write_op (v : variant) (q : gmap string clause)
    (field : string) (op : operator) (a : atom) : filter_result :=
  match q !! field with
  | None =>
      if inherited field then PrototypeWrite field
      else Compiled (<[field := CNode None {[op_prop op := a]}]> q)
  | Some c =>
      if truthy c then
        match c with
        | CNode b props => Compiled (<[field := CNode b (<[op_prop op := a]> props)]> q)
        | CAtom (ARaw (QArr l)) =>
            Compiled (<[field := CNode (Some (QArr l)) {[op_prop op := a]}]> q)
        | CAtom (ARaw (QObj o)) =>
            Compiled (<[field := CNode (Some (QObj o)) {[op_prop op := a]}]> q)
        | CAtom _ =>
            match v with
            | CommonJS => Compiled q
            | TypeScript => TypeError field
            end
        end
      else Compiled (<[field := CNode None {[op_prop op := a]}]> q)
  end.

(** [query[key] = c]; the key [__proto__] is the accessor of
    [Object.prototype], which ignores primitives. *)
Definition write_eq (q : gmap string clause) (key : string) (c : clause) : filter_result :=
  if bool_decide (key = "__proto__") then
    match c with
    | CAtom a => if is_primitive a then Compiled q else PrototypeWrite key
    | CNode _ _ => PrototypeWrite key
    end
  else Compiled (<[key := c]> q).

(** One turn of [for (const [key, value] of Object.entries(filters))]. *)
Definition filter_step (v : variant) (filterBy : list string)
    (q : gmap string clause) (key : string) (value : qsval) : filter_result :=
  match classify key with
  | Internal => Compiled q
  | OpKey field op =>
      if negb (isFilterable v filterBy field) then Compiled q
      else write_op v q field op (coerce v value)
  | Bare =>
      if negb (isFilterable v filterBy key) then Compiled q
      else
        match value with
        | QStr s =>
            if Str.startsWith s "/" && Str.endsWith s "/"
            then write_eq q key (regex_node s)
            else write_eq q key (CAtom (coerce v value))
        | _ => write_eq q key (CAtom (coerce v value))
        end
  end.

Fixpoint filter_loop (v : variant) (filterBy : list string)
    (q : gmap string clause) (entries : list (string * qsval)) : filter_result :=
  match entries with
  | [] => Compiled q
  | (key, value) :: rest =>
      match filter_step v filterBy q key value with
      | Compiled q' => filter_loop v filterBy q' rest
      | r => r
      end
  end.

(** [const query = {}; for (...) {...}]. *)
Definition compile (v : variant) (filterBy : list string)
    (filters : list (string * qsval)) : filter_result :=
  filter_loop v filterBy ∅ filters.

(** The compound node the accumulation claim describes: every operator
    seen for [field] among the keys the loop reads as operator keys, each
    with its coerced value (a later occurrence of an operator replaces an
    earlier one). *)
Definition ops_seen (v : variant) (field : string)
    (filters : list (string * qsval)) : gmap string atom :=
  foldl (λ m kv,
           match classify kv.1 with
           | OpKey f op =>
               if bool_decide (f = field) then <[op_prop op := coerce v kv.2]> m else m
           | _ => m
           end) ∅ filters.

(** Modelled from the spec: how the storage engine (external to the
    repository) reads a compound node against a numeric document value:
    the conjunction of its operators, [$gt]/[$gte]/[$lt]/[$lte] as the
    strict and inclusive bounds, [$ne] as inequality; a bound that is not a
    number admits no numeric value for the range operators and every one
    for [$ne]. *)
Definition bound_holds (rel : jsnum → jsnum → bool) (dflt : bool)
    (props : gmap string atom) (prop : string) (x : jsnum) : bool :=
  match props !! prop with
  | None => true
  | Some (ANum b) => rel x b
  | Some (ARaw _) => dflt
  end.

Definition num_le (a b : jsnum) : bool :=
  negb (Num.isNaN a) && negb (Num.isNaN b) && negb (Num.lt b a).
Definition num_ne (a b : jsnum) : bool := Num.lt a b || Num.lt b a.

Definition node_matches (props : gmap string atom) (x : jsnum) : bool :=
  bound_holds Num.gt false props "$gt" x &&
  bound_holds (λ a b, num_le b a) false props "$gte" x &&
  bound_holds Num.lt false props "$lt" x &&
  bound_holds num_le false props "$lte" x &&
  bound_holds num_ne true props "$ne" x.

(** Every field of the query object is a filterable one. *)
Definition keys_filterable (v : variant) (filterBy : list string)
    (q : gmap string clause) : Prop :=
  ∀ k, is_Some (q !! k) → isFilterable v filterBy k = true.

(** *** Compound nodes *)

(** The query object holds, for [field], exactly the compound node [m]
    (nothing when [m] is empty). *)
Definition holds_node (q : gmap string clause) (field : string)
    (m : gmap string atom) : Prop :=
  (m = ∅ ∧ q !! field = None) ∨ (m ≠ ∅ ∧ q !! field = Some (CNode None m)).

Definition see_op (v : variant) (field : string)
    (m : gmap string atom) (kv : string * qsval) : gmap string atom :=
  match classify kv.1 with
  | OpKey f op =>
      if bool_decide (f = field) then <[op_prop op := coerce v kv.2]> m else m
  | _ => m
  end.

Definition price_range : gmap string atom :=
  <["$lte" := ANum (Num.int 50)]> {["$gte" := ANum (Num.int 10)]}.

(** ** Documents, errors, and the environment of the handlers *)

(** A value of a document or of a request body. *)
#[warnings="-register-all"]
Inductive jsval :=
| VNull
| VBool (b : bool)
| VNum (n : jsnum)
| VStr (s : string)
| VObjectId (hex : string)
| VArr (l : list jsval)
| VObj (o : list (string * jsval)).

(** What a handler can catch: the fields of an error the handlers look at. *)
Record error := Error {
  err_name : string;
  err_message : string;
  err_kind : option string;
  err_code : option Z;
  err_keyPattern : option (list string);
  err_errors : option (list (string * string))
}.

Definition type_error (message : string) : error :=
  Error "TypeError" message None None None None.

Inductive result (A : Type) :=
| Ok (a : A)
| Throw (e : error).
Arguments Ok {A} a.
Arguments Throw {A} e.

(** The query object as the storage engine receives it: the compiled
    fields, and the [$or] property the search adds. *)
Inductive top_clause :=
| Field (c : clause)
| Or (alternatives : list (string * string)).

(** The second argument of [findByIdAndUpdate]. *)
Inductive update :=
| Overwrite (body : gmap string jsval)
| SetFields (body : gmap string jsval).

(** The storage engine and the blob store: oracles over an abstract world.
    [new_ObjectId] and [Date_now] are the two other sources of values the
    handlers do not compute. *)
Record Env (World : Type) := {
  Model_find : gmap string top_clause → string → qsval → jsnum → jsnum →
               World → World * result (list (gmap string jsval));
  Model_countDocuments : gmap string top_clause → World → World * result Z;
  Model_distinct : string → World → World * result (list jsval);
  Model_findById : string → World → World * result (option (gmap string jsval));
  Model_create : gmap string jsval → World → World * result (gmap string jsval);
  Model_findByIdAndUpdate : string → update →
                            World → World * result (option (gmap string jsval));
  Model_findByIdAndDelete : string → World → World * result (option (gmap string jsval));
  blob_put : string → string → string → World → World * result string;
  blob_del : string → string → World → World * result unit;
  new_ObjectId : World → World * string;
  Date_now : World → World * Z
}.
Arguments Model_find {World} _.
Arguments Model_countDocuments {World} _.
Arguments Model_distinct {World} _.
Arguments Model_findById {World} _.
Arguments Model_create {World} _.
Arguments Model_findByIdAndUpdate {World} _.
Arguments Model_findByIdAndDelete {World} _.
Arguments blob_put {World} _.
Arguments blob_del {World} _.
Arguments new_ObjectId {World} _.
Arguments Date_now {World} _.

(** One entry of the trace per call to the storage engine or the blob
    store, with what the call returned. *)
Inductive event :=
| EFind (q : gmap string top_clause) (select : string) (sort : qsval)
        (skip limit : jsnum) (r : result (list (gmap string jsval)))
| ECount (q : gmap string top_clause) (r : result Z)
| EDistinct (field : string) (r : result (list jsval))
| EFindById (id : string) (r : result (option (gmap string jsval)))
| ECreate (body : gmap string jsval) (r : result (gmap string jsval))
| EUpdate (id : string) (u : update) (r : result (option (gmap string jsval)))
| EDelete (id : string) (r : result (option (gmap string jsval)))
| EPut (path buffer token : string) (r : result string)
| EDel (url token : string) (r : result unit).

(** A computation that reads and changes the world, logs its calls and
    may throw. *)
Definition M (World A : Type) : Type := World → World * list event * result A.

Definition ret {World A} (a : A) : M World A := λ w, (w, [], Ok a).
Definition throw {World A} (e : error) : M World A := λ w, (w, [], Throw e).
Definition bind {World A B} (m : M World A) (k : A → M World B) : M World B :=
  λ w, match m w with
       | (w1, t1, Ok a) => let '(w2, t2, r) := k a w1 in (w2, t1 ++ t2, r)
       | (w1, t1, Throw e) => (w1, t1, Throw e)
       end.
(** [try { m } catch (err) { h err }]. *)
Definition catch {World A} (m : M World A) (h : error → M World A) : M World A :=
  λ w, match m w with
       | (w1, t1, Throw e) => let '(w2, t2, r) := h e w1 in (w2, t1 ++ t2, r)
       | r => r
       end.
(** A call to the environment, logged with its result. *)
Definition call {World A} (f : World → World * result A)
    (ev : result A → event) : M World A :=
  λ w, let '(w1, r) := f w in (w1, [ev r], r).
(** A call whose failure is swallowed: [.catch(() => {})]. *)
Definition call_quiet {World A} (f : World → World * result A)
    (ev : result A → event) : M World unit :=
  λ w, let '(w1, r) := f w in (w1, [ev r], Ok tt).
(** A value read from the world without a call to a store. *)
Definition draw {World A} (f : World → World * A) : M World A :=
  λ w, let '(w1, a) := f w in (w1, [], Ok a).

#[global] Instance M_ret {World} : MRet (M World) := λ A, ret.
#[global] Instance M_bind {World} : MBind (M World) := λ A B k m, bind m k.

(** ** The list handler: [GET /] *)

(** The destructured [req.query]; [None] is a parameter that is absent. *)
Record list_query := {
  q_page : option qsval;
  q_limit : option qsval;
  q_sort : option qsval;
  q_fields : option qsval;
  q_search : option qsval;
  q_filters : list (string * qsval)
}.

(** [const { page = 1, limit = 10, sort = "-createdAt", fields, search,
    ...filters } = req.query], over the entries of [req.query]. *)
Fixpoint param (name : string) (query : list (string * qsval)) : option qsval :=
  match query with
  | [] => None
  | (key, value) :: rest =>
      if bool_decide (key = name) then Some value else param name rest
  end.

Definition destructured : list string := ["page"; "limit"; "sort"; "fields"; "search"].

Definition destructure (query : list (string * qsval)) : list_query :=
  {| q_page := param "page" query; q_limit := param "limit" query;
     q_sort := param "sort" query; q_fields := param "fields" query;
     q_search := param "search" query;
     q_filters := filter (λ kv, kv.1 ∉ destructured) query |}.

(** [String(page)] with the default [page = 1], [String(limit)] with the
    default [limit = 10]. *)
Definition page_string (page : option qsval) : string :=
  match page with None => "1" | Some p => ToString p end.
Definition limit_string (limit : option qsval) : string :=
  match limit with None => "10" | Some l => ToString l end.

Definition pageNum (page : option qsval) : jsnum :=
  Num.max (Num.int 1) (Num.parseInt (page_string page)).
Definition limitNum (limit : option qsval) : jsnum :=
  Num.min (Num.int 100) (Num.max (Num.int 1) (Num.parseInt (limit_string limit))).
(** [(pageNum - 1) * limitNum]: a difference and a product of doubles,
    each rounded. *)
Definition skip (page limit : option qsval) : jsnum :=
  Num.fl (Num.mul (Num.fl (Num.sub (pageNum page) (Num.int 1))) (limitNum limit)).

(** Truthiness of a query value: only the empty string is falsy. *)
Definition qs_truthy (x : qsval) : bool :=
  match x with QStr s => negb (bool_decide (s = "")) | _ => true end.

(** [x.trim()] and [x.split(",").join(" ")] on a raw query value: a
    [TypeError] unless it is a string (CommonJS variant); the TypeScript
    variant converts with [String(x)] first. *)
Definition as_string (v : variant) (what : string) (x : qsval) : result string :=
  match v, x with
  | TypeScript, _ => Ok (ToString x)
  | CommonJS, QStr s => Ok s
  | CommonJS, _ => Throw (type_error (what +:+ " is not a function"))
  end.

(** The [$or] clause of the search, if any. *)
Definition search_clause (v : variant) (searchBy : list string)
    (search : option qsval) : result (option (list (string * string))) :=
  match search with
  | None => Ok None
  | Some x =>
      if qs_truthy x then
        match as_string v "search.trim" x with
        | Ok s =>
            let term := Str.trim s in
            if negb (bool_decide (term = "")) && negb (bool_decide (searchBy = []))
            then Ok (Some ((λ field, (field, term)) <$> searchBy))
            else Ok None
        | Throw e => Throw e
        end
      else Ok None
  end.

(** [fields ? String(fields).split(",").join(" ") : ""]. *)
Definition selectFields (v : variant) (fields : option qsval) : result string :=
  match fields with
  | None => Ok ""
  | Some x =>
      if qs_truthy x then
        match as_string v "fields.split" x with
        | Ok s => Ok (Str.join " " (Str.split_comma s))
        | Throw e => Throw e
        end
      else Ok ""
  end.

(** The argument of [.sort(..)]; the default is ["-createdAt"]. *)
Definition sort_arg (v : variant) (sort : option qsval) : qsval :=
  match sort with
  | None => QStr "-createdAt"
  | Some x => match v with TypeScript => QStr (ToString x) | CommonJS => x end
  end.

Definition with_search (q : gmap string clause)
    (or : option (list (string * string))) : gmap string top_clause :=
  match or with
  | Some alternatives => <["$or" := Or alternatives]> (Field <$> q)
  | None => Field <$> q
  end.

Record pagination := {
  total : Z;
  page : jsnum;
  limit : jsnum;
  totalPages : jsnum;
  hasNext : bool;
  hasPrev : bool
}.

Inductive details :=
| FieldErrors (l : list (string * string))
| FileErrors (l : list string).

(** The JSON bodies the handlers send. *)
Inductive response :=
| RespError (error : string) (d : option details)
| RespList (data : list (gmap string jsval)) (p : pagination)
| RespData (data : gmap string jsval)
| RespDeleted (message : string) (data : gmap string jsval)
| RespDistinct (resource field : string) (count : Z) (values : list jsval).

(** How a handler ends: a response, [next(err)], an exception that escapes
    the handler, or a run that left the model in the filter loop. *)
Inductive outcome :=
| Respond (status : Z) (body : response)
| Next (e : error)
| Rejected (e : error)
| LeavesModel.

(** The pagination object of the response. *)
Definition make_pagination (total : Z) (pageNum limitNum : jsnum) : pagination :=
  let pages := Num.ceil (Num.div (Num.int total) limitNum) in
  {| total := total; page := pageNum; limit := limitNum; totalPages := pages;
     hasNext := Num.lt pageNum pages; hasPrev := Num.gt pageNum (Num.int 1) |}.

(** [Promise.all([Model.find(query)..., Model.countDocuments(query)])]: both
    calls are made; the first failure is the one that is caught. *)
Definition find_and_count {World} (env : Env World) (query : gmap string top_clause)
    (select : string) (sort : qsval) (skip limit : jsnum)
  : M World (list (gmap string jsval) * Z) :=
  λ w, let '(w1, r1) := Model_find env query select sort skip limit w in
       let '(w2, r2) := Model_countDocuments env query w1 in
       (w2, [EFind query select sort skip limit r1; ECount query r2],
        match r1, r2 with
        | Ok data, Ok total => Ok (data, total)
        | Throw e, _ => Throw e
        | _, Throw e => Throw e
        end).

Definition getList {World} (v : variant) (searchBy filterBy : list string)
    (env : Env World) (rq : list_query) (w : World) : World * list event * outcome :=
  match compile v filterBy (q_filters rq) with
  | PrototypeWrite _ => (w, [], LeavesModel)
  | TypeError field =>
      (w, [], Next (type_error ("Cannot create property on " +:+ field)))
  | Compiled q =>
      match search_clause v searchBy (q_search rq) with
      | Throw e => (w, [], Next e)
      | Ok or =>
          let query := with_search q or in
          let pageNum := pageNum (q_page rq) in
          let limitNum := limitNum (q_limit rq) in
          let skip := skip (q_page rq) (q_limit rq) in
          match selectFields v (q_fields rq) with
          | Throw e => (w, [], Next e)
          | Ok select =>
              match find_and_count env query select (sort_arg v (q_sort rq))
                      skip limitNum w with
              | (w', t, Ok (data, total)) =>
                  (w', t, Respond 200 (RespList data (make_pagination total pageNum limitNum)))
              | (w', t, Throw e) => (w', t, Next e)
              end
          end
      end
  end.

(** The page of [docs] that starts after [skip] documents and holds at
    most [limit] of them. *)
Definition window (docs : list (gmap string jsval)) (skip limit : jsnum)
  : list (gmap string jsval) :=
  match skip, limit with
  | Fin s, Fin l => take (Z.to_nat (Qfloor l)) (drop (Z.to_nat (Qfloor s)) docs)
  | _, _ => []
  end.

Definition unavailable : error := Error "Error" "unavailable" None None None None.

(** An environment for examples: a store holding [docs], all of which
    match; no blob store. *)
Definition listing_env (docs : list (gmap string jsval)) : Env unit := {|
  Model_find _ _ _ skip limit w := (w, Ok (window docs skip limit));
  Model_countDocuments _ w := (w, Ok (Z.of_nat (length docs)));
  Model_distinct _ w := (w, Throw unavailable);
  Model_findById _ w := (w, Ok None);
  Model_create _ w := (w, Throw unavailable);
  Model_findByIdAndUpdate _ _ w := (w, Ok None);
  Model_findByIdAndDelete _ w := (w, Ok None);
  blob_put _ _ _ w := (w, Throw unavailable);
  blob_del _ _ w := (w, Throw unavailable);
  new_ObjectId w := (w, "000000000000000000000000");
  Date_now w := (w, 0)
|}.

(** Twelve products, priced 12 down to 1. *)
Definition products : list (gmap string jsval) :=
  (λ n : nat, {["price" := VNum (Num.int (Z.of_nat n))]})
    <$> [12; 11; 10; 9; 8; 7; 6; 5; 4; 3; 2; 1]%nat.

Definition page2_limit5 : list_query := {|
  q_page := Some (QStr "2"); q_limit := Some (QStr "5");
  q_sort := Some (QStr "-price"); q_fields := None; q_search := None;
  q_filters := []
|}.

(** A page of 310 digits, [?page=1000...0&limit=1000]. *)
Definition huge_page : list_query := {|
  q_page := Some (QStr ("1" +:+ Str.str (replicate 309 "0"%char)));
  q_limit := Some (QStr "1000"); q_sort := None; q_fields := None;
  q_search := None; q_filters := []
|}.

(** [?price_gte=3&search=%20pro%20], and the predicate it gives with the
    searchable fields [name] and [brand]. *)
Definition searched_query : list_query := {|
  q_page := None; q_limit := None; q_sort := None; q_fields := None;
  q_search := Some (QStr " pro "); q_filters := [("price_gte", QStr "3")]
|}.
Definition searched_predicate : gmap string top_clause :=
  <["$or" := Or [("name", "pro"); ("brand", "pro")]]>
    {["price" := Field (CNode None {["$gte" := ANum (Num.int 3)]})]}.


Definition scenario_pagination : pagination :=
  {| total := 12; page := Num.int 2; limit := Num.int 5; totalPages := Num.int 3;
     hasNext := true; hasPrev := true |}.

(** ** Attachments: [fileUpload.ts] *)

(** What the handlers take from the platform: [path.extname], the
    rendering of a number in a template string, and the collation behind
    [String.prototype.localeCompare]. *)
Record Platform := {
  path_extname : string → string;
  Number_toString : Q → string;
  String_localeCompare : string → string → Z
}.

Record FileFieldConfig := {
  fieldName : string;
  required : bool;
  maxSize : option Q;
  accept : option string
}.

Record MulterFile := {
  originalname : string;
  mimetype : string;
  buffer : string;
  size : Z
}.

(** The double quote, for the messages. *)
Definition dq : string := String "034"%char "".

(** [x.toFixed(2)] for an exact [x]: the nearest multiple of 1/100, the
    larger one on a tie. *)
Definition two_digits (n : Z) : string :=
  (if n <? 10 then "0" else "") +:+ pretty n.
Definition toFixed2 (x : Q) : string :=
  let n := Qfloor (Qabs x * 100 + (1 # 2)) in
  (if Qle_bool 0 x then "" else if n =? 0 then "" else "-")
  +:+ pretty (n / 100) +:+ "." +:+ two_digits (n mod 100).

(** [files?.[ff.fieldName]?.[0]]. *)
Definition uploaded_for (files : option (gmap string (list MulterFile)))
    (ff : FileFieldConfig) : option MulterFile :=
  match files with
  | Some m => match m !! fieldName ff with
              | Some l => head l
              | None => None
              end
  | None => None
  end.

(** One rule of an [accept] string against a file. *)
Definition rule_accepts (P : Platform) (file : MulterFile) (rule : string) : bool :=
  let mime := Str.toLowerCase (mimetype file) in
  let ext := Str.toLowerCase (path_extname P (originalname file)) in
  if Str.startsWith rule "." then bool_decide (ext = rule)
  else if Str.endsWith rule "/*" then Str.startsWith mime (Str.replace_first rule "/*" "/")
  else bool_decide (mime = rule).

(** [accept.split(",").map((r) => r.trim().toLowerCase())]. *)
Definition accept_rules (accept : string) : list string :=
  (λ r, Str.toLowerCase (Str.trim r)) <$> Str.split_comma accept.

Definition isFileAccepted (P : Platform) (file : MulterFile) (accept : string) : bool :=
  existsb (rule_accepts P file) (accept_rules accept).

Definition required_message (ff : FileFieldConfig) : string :=
  "File field " +:+ dq +:+ fieldName ff +:+ dq +:+ " is required".

Definition size_message (P : Platform) (ff : FileFieldConfig) (file : MulterFile) : string :=
  "File " +:+ dq +:+ fieldName ff +:+ dq +:+ " exceeds max size of "
  +:+ from_option (Number_toString P) "undefined" (maxSize ff) +:+ "MB (got "
  +:+ toFixed2 (inject_Z (size file) / 1048576) +:+ "MB)".

Definition type_message (ff : FileFieldConfig) (file : MulterFile) : string :=
  "File " +:+ dq +:+ fieldName ff +:+ dq +:+ " type " +:+ dq +:+ mimetype file +:+ dq
  +:+ " not allowed. Accepted: " +:+ from_option id "undefined" (accept ff).

(** [ff.maxSize && uploaded.size > ff.maxSize * 1024 * 1024]. *)
Definition too_large (ff : FileFieldConfig) (file : MulterFile) : bool :=
  match maxSize ff with
  | Some m => negb (Qeq_bool m 0) && negb (Qle_bool (inject_Z (size file)) (m * 1024 * 1024))
  | None => false
  end.

(** [ff.accept && !isFileAccepted(uploaded, ff.accept)]. *)
Definition wrong_type (P : Platform) (ff : FileFieldConfig) (file : MulterFile) : bool :=
  match accept ff with
  | Some a => negb (bool_decide (a = "")) && negb (isFileAccepted P file a)
  | None => false
  end.

(** The loop of [validateFiles], with its growing [errors] array. *)
Fixpoint validate_loop (P : Platform) (files : option (gmap string (list MulterFile)))
    (isCreate : bool) (fileFields : list FileFieldConfig) (errors : list string)
  : list string :=
  match fileFields with
  | [] => errors
  | ff :: rest =>
      let uploaded := uploaded_for files ff in
      if required ff && isCreate && negb (bool_decide (is_Some uploaded))
      then validate_loop P files isCreate rest (errors ++ [required_message ff])
      else
        match uploaded with
        | None => validate_loop P files isCreate rest errors
        | Some file =>
            let errors1 :=
              if too_large ff file then errors ++ [size_message P ff file] else errors in
            let errors2 :=
              if wrong_type P ff file then errors1 ++ [type_message ff file] else errors1 in
            validate_loop P files isCreate rest errors2
        end
  end.

Definition validateFiles (P : Platform) (files : option (gmap string (list MulterFile)))
    (fileFields : list FileFieldConfig) (isCreate : bool) : list string :=
  validate_loop P files isCreate fileFields [].

(** The violations of one file field, as the validation claim lists them. *)
Definition field_violations (P : Platform) (files : option (gmap string (list MulterFile)))
    (isCreate : bool) (ff : FileFieldConfig) : list string :=
  match uploaded_for files ff with
  | None => if required ff && isCreate then [required_message ff] else []
  | Some file =>
      (if too_large ff file then [size_message P ff file] else [])
      ++ (if wrong_type P ff file then [type_message ff file] else [])
  end.

(** The extension of a plain file name (no directory part): from its last
    dot, unless there is none or only a leading one. *)
Fixpoint last_dot (l : list ascii) (seen : option (list ascii)) : option (list ascii) :=
  match l with
  | [] => seen
  | c :: rest => last_dot rest (if Ascii.eqb c "." then Some l else seen)
  end.
Definition plain_extname (name : string) : string :=
  match Str.chars name with
  | [] => ""
  | c :: rest => from_option Str.str "" (last_dot rest None)
  end.

(** Comparison by character codes: on strings of letters of one case it
    agrees with every collation. *)
Definition code_compare (a b : string) : Z :=
  match String.compare a b with
  | Datatypes.Lt => -1
  | Datatypes.Eq => 0
  | Datatypes.Gt => 1
  end.

Definition plain_platform : Platform :=
  {| path_extname := plain_extname; Number_toString q := pretty (Qfloor q);
     String_localeCompare := code_compare |}.

Definition idCard : FileFieldConfig :=
  {| fieldName := "idCard"; required := true; maxSize := Some (5 # 1);
     accept := Some ".pdf,.jpg,.png" |}.
Definition photo : FileFieldConfig :=
  {| fieldName := "photo"; required := false; maxSize := Some (1 # 1);
     accept := Some "image/*, application/pdf" |}.
Definition notes_txt : MulterFile :=
  {| originalname := "notes.TXT"; mimetype := "text/plain"; buffer := "hello";
     size := 2097152 |}.
Definition scan_pdf : MulterFile :=
  {| originalname := "Scan.PDF"; mimetype := "application/octet-stream"; buffer := "%PDF";
     size := 1024 |}.

Definition photo_only : option (gmap string (list MulterFile)) :=
  Some {["photo" := [notes_txt]]}.

(** ** Uploads and their rollback *)

(** An array index: the canonical decimal name of an integer from 0 to
    2^32 - 2. *)
Definition array_index (key : string) : option Z :=
  match Num.all_digits 10 (Str.chars key) with
  | Some n =>
      if bool_decide (pretty n = key) && (n <=? 4294967294) then Some n else None
  | None => None
  end.

(** [obj[key] = value] on an object literal with string values, kept in
    property order, the order in which [Object.values] lists them: the
    array indices first, in ascending order, then the other names in the
    order of their creation.  The key [__proto__] is an accessor that
    ignores a string. *)
Fixpoint obj_update (o : list (string * string)) (key value : string)
  : option (list (string * string)) :=
  match o with
  | [] => None
  | (k, x) :: rest =>
      if bool_decide (k = key) then Some ((k, value) :: rest)
      else (λ rest', (k, x) :: rest') <$> obj_update rest key value
  end.
Fixpoint obj_insert_index (o : list (string * string)) (i : Z) (key value : string)
  : list (string * string) :=
  match o with
  | [] => [(key, value)]
  | (k, x) :: rest =>
      match array_index k with
      | Some j =>
          if j <? i then (k, x) :: obj_insert_index rest i key value
          else (key, value) :: o
      | None => (key, value) :: o
      end
  end.
Definition obj_set (o : list (string * string)) (key value : string)
  : list (string * string) :=
  if bool_decide (key = "__proto__") then o
  else
    match obj_update o key value with
    | Some o' => o'
    | None =>
        match array_index key with
        | Some i => obj_insert_index o i key value
        | None => o ++ [(key, value)]
        end
    end.

(** The loop of [uploadFiles]. *)
Fixpoint upload_loop {World} (P : Platform) (env : Env World)
    (files : option (gmap string (list MulterFile)))
    (resourceName documentId token : string)
    (fileFields : list FileFieldConfig) (urls : list (string * string))
  : M World (list (string * string)) :=
  match fileFields with
  | [] => ret urls
  | ff :: rest =>
      match uploaded_for files ff with
      | None => upload_loop P env files resourceName documentId token rest urls
      | Some file =>
          now ← draw (Date_now env);
          let ext := path_extname P (originalname file) in
          let blobPath := resourceName +:+ "/" +:+ documentId +:+ "/"
                          +:+ fieldName ff +:+ "-" +:+ pretty now +:+ ext in
          url ← call (blob_put env blobPath (buffer file) token)
                     (EPut blobPath (buffer file) token);
          upload_loop P env files resourceName documentId token rest
            (obj_set urls (fieldName ff) url)
      end
  end.

Definition uploadFiles {World} (P : Platform) (env : Env World)
    (files : option (gmap string (list MulterFile)))
    (fileFields : list FileFieldConfig) (resourceName documentId token : string)
  : M World (list (string * string)) :=
  upload_loop P env files resourceName documentId token fileFields [].

(** [deleteBlobs]: one [del] per URL, each failure swallowed. *)
Fixpoint deleteBlobs {World} (env : Env World) (urls : list string) (token : string)
  : M World unit :=
  match urls with
  | [] => ret tt
  | url :: rest =>
      call_quiet (blob_del env url token) (EDel url token);;
      deleteBlobs env rest token
  end.

(** [typeof val === "string" && val.startsWith("http")]. *)
Definition is_blob_url (val : option jsval) : option string :=
  match val with
  | Some (VStr s) => if Str.startsWith s "http" then Some s else None
  | _ => None
  end.

Definition extractBlobUrls (doc : gmap string jsval)
    (fileFields : list FileFieldConfig) : list string :=
  omap (λ ff, is_blob_url (doc !! fieldName ff)) fileFields.

(** ** The write handlers *)

Record request := {
  req_id : string;
  req_body : option (gmap string jsval);
  req_files : option (gmap string (list MulterFile))
}.

(** [{ ...req.body }]. *)
Definition spread (body : option (gmap string jsval)) : gmap string jsval :=
  default ∅ body.

Definition hasBody (body : gmap string jsval) : bool :=
  negb (bool_decide (body = ∅)).
Definition hasUploadedFiles (files : option (gmap string (list MulterFile))) : bool :=
  match files with
  | Some m => negb (bool_decide (dom m = ∅))
  | None => false
  end.

(** [Object.assign(body, uploadedUrls)]. *)
Definition assign_urls (body : gmap string jsval) (urls : list (string * string))
  : gmap string jsval :=
  foldl (λ b kv, <[kv.1 := VStr kv.2]> b) body urls.

(** [fileFields.length > 0 && !!blobToken]. *)
Definition hasFiles (fileFields : list FileFieldConfig) (blobToken : option string) : bool :=
  match fileFields, blobToken with
  | _ :: _, Some t => negb (bool_decide (t = ""))
  | _, _ => false
  end.

Definition empty_body_response : outcome :=
  Respond 400 (RespError "Request body cannot be empty" None).
Definition file_errors_response (errors : list string) : outcome :=
  Respond 400 (RespError "File validation failed" (Some (FileErrors errors))).
Definition not_found_response (resourceName id : string) : outcome :=
  Respond 404 (RespError (resourceName +:+ " with id " +:+ dq +:+ id +:+ dq +:+ " not found") None).
Definition invalid_id_response (id : string) : outcome :=
  Respond 400 (RespError ("Invalid ID format: " +:+ dq +:+ id +:+ dq) None).
Definition validation_response (errors : list (string * string)) : outcome :=
  Respond 400 (RespError "Validation failed" (Some (FieldErrors errors))).
Definition duplicate_response (keyPattern : list string) : outcome :=
  Respond 409 (RespError ("Duplicate value for field " +:+ dq
                          +:+ default "undefined" (head keyPattern) +:+ dq) None).

(** The [catch] of the create handler: a validation error, a duplicate
    key, or [next(err)].  The CommonJS variant reads [err.errors] and
    [err.keyPattern] without checking them. *)
Definition create_error (v : variant) (e : error) : outcome :=
  if bool_decide (err_name e = "ValidationError") &&
     match v with TypeScript => bool_decide (is_Some (err_errors e)) | CommonJS => true end
  then match err_errors e with
       | Some errors => validation_response errors
       | None => Rejected (type_error "Cannot convert undefined or null to object")
       end
  else if bool_decide (err_code e = Some 11000) &&
          match v with TypeScript => bool_decide (is_Some (err_keyPattern e)) | CommonJS => true end
  then match err_keyPattern e with
       | Some keys => duplicate_response keys
       | None => Rejected (type_error "Cannot convert undefined or null to object")
       end
  else Next e.

(** The [catch] of the replace and partial-update handlers. *)
Definition update_error (v : variant) (id : string) (e : error) : outcome :=
  if bool_decide (err_name e = "ValidationError") &&
     match v with TypeScript => bool_decide (is_Some (err_errors e)) | CommonJS => true end
  then match err_errors e with
       | Some errors => validation_response errors
       | None => Rejected (type_error "Cannot convert undefined or null to object")
       end
  else if bool_decide (err_kind e = Some "ObjectId") then invalid_id_response id
  else Next e.

(** A handler body whose exceptions all go through [on_error]. *)
Definition handle {World} (m : M World outcome) (on_error : error → outcome)
    (w : World) : World * list event * outcome :=
  match m w with
  | (w', t, Ok out) => (w', t, out)
  | (w', t, Throw e) => (w', t, on_error e)
  end.

(** [try { Model.create(body) } catch (err) { rollback; throw err }]. *)
Definition create_with_rollback {World} (env : Env World) (body : gmap string jsval)
    (uploadedUrls : list (string * string)) (token : string) : M World outcome :=
  catch
    (doc ← call (Model_create env body) (ECreate body);
     ret (Respond 201 (RespData doc)))
    (λ err,
       (match uploadedUrls with
        | [] => ret tt
        | _ => deleteBlobs env uploadedUrls.*2 token
        end);;
       throw err).

(** [POST /] of the TypeScript variant. *)
Definition postHandler {World} (P : Platform) (env : Env World) (resourceName : string)
    (fileFields : list FileFieldConfig) (blobToken : option string) (req : request)
  : World → World * list event * outcome :=
  handle
    (let body := spread (req_body req) in
     let files := req_files req in
     if negb (hasBody body) && negb (hasUploadedFiles files) then ret empty_body_response
     else if hasFiles fileFields blobToken then
       match validateFiles P files fileFields true with
       | [] =>
           docId ← draw (new_ObjectId env);
           let body1 := <["_id" := VObjectId docId]> body in
           uploadedUrls ← uploadFiles P env files fileFields resourceName docId
                            (default "" blobToken);
           create_with_rollback env (assign_urls body1 uploadedUrls) uploadedUrls
             (default "" blobToken)
       | fileErrors => ret (file_errors_response fileErrors)
       end
     else create_with_rollback env body [] (default "" blobToken))
    (create_error TypeScript).

(** After [findByIdAndUpdate]: not found (with the rollback of the new
    uploads), or the cleanup of the old blobs and the document. *)
Definition after_update {World} (env : Env World) (resourceName id token : string)
    (uploadedUrls : list (string * string)) (oldBlobUrls : list string)
    (doc : option (gmap string jsval)) : M World outcome :=
  match doc with
  | None =>
      (match uploadedUrls with
       | [] => ret tt
       | _ => deleteBlobs env uploadedUrls.*2 token
       end);;
      ret (not_found_response resourceName id)
  | Some d =>
      (match oldBlobUrls with
       | [] => ret tt
       | _ => deleteBlobs env oldBlobUrls token
       end);;
      ret (Respond 200 (RespData d))
  end.

(** [PUT /:id] of the TypeScript variant. *)
Definition putHandler {World} (P : Platform) (env : Env World) (resourceName : string)
    (fileFields : list FileFieldConfig) (blobToken : option string) (req : request)
  : World → World * list event * outcome :=
  handle
    (let body := spread (req_body req) in
     let files := req_files req in
     let id := req_id req in
     let token := default "" blobToken in
     if negb (hasBody body) && negb (hasUploadedFiles files) then ret empty_body_response
     else if hasFiles fileFields blobToken then
       match validateFiles P files fileFields false with
       | [] =>
           oldDoc ← call (Model_findById env id) (EFindById id);
           let oldBlobUrls :=
             match oldDoc with
             | Some d => extractBlobUrls d fileFields
             | None => []
             end in
           uploadedUrls ← uploadFiles P env files fileFields resourceName id token;
           let body1 := assign_urls body uploadedUrls in
           doc ← call (Model_findByIdAndUpdate env id (Overwrite body1))
                      (EUpdate id (Overwrite body1));
           after_update env resourceName id token uploadedUrls oldBlobUrls doc
       | fileErrors => ret (file_errors_response fileErrors)
       end
     else
       doc ← call (Model_findByIdAndUpdate env id (Overwrite body))
                  (EUpdate id (Overwrite body));
       after_update env resourceName id token [] [] doc)
    (update_error TypeScript (req_id req)).

(** The old URLs of the fields that this request uploads again:
    [files?.[ff.fieldName]] and a stored string starting with [http]. *)
Definition replaced_urls (files : option (gmap string (list MulterFile)))
    (doc : gmap string jsval) (fileFields : list FileFieldConfig) : list string :=
  omap (λ ff,
          match files with
          | Some m => match m !! fieldName ff with
                      | Some _ => is_blob_url (doc !! fieldName ff)
                      | None => None
                      end
          | None => None
          end) fileFields.

(** [PATCH /:id] of the TypeScript variant. *)
Definition patchHandler {World} (P : Platform) (env : Env World) (resourceName : string)
    (fileFields : list FileFieldConfig) (blobToken : option string) (req : request)
  : World → World * list event * outcome :=
  handle
    (let body := spread (req_body req) in
     let files := req_files req in
     let id := req_id req in
     let token := default "" blobToken in
     if negb (hasBody body) && negb (hasUploadedFiles files) then ret empty_body_response
     else if hasFiles fileFields blobToken && hasUploadedFiles files then
       match validateFiles P files fileFields false with
       | [] =>
           oldDoc ← call (Model_findById env id) (EFindById id);
           let oldBlobUrlsToDelete :=
             match oldDoc with
             | Some d => replaced_urls files d fileFields
             | None => []
             end in
           uploadedUrls ← uploadFiles P env files fileFields resourceName id token;
           let body1 := assign_urls body uploadedUrls in
           doc ← call (Model_findByIdAndUpdate env id (SetFields body1))
                      (EUpdate id (SetFields body1));
           after_update env resourceName id token uploadedUrls oldBlobUrlsToDelete doc
       | fileErrors => ret (file_errors_response fileErrors)
       end
     else
       doc ← call (Model_findByIdAndUpdate env id (SetFields body))
                  (EUpdate id (SetFields body));
       after_update env resourceName id token [] [] doc)
    (update_error TypeScript (req_id req)).

(** [!req.body || Object.keys(req.body).length === 0] of the CommonJS
    variant. *)
Definition body_missing (body : option (gmap string jsval)) : bool :=
  match body with
  | Some b => bool_decide (b = ∅)
  | None => true
  end.

(** [POST /], [PUT /:id] and [PATCH /:id] of the CommonJS variant. *)
Definition postHandler_js {World} (env : Env World) (req : request)
  : World → World * list event * outcome :=
  handle
    (if body_missing (req_body req) then ret empty_body_response
     else
       let body := default ∅ (req_body req) in
       doc ← call (Model_create env body) (ECreate body);
       ret (Respond 201 (RespData doc)))
    (create_error CommonJS).

Definition update_js {World} (env : Env World) (resourceName : string)
    (mode : gmap string jsval → update) (req : request)
  : World → World * list event * outcome :=
  handle
    (if body_missing (req_body req) then ret empty_body_response
     else
       let u := mode (default ∅ (req_body req)) in
       doc ← call (Model_findByIdAndUpdate env (req_id req) u) (EUpdate (req_id req) u);
       match doc with
       | None => ret (not_found_response resourceName (req_id req))
       | Some d => ret (Respond 200 (RespData d))
       end)
    (update_error CommonJS (req_id req)).

Definition putHandler_js {World} (env : Env World) (resourceName : string)
  : request → World → World * list event * outcome :=
  update_js env resourceName Overwrite.
Definition patchHandler_js {World} (env : Env World) (resourceName : string)
  : request → World → World * list event * outcome :=
  update_js env resourceName SetFields.

Definition empty_request : request :=
  {| req_id := "65f0c0ffee0000000000abcd"; req_body := Some ∅; req_files := None |}.

(** *** Reading a trace *)

(** The URLs the uploads of a trace returned, and the URLs its deletions
    were called with. *)
Definition put_urls (t : list event) : list string :=
  omap (λ ev, match ev with EPut _ _ _ (Ok url) => Some url | _ => None end) t.
Definition del_urls (t : list event) : list string :=
  omap (λ ev, match ev with EDel url _ _ => Some url | _ => None end) t.

Definition is_put (ev : event) : Prop := ∃ path buf tok r, ev = EPut path buf tok r.
Definition is_put_ok (ev : event) : Prop := ∃ path buf tok url, ev = EPut path buf tok (Ok url).
Definition is_del (ev : event) : Prop := ∃ url tok r, ev = EDel url tok r.

(** An environment in which every upload succeeds and [Model.create]
    fails on a duplicate key. *)
Definition duplicate_email : error :=
  Error "MongoServerError" "E11000 duplicate key error" None (Some 11000)
        (Some ["email"]) None.

Definition rollback_env : Env nat := {|
  Model_find _ _ _ _ _ w := (w, Ok []);
  Model_countDocuments _ w := (w, Ok 0);
  Model_distinct _ w := (w, Ok []);
  Model_findById _ w := (w, Ok None);
  Model_create _ w := (w, Throw duplicate_email);
  Model_findByIdAndUpdate _ _ w := (w, Ok None);
  Model_findByIdAndDelete _ w := (w, Ok None);
  blob_put path _ _ w := (S w, Ok ("https://blob.example/" +:+ path));
  blob_del _ _ w := (Nat.pred w, Ok tt);
  new_ObjectId w := (w, "65f0c0ffee0000000000abcd");
  Date_now w := (w, 1700000000000)
|}.

Definition create_request : request :=
  {| req_id := "";
     req_body := Some {["email" := VStr "john@example.com"]};
     req_files := Some {["idCard" := [scan_pdf]]} |}.

Definition stored_url : string :=
  "https://blob.example/students/65f0c0ffee0000000000abcd/idCard-1700000000000.PDF".

Definition created_body : gmap string jsval :=
  <["idCard" := VStr stored_url]>
    (<["_id" := VObjectId "65f0c0ffee0000000000abcd"]>
       {["email" := VStr "john@example.com"]}).

Definition rollback_trace : list event :=
  [EPut "students/65f0c0ffee0000000000abcd/idCard-1700000000000.PDF" "%PDF" "token"
     (Ok stored_url);
   ECreate created_body (Throw duplicate_email);
   EDel stored_url "token" (Ok tt)].

(** ** The distinct-values route: [GET /filters/:field] *)

(** [Array.prototype.sort] with a comparator, as a stable insertion sort;
    [gt x y] says that the comparator puts [x] after [y].  Every stable
    sort gives this result when the comparator is consistent; when it is
    not, the language leaves the order to the engine, and this is one of
    the orders an engine may produce. *)
Section Sort.
Context {A : Type} (gt : A → A → bool).

Fixpoint sort_insert (x : A) (l : list A) : list A :=
  match l with
  | [] => [x]
  | y :: l' => if gt x y then y :: sort_insert x l' else x :: l
  end.

Fixpoint js_sort (l : list A) : list A :=
  match l with
  | [] => []
  | x :: l' => sort_insert x (js_sort l')
  end.

End Sort.

(** The comparator of the route:
    strings by [localeCompare], numbers by their difference, anything else
    left equal. *)
Definition distinct_compare (P : Platform) (a b : jsval) : jsnum :=
  match a, b with
  | VStr x, VStr y => Num.int (String_localeCompare P x y)
  | VNum x, VNum y => Num.sub x y
  | _, _ => Num.int 0
  end.

(** The comparator's result puts [a] after [b]: a positive number (NaN
    counts as 0). *)
Definition sorts_after (P : Platform) (a b : jsval) : bool :=
  Num.gt (distinct_compare P a b) (Num.int 0).

Definition not_filterable_message (field : string) (filterBy : list string) : string :=
  "Field " +:+ dq +:+ field +:+ dq +:+ " is not filterable. Allowed filter fields: "
  +:+ Str.join ", " filterBy.

Definition filtersHandler {World} (P : Platform) (env : Env World) (resourceName : string)
    (filterBy : list string) (field : string) (w : World)
  : World * list event * outcome :=
  if negb (isFilterable TypeScript filterBy field)
  then (w, [], Respond 400 (RespError (not_filterable_message field filterBy) None))
  else
    match Model_distinct env field w with
    | (w', Ok values) =>
        let sorted := js_sort (sorts_after P) values in
        (w', [EDistinct field (Ok values)],
         Respond 200 (RespDistinct resourceName field (Z.of_nat (length sorted)) sorted))
    | (w', Throw e) => (w', [EDistinct field (Throw e)], Next e)
    end.

(** [if (filterBy.length > 0) router.get("/filters/:field", ...)]: the
    route exists only for a resource with filterable fields. *)
Definition filters_route {World} (P : Platform) (env : Env World) (resourceName : string)
    (filterBy : list string)
  : option (string → World → World * list event * outcome) :=
  match filterBy with
  | [] => None
  | _ => Some (filtersHandler P env resourceName filterBy)
  end.

(** A collation is a consistent comparator. *)
Definition consistent_collation (compare : string → string → Z) : Prop :=
  (∀ x y, 0 < compare x y → compare y x ≤ 0) ∧
  (∀ x y z, compare x y ≤ 0 → compare y z ≤ 0 → compare x z ≤ 0).

(** The numeric order on numbers other than NaN. *)
Definition num_leq (a b : jsnum) : Prop := Num.lt b a = false.

Definition is_text_or_number (v : jsval) : bool :=
  match v with VStr _ | VNum _ => true | _ => false end.

(** A store whose [distinct] returns the given values. *)
Definition distinct_env (values : list jsval) : Env unit := {|
  Model_find _ _ _ _ _ w := (w, Ok []);
  Model_countDocuments _ w := (w, Ok 0);
  Model_distinct _ w := (w, Ok values);
  Model_findById _ w := (w, Ok None);
  Model_create _ w := (w, Throw unavailable);
  Model_findByIdAndUpdate _ _ w := (w, Ok None);
  Model_findByIdAndDelete _ w := (w, Ok None);
  blob_put _ _ _ w := (w, Throw unavailable);
  blob_del _ _ w := (w, Throw unavailable);
  new_ObjectId w := (w, "000000000000000000000000");
  Date_now w := (w, 0)
|}.

(** ** Where the file fields come from: [extractFileFields] *)

(** A field definition of a resource schema, as far as [extractFileFields]
    looks at it: a string shorthand, an object (its [type] when that is a
    string, and the three attributes of a file field), or anything else. *)
Inductive fieldDef :=
| DefString (s : string)
| DefObject (type : option string) (required_true : bool)
            (maxSize_number : option Q) (accept_string : option string)
| DefOther.

Definition is_File (s : string) : bool :=
  bool_decide (s = "File") || bool_decide (s = "file").

Definition file_field_of (entry : string * fieldDef) : option FileFieldConfig :=
  match entry.2 with
  | DefString s =>
      if is_File s
      then Some {| fieldName := entry.1; required := false; maxSize := None; accept := None |}
      else None
  | DefObject (Some t) r m a =>
      if is_File t
      then Some {| fieldName := entry.1; required := r; maxSize := m; accept := a |}
      else None
  | _ => None
  end.

(** [extractFileFields(schema)], over [Object.entries(schema)]. *)
Definition extractFileFields (schema : list (string * fieldDef)) : list FileFieldConfig :=
  omap file_field_of schema.

(** ** The handlers that read and delete one document *)

(** The [catch] of [GET /:id] and [DELETE /:id]: a malformed identifier,
    or [next(err)]. *)
Definition id_error (id : string) (e : error) : outcome :=
  if bool_decide (err_kind e = Some "ObjectId") then invalid_id_response id else Next e.

(** [GET /:id] (the same in both variants). *)
Definition getOne {World} (env : Env World) (resourceName id : string)
  : World → World * list event * outcome :=
  handle
    (doc ← call (Model_findById env id) (EFindById id);
     match doc with
     | None => ret (not_found_response resourceName id)
     | Some d => ret (Respond 200 (RespData d))
     end)
    (id_error id).

Definition deleted_response (resourceName : string) (doc : gmap string jsval) : outcome :=
  Respond 200 (RespDeleted (resourceName +:+ " deleted successfully") doc).

(** [DELETE /:id] of the TypeScript variant: the blobs of the deleted
    document are removed before the response. *)
Definition deleteHandler {World} (env : Env World) (resourceName : string)
    (fileFields : list FileFieldConfig) (blobToken : option string) (id : string)
  : World → World * list event * outcome :=
  handle
    (doc ← call (Model_findByIdAndDelete env id) (EDelete id);
     match doc with
     | None => ret (not_found_response resourceName id)
     | Some d =>
         (if hasFiles fileFields blobToken then
            match extractBlobUrls d fileFields with
            | [] => ret tt
            | blobUrls => deleteBlobs env blobUrls (default "" blobToken)
            end
          else ret tt);;
         ret (deleted_response resourceName d)
     end)
    (id_error id).

(** [DELETE /:id] of the CommonJS variant. *)
Definition deleteHandler_js {World} (env : Env World) (resourceName id : string)
  : World → World * list event * outcome :=
  handle
    (doc ← call (Model_findByIdAndDelete env id) (EDelete id);
     match doc with
     | None => ret (not_found_response resourceName id)
     | Some d => ret (deleted_response resourceName d)
     end)
    (id_error id).

(** ** Vocabulary of the facts about the compiled predicate *)

(** No number of a clause is NaN. *)
Definition atom_not_NaN (a : atom) : Prop := a ≠ ANum NaN.
Definition clause_not_NaN (c : clause) : Prop :=
  match c with
  | CAtom a => atom_not_NaN a
  | CNode _ props => ∀ p a, props !! p = Some a → atom_not_NaN a
  end.

(** The atom [a] stands for the value of a query parameter: it is the
    number [Number] reads in the value or, when that is NaN, the value as
    it came (its string in the TypeScript variant). *)
Definition atom_of_value (v : variant) (value : qsval) (a : atom) : Prop :=
  (ToNumber value ≠ NaN ∧ a = ANum (ToNumber value)) ∨
  (ToNumber value = NaN ∧
   a = ARaw (match v with CommonJS => value | TypeScript => QStr (ToString value) end)).

(** The atom [a] stands for the value of a parameter named [field]. *)
Definition from_equality (v : variant) (filters : list (string * qsval))
    (field : string) (a : atom) : Prop :=
  ∃ value, (field, value) ∈ filters ∧ classify field = Bare ∧ atom_of_value v value a.

(** Every part of the clause of [field] comes from a parameter of the
    request: an atom from the parameter [field], the base of a node from
    the parameter [field] too, and a property of a node from an operator
    parameter on [field], whose value it stands for, or from the pattern of
    the parameter [field]. *)
Definition clause_kept (v : variant) (filters : list (string * qsval))
    (field : string) (c : clause) : Prop :=
  match c with
  | CAtom a => from_equality v filters field a
  | CNode base props =>
      (∀ raw, base = Some raw → from_equality v filters field (ARaw raw)) ∧
      ∀ p a, props !! p = Some a →
        (∃ key op value, (key, value) ∈ filters ∧ classify key = OpKey field op ∧
                         p = op_prop op ∧ atom_of_value v value a) ∨
        (∃ s, (field, QStr s) ∈ filters ∧ classify field = Bare ∧
              ((p = "$regex" ∧ a = ARaw (QStr (Str.slice_1_m1 s))) ∨
               (p = "$options" ∧ a = ARaw (QStr "i"))))
  end.

(** The field that a query parameter addresses, if the loop reads the
    parameter at all. *)
Definition addressed_field (key : string) : option string :=
  match classify key with
  | Internal => None
  | OpKey field _ => Some field
  | Bare => Some key
  end.

(** ** Stores for the examples of the write handlers *)

(** A store that answers [findById] with [old], and [findByIdAndUpdate]
    and [findByIdAndDelete] with [answer]; every upload succeeds and every
    deletion of a blob fails. *)
Definition update_env (old : option (gmap string jsval))
    (answer : result (option (gmap string jsval))) : Env nat := {|
  Model_find _ _ _ _ _ w := (w, Ok []);
  Model_countDocuments _ w := (w, Ok 0);
  Model_distinct _ w := (w, Ok []);
  Model_findById _ w := (w, Ok old);
  Model_create _ w := (w, Throw unavailable);
  Model_findByIdAndUpdate _ _ w := (w, answer);
  Model_findByIdAndDelete _ w := (w, answer);
  blob_put path _ _ w := (S w, Ok ("https://blob.example/" +:+ path));
  blob_del _ _ w := (w, Throw unavailable);
  new_ObjectId w := (w, "65f0c0ffee0000000000abcd");
  Date_now w := (w, 1700000000000)
|}.

Definition old_url : string := "https://blob.example/students/old/idCard-1.pdf".
Definition old_photo_url : string := "https://blob.example/students/old/photo-1.png".

(** A stored student with both attachments. *)
Definition old_student : gmap string jsval :=
  <["photo" := VStr old_photo_url]>
    (<["idCard" := VStr old_url]> {["email" := VStr "john@example.com"]}).

Definition update_request : request :=
  {| req_id := "65f0c0ffee0000000000abcd";
     req_body := Some {["email" := VStr "john@example.com"]};
     req_files := Some {["idCard" := [scan_pdf]]} |}.

(** Two file fields of which the second has the name of an array index,
    and a request that uploads both. *)
Definition field_b : FileFieldConfig :=
  {| fieldName := "b"; required := false; maxSize := None; accept := None |}.
Definition field_1 : FileFieldConfig :=
  {| fieldName := "1"; required := false; maxSize := None; accept := None |}.
Definition indexed_request : request :=
  {| req_id := "65f0c0ffee0000000000abcd";
     req_body := Some {["email" := VStr "john@example.com"]};
     req_files := Some (<["1" := [scan_pdf]]> {["b" := [scan_pdf]]}) |}.
Definition stored_b : string :=
  "https://blob.example/students/65f0c0ffee0000000000abcd/b-1700000000000.PDF".
Definition stored_1 : string :=
  "https://blob.example/students/65f0c0ffee0000000000abcd/1-1700000000000.PDF".

Definition updated_body : gmap string jsval :=
  <["idCard" := VStr stored_url]> {["email" := VStr "john@example.com"]}.

Definition cast_error : error :=
  Error "CastError" "Cast to ObjectId failed" (Some "ObjectId") None None None.

(** A duplicate-key error as a server before MongoDB 4.2 reports it:
    without [keyPattern]. *)
Definition legacy_duplicate : error :=
  Error "MongoServerError" "E11000 duplicate key error" None (Some 11000) None None.

(** A store whose [create] answers [answer]. *)
Definition create_env (answer : result (gmap string jsval)) : Env unit := {|
  Model_find _ _ _ _ _ w := (w, Ok []);
  Model_countDocuments _ w := (w, Ok 0);
  Model_distinct _ w := (w, Ok []);
  Model_findById _ w := (w, Ok None);
  Model_create _ w := (w, answer);
  Model_findByIdAndUpdate _ _ w := (w, Ok None);
  Model_findByIdAndDelete _ w := (w, Ok None);
  blob_put _ _ _ w := (w, Throw unavailable);
  blob_del _ _ w := (w, Throw unavailable);
  new_ObjectId w := (w, "65f0c0ffee0000000000abcd");
  Date_now w := (w, 1700000000000)
|}.

(** A request with a body and no files. *)
Definition plain_request : request :=
  {| req_id := "65f0c0ffee0000000000abcd";
     req_body := Some {["email" := VStr "john@example.com"]};
     req_files := None |}.

(** ** Schemas: [convertFileFieldsForMongoose] and the start-up check *)

(** The value of an attribute of a field definition: a string, a (finite)
    number, a boolean, the constructor [String], or anything else. *)
Inductive attr :=
| AString (s : string)
| ANumber (q : Q)
| ABool (b : bool)
| AStringCtor
| AOther.

(** A field definition of a resource schema: a string, an object with its
    own enumerable properties, an array, or anything else (a constructor
    such as [String] or [Number], null, a number, a boolean). *)
Inductive schemaDef :=
| SString (s : string)
| SObject (attrs : gmap string attr)
| SArray (items : list attr)
| SOther.

(** What [extractFileFields] sees of a field definition. *)
Definition fieldDef_of (d : schemaDef) : fieldDef :=
  match d with
  | SString s => DefString s
  | SObject attrs =>
      DefObject
        (match attrs !! "type" with Some (AString s) => Some s | _ => None end)
        (match attrs !! "required" with Some (ABool true) => true | _ => false end)
        (match attrs !! "maxSize" with Some (ANumber q) => Some q | _ => None end)
        (match attrs !! "accept" with Some (AString s) => Some s | _ => None end)
  | SArray _ | SOther => DefOther
  end.

Definition schema_view (schema : list (string * schemaDef)) : list (string * fieldDef) :=
  (λ entry, (entry.1, fieldDef_of entry.2)) <$> schema.

(** [converted[name]] for an own property, and [converted[name] = d] on
    one. *)
Fixpoint own (schema : list (string * schemaDef)) (name : string) : option schemaDef :=
  match schema with
  | [] => None
  | (k, d) :: rest => if bool_decide (k = name) then Some d else own rest name
  end.
Fixpoint assign (schema : list (string * schemaDef)) (name : string) (d : schemaDef)
  : list (string * schemaDef) :=
  match schema with
  | [] => []
  | (k, x) :: rest =>
      if bool_decide (k = name) then (k, d) :: rest else (k, x) :: assign rest name d
  end.

(** [{ ...rest, type: String }], where [rest] is what the destructuring
    leaves of the properties once [type], [maxSize] and [accept] are taken
    out. *)
Definition as_String_field (props : gmap string attr) : schemaDef :=
  SObject (<["type" := AStringCtor]> (delete "accept" (delete "maxSize" (delete "type" props)))).

(** The own enumerable properties of an array: its elements under their
    indices. *)
Definition array_props (items : list attr) : gmap string attr :=
  list_to_map (imap (λ i a, (pretty i, a)) items).

(** The two branches of the loop of [convertFileFieldsForMongoose] on an
    existing definition; a definition that is neither a string nor an
    object is left alone. *)
Definition convert_def (existing : schemaDef) : schemaDef :=
  match existing with
  | SString _ => SObject {["type" := AStringCtor]}
  | SObject attrs => as_String_field attrs
  | SArray items => as_String_field (array_props items)
  | SOther => SOther
  end.

(** One turn of the loop.  A name that is not an own property reads an
    inherited member: a function, which neither branch takes, except for
    [__proto__], which reads [Object.prototype] and whose assignment
    replaces the prototype of the copy; that run is outside the model
    ([None]). *)
Definition convert_step (converted : option (list (string * schemaDef)))
    (ff : FileFieldConfig) : option (list (string * schemaDef)) :=
  match converted with
  | None => None
  | Some c =>
      match own c (fieldName ff) with
      | Some existing => Some (assign c (fieldName ff) (convert_def existing))
      | None => if bool_decide (fieldName ff = "__proto__") then None else Some c
      end
  end.

Definition convertFileFieldsForMongoose (schema : list (string * schemaDef))
    (fileFields : list FileFieldConfig) : option (list (string * schemaDef)) :=
  foldl convert_step (Some schema) fileFields.

(** [fileFields.length > 0 ? convertFileFieldsForMongoose(schema, fileFields)
    : schema] of [rapidAPI]. *)
Definition finalSchema (schema : list (string * schemaDef))
  : option (list (string * schemaDef)) :=
  match extractFileFields (schema_view schema) with
  | [] => Some schema
  | fileFields => convertFileFieldsForMongoose schema fileFields
  end.

(** The start-up check of [rapidAPI]: [hasFileFields && !blobToken], after
    which it throws. *)
Definition hasFileFields (schemas : list (list (string * schemaDef))) : bool :=
  existsb (λ schema, negb (bool_decide (extractFileFields (schema_view schema) = []))) schemas.
Definition blobToken_missing (schemas : list (list (string * schemaDef)))
    (blobToken : option string) : bool :=
  hasFileFields schemas &&
  match blobToken with Some t => bool_decide (t = "") | None => true end.

(** The student schema of the documentation. *)
Definition student_schema : list (string * schemaDef) :=
  [("name", SObject {["type" := AStringCtor; "required" := ABool true]});
   ("email", SOther);
   ("idCard", SObject {["type" := AString "File"; "required" := ABool true;
                        "maxSize" := ANumber (5 # 1); "accept" := AString ".pdf,.jpg,.png"]});
   ("photo", SString "File")].

(** * Facts and theorems *)

(** ** Strings *)

Module StrFacts.
Import Str.

Lemma str_chars s : str (chars s) = s.
Proof. apply String.string_of_list_ascii_of_string. Qed.

Lemma chars_str l : chars (str l) = l.
Proof. apply String.list_ascii_of_string_of_list_ascii. Qed.

Lemma chars_app s t : chars (s +:+ t) = chars s ++ chars t.
Proof. induction s as [|a s IH]; simpl; [done|]. unfold chars in *. simpl. by rewrite IH. Qed.

Lemma chars_inj s t : chars s = chars t → s = t.
Proof. intros H. rewrite <- (str_chars s), <- (str_chars t). by rewrite H. Qed.

Lemma strip_prefix_app p l : strip_prefix p (p ++ l) = Some l.
Proof. induction p as [|a p IH]; simpl; [done|]. by rewrite Ascii.eqb_refl. Qed.

Lemma strip_prefix_Some p l r : strip_prefix p l = Some r → l = p ++ r.
Proof.
  revert l. induction p as [|a p IH]; intros [|b l]; simpl; try naive_solver.
  destruct (Ascii.eqb a b) eqn:E; [|done].
  apply Ascii.eqb_eq in E as ->. intros ->%IH. done.
Qed.

Lemma strip_suffix_app suf l : strip_suffix suf (l ++ suf) = Some l.
Proof.
  unfold strip_suffix. rewrite reverse_app, strip_prefix_app. simpl.
  by rewrite reverse_involutive.
Qed.

Lemma strip_suffix_Some suf l r : strip_suffix suf l = Some r → l = r ++ suf.
Proof.
  unfold strip_suffix. destruct (strip_prefix _ _) as [x|] eqn:E; [|done].
  intros [= <-]. apply strip_prefix_Some in E.
  rewrite <- (reverse_involutive l), E, reverse_app. by rewrite reverse_involutive.
Qed.

Lemma strip_prefix_clash p l r : clash p l = true → strip_prefix p (l ++ r) = None.
Proof.
  revert l. induction p as [|a p IH]; intros [|b l]; simpl; try done.
  destruct (Ascii.eqb a b); [apply IH|done].
Qed.

Lemma strip_suffix_clash suf l s :
  clash (reverse suf) (reverse s) = true → strip_suffix suf (l ++ s) = None.
Proof.
  intros H. unfold strip_suffix. by rewrite reverse_app, strip_prefix_clash.
Qed.

End StrFacts.

(** ** Numbers read from strings *)

Example StringToNumber_examples :
  Num.StringToNumber "" = Fin 0 ∧
  Num.StringToNumber "  " = Fin 0 ∧
  Num.StringToNumber "10" = Num.int 10 ∧
  Num.StringToNumber "9.75" = Fin (39 # 4) ∧
  Num.StringToNumber "9.99" = Fin (5623870034678907 # 562949953421312) ∧
  Num.StringToNumber "0.1" = Fin (3602879701896397 # 36028797018963968) ∧
  Num.StringToNumber "9007199254740993" = Num.int 9007199254740992 ∧
  Num.StringToNumber "0x20000000000003" = Num.int 9007199254740996 ∧
  Num.StringToNumber "1e-400" = Fin 0 ∧
  Num.StringToNumber "3e-324" = Fin (Qmake 1 (2 ^ 1074)) ∧
  Num.StringToNumber "2e-324" = Fin 0 ∧
  Num.StringToNumber "1e400" = PInf ∧
  Num.StringToNumber "-1e400" = NInf ∧
  Num.StringToNumber "1.7976931348623157e308" = Num.int ((2 ^ 53 - 1) * 2 ^ 971) ∧
  Num.StringToNumber "1.7976931348623159e308" = PInf ∧
  Num.StringToNumber "-1.5e1" = Fin (-15 # 1) ∧
  Num.StringToNumber ".5" = Fin (1 # 2) ∧
  Num.StringToNumber "5." = Num.int 5 ∧
  Num.StringToNumber "0x1F" = Num.int 31 ∧
  Num.StringToNumber "-0x1F" = NaN ∧
  Num.StringToNumber "Infinity" = PInf ∧
  Num.StringToNumber "-Infinity" = NInf ∧
  Num.StringToNumber "." = NaN ∧
  Num.StringToNumber "1e" = NaN ∧
  Num.StringToNumber "abc" = NaN ∧
  Num.StringToNumber "90210" = Num.int 90210 ∧
  Num.StringToNumber "10,20" = NaN.
Proof. repeat split; vm_compute; reflexivity. Qed.

Example parseInt_examples :
  Num.parseInt "2" = Num.int 2 ∧
  Num.parseInt " 12px" = Num.int 12 ∧
  Num.parseInt "2.5" = Num.int 2 ∧
  Num.parseInt "-7" = Num.int (-7) ∧
  Num.parseInt "0x10" = Num.int 16 ∧
  Num.parseInt "1,2" = Num.int 1 ∧
  Num.parseInt "" = NaN ∧
  Num.parseInt "abc" = NaN ∧
  Num.parseInt "9007199254740993" = Num.int 9007199254740992 ∧
  Num.parseInt "-9007199254740995" = Num.int (-9007199254740996) ∧
  Num.parseInt ("1" +:+ Str.str (replicate 309 "0"%char)) = PInf.
Proof. repeat split; vm_compute; reflexivity. Qed.

(** ** The filter compiler *)

Example operatorMatch_examples :
  operatorMatch "price_gte" = Some ("price", Gte) ∧
  operatorMatch "price_gt" = Some ("price", Gt) ∧
  operatorMatch "a_gt_lte" = Some ("a_gt", Lte) ∧
  operatorMatch "price" = None ∧
  operatorMatch "_gt" = None ∧
  operatorMatch "price_eq" = None ∧
  operatorMatch "gte" = None.
Proof. repeat split; vm_compute; reflexivity. Qed.

Example compile_range :
  compile TypeScript ["price"] [("price_gte", QStr "10"); ("price_lte", QStr "50")]
  = Compiled {["price" := CNode None (<["$lte" := ANum (Num.int 50)]>
                                        {["$gte" := ANum (Num.int 10)]})]}.
Proof. vm_compute. reflexivity. Qed.

(** *** Facts about the key pattern *)

Lemma operatorMatch_suffix (field : string) (op : operator) :
  dot_plus (Str.chars field) = true →
  operatorMatch (field +:+ "_" +:+ op_name op) = Some (field, op).
Proof.
  intros Hdot. unfold operatorMatch, operators, match_op. simpl foldr.
  rewrite StrFacts.chars_app.
  destruct op; simpl op_name;
    repeat first [ rewrite StrFacts.strip_suffix_app
                 | rewrite StrFacts.strip_suffix_clash by reflexivity ];
    by rewrite Hdot, StrFacts.str_chars.
Qed.

Lemma match_op_Some key op field op' :
  match_op key op = Some (field, op') →
  op' = op ∧ key = Str.chars field ++ Str.chars ("_" +:+ op_name op)
  ∧ dot_plus (Str.chars field) = true.
Proof.
  unfold match_op. destruct (Str.strip_suffix _ _) as [f|] eqn:E; [|done].
  destruct (dot_plus f) eqn:D; [|done]. intros [= <- <-].
  rewrite StrFacts.chars_str. split_and!; [done| |done].
  by apply StrFacts.strip_suffix_Some.
Qed.

Lemma operatorMatch_Some key field op :
  operatorMatch key = Some (field, op) →
  key = field +:+ "_" +:+ op_name op ∧ dot_plus (Str.chars field) = true.
Proof.
  unfold operatorMatch, operators. cbn [foldr]. intros H.
  assert (∃ o, match_op (Str.chars key) o = Some (field, op)) as [o Ho].
  { destruct (match_op (Str.chars key) Gt) as [m|] eqn:EGt; [injection H as ->; exists Gt; exact EGt|].
    destruct (match_op (Str.chars key) Gte) as [m|] eqn:EGte; [injection H as ->; exists Gte; exact EGte|].
    destruct (match_op (Str.chars key) Lt) as [m|] eqn:ELt; [injection H as ->; exists Lt; exact ELt|].
    destruct (match_op (Str.chars key) Lte) as [m|] eqn:ELte; [injection H as ->; exists Lte; exact ELte|].
    destruct (match_op (Str.chars key) Ne) as [m|] eqn:ENe; [injection H as ->; exists Ne; exact ENe|].
    discriminate H. }
  apply match_op_Some in Ho as (-> & Hk & Hd). split; [|exact Hd].
  apply StrFacts.chars_inj. rewrite StrFacts.chars_app. exact Hk.
Qed.

(** *** Facts about the loop *)

Lemma isFilterable_nonempty v filterBy field :
  filterBy ≠ [] → isFilterable v filterBy field = bool_decide (field ∈ filterBy).
Proof. by destruct filterBy, v. Qed.

Lemma keys_filterable_insert v filterBy q k c :
  isFilterable v filterBy k = true →
  keys_filterable v filterBy q → keys_filterable v filterBy (<[k := c]> q).
Proof.
  intros Hk Hq k'. destruct (decide (k = k')) as [<-|Hne]; [done|].
  rewrite lookup_insert_ne by done. apply Hq.
Qed.

Lemma write_op_keys v filterBy q field op a q' :
  isFilterable v filterBy field = true →
  keys_filterable v filterBy q →
  write_op v q field op a = Compiled q' → keys_filterable v filterBy q'.
Proof.
  intros Hf Hq. unfold write_op.
  repeat case_match; intros; simplify_eq;
    try done; by apply keys_filterable_insert.
Qed.

Lemma write_eq_keys v filterBy q key c q' :
  isFilterable v filterBy key = true →
  keys_filterable v filterBy q →
  write_eq q key c = Compiled q' → keys_filterable v filterBy q'.
Proof.
  intros Hf Hq. unfold write_eq.
  repeat case_match; intros; simplify_eq;
    try done; by apply keys_filterable_insert.
Qed.

Lemma filter_step_keys v filterBy q key value q' :
  keys_filterable v filterBy q →
  filter_step v filterBy q key value = Compiled q' → keys_filterable v filterBy q'.
Proof.
  intros Hq. unfold filter_step.
  destruct (classify key) as [|field op|]; [by intros [= <-]| |].
  - destruct (isFilterable v filterBy field) eqn:Hf; simpl; [|by intros [= <-]].
    by apply write_op_keys.
  - destruct (isFilterable v filterBy key) eqn:Hf; simpl; [|by intros [= <-]].
    repeat case_match; by apply write_eq_keys.
Qed.

Lemma filter_loop_keys v filterBy filters q q' :
  keys_filterable v filterBy q →
  filter_loop v filterBy q filters = Compiled q' → keys_filterable v filterBy q'.
Proof.
  revert q. induction filters as [|[key value] rest IH]; intros q Hq; simpl.
  - by intros [= <-].
  - destruct (filter_step v filterBy q key value) as [q1| |] eqn:Hs; [|done..].
    apply IH. by eapply filter_step_keys.
Qed.

Lemma compile_keys v filterBy filters q :
  compile v filterBy filters = Compiled q → keys_filterable v filterBy q.
Proof. apply filter_loop_keys. intros k [c Hc]. by rewrite lookup_empty in Hc. Qed.

Lemma classify_suffixed field op :
  forallb (λ c, negb (Str.is_line_terminator c)) (Str.chars field) = true →
  classify (field +:+ "_" +:+ op_name op) = Internal ∨
  classify (field +:+ "_" +:+ op_name op) = OpKey field op.
Proof.
  intros Hlt. unfold classify.
  destruct (Str.startsWith _ _) eqn:Hsw; [by left|right].
  destruct (Str.chars field) as [|c l] eqn:Hc.
  - exfalso. apply (f_equal Str.str) in Hc. rewrite StrFacts.str_chars in Hc. subst field.
    destruct op; vm_compute in Hsw; discriminate Hsw.
  - rewrite operatorMatch_suffix; [done|]. by rewrite Hc.
Qed.

Lemma filter_step_dropped v filterBy q key value :
  match classify key with
  | Internal => True
  | OpKey field _ => isFilterable v filterBy field = false
  | Bare => isFilterable v filterBy key = false
  end →
  filter_step v filterBy q key value = Compiled q.
Proof.
  unfold filter_step. destruct (classify key); [done| |]; by intros ->.
Qed.

(** ** Theorems on the filter compiler *)

(** C1.  With a non-empty [filterBy], a key whose field is not in it leaves
    the query object as it was and raises nothing, in the bare form and in
    the form [<field>_<op>]; and the compiled predicate has no entry for a
    field outside [filterBy]. *)
Theorem nonfilterable_key_dropped (v : variant) (filterBy : list string) (field : string) :
  filterBy ≠ [] → field ∉ filterBy →
  (∀ q value, operatorMatch field = None →
     filter_step v filterBy q field value = Compiled q) ∧
  (∀ q value op,
     forallb (λ c, negb (Str.is_line_terminator c)) (Str.chars field) = true →
     filter_step v filterBy q (field +:+ "_" +:+ op_name op) value = Compiled q) ∧
  (∀ filters q, compile v filterBy filters = Compiled q → q !! field = None).
Proof.
  intros Hne Hnot.
  assert (Hf : isFilterable v filterBy field = false).
  { rewrite isFilterable_nonempty by exact Hne. by apply bool_decide_eq_false. }
  split_and!.
  - intros q value Hm. apply filter_step_dropped.
    unfold classify. rewrite Hm. by destruct (Str.startsWith field "_").
  - intros q value op Hlt. apply filter_step_dropped.
    by destruct (classify_suffixed field op Hlt) as [-> | ->].
  - intros filters q Hc. apply compile_keys in Hc.
    destruct (q !! field) as [c|] eqn:E; [|done].
    specialize (Hc field (ex_intro _ c E)). congruence.
Qed.

Lemma nonfilterable_key_dropped_witness :
  filter_step CommonJS ["grade"] ∅ "age" (QStr "5") = Compiled ∅ ∧
  filter_step CommonJS ["grade"] ∅ "age_gte" (QStr "5") = Compiled ∅ ∧
  ({["grade" := CAtom (ARaw (QStr "A"))]} : gmap string clause) !! "age" = None.
Proof.
  assert (Hne : ["grade"] ≠ @nil string) by discriminate.
  assert (Hnot : "age" ∉ ["grade"]).
  { apply (proj1 (bool_decide_eq_false ("age" ∈ ["grade"]))). reflexivity. }
  split_and!.
  - apply (proj1 (nonfilterable_key_dropped CommonJS ["grade"] "age" Hne Hnot)).
    reflexivity.
  - apply (proj1 (proj2 (nonfilterable_key_dropped CommonJS ["grade"] "age" Hne Hnot))
             ∅ (QStr "5") Gte).
    reflexivity.
  - apply (proj2 (proj2 (nonfilterable_key_dropped TypeScript ["grade"] "age" Hne Hnot))
             [("age", QStr "5"); ("grade", QStr "A"); ("age_gte", QStr "3")]).
    vm_compute. reflexivity.
Defined.

(** C2.  The two variants of [isFilterable] disagree on an empty
    [filterBy] (the CommonJS one allows every field, the TypeScript one
    none) and agree on every non-empty one. *)
Theorem isFilterable_variants_differ :
  (∀ field, isFilterable CommonJS [] field = true) ∧
  (∀ field, isFilterable TypeScript [] field = false) ∧
  (∀ f filterBy field,
     isFilterable CommonJS (f :: filterBy) field
     = isFilterable TypeScript (f :: filterBy) field).
Proof. split_and!; reflexivity. Qed.

(** C10.  An empty raw value is read as the number 0: by the coercion, by
    an equality clause and by a range clause. *)
Theorem empty_value_compiles_to_zero (v : variant) (filterBy : list string)
    (q : gmap string clause) (key : string) :
  coerce v (QStr "") = ANum (Fin 0) ∧
  (classify key = Bare → isFilterable v filterBy key = true → key ≠ "__proto__" →
   filter_step v filterBy q key (QStr "")
   = Compiled (<[key := CAtom (ANum (Fin 0))]> q)) ∧
  (∀ field op,
     classify key = OpKey field op → isFilterable v filterBy field = true →
     (q !! field = None → inherited field = false →
      filter_step v filterBy q key (QStr "")
      = Compiled (<[field := CNode None {[op_prop op := ANum (Fin 0)]}]> q)) ∧
     (∀ b props, q !! field = Some (CNode b props) →
      filter_step v filterBy q key (QStr "")
      = Compiled (<[field := CNode b (<[op_prop op := ANum (Fin 0)]> props)]> q))).
Proof.
  assert (Hco : coerce v (QStr "") = ANum (Fin 0)) by (destruct v; reflexivity).
  split_and!; [exact Hco| |].
  - intros Hc Hf Hk. unfold filter_step. rewrite Hc, Hf. simpl negb. cbv iota.
    change (Str.startsWith "" "/") with false. cbv iota beta. simpl andb. cbv iota.
    rewrite Hco. unfold write_eq. rewrite bool_decide_eq_false_2 by exact Hk.
    reflexivity.
  - intros field op Hc Hf. split.
    + intros Hq Hi. unfold filter_step. rewrite Hc, Hf. simpl negb. cbv iota.
      rewrite Hco. unfold write_op. rewrite Hq, Hi. reflexivity.
    + intros b props Hq. unfold filter_step. rewrite Hc, Hf. simpl negb. cbv iota.
      rewrite Hco. unfold write_op. rewrite Hq. reflexivity.
Qed.

Lemma empty_value_compiles_to_zero_witness :
  filter_step TypeScript ["price"] ∅ "price" (QStr "")
  = Compiled {["price" := CAtom (ANum (Fin 0))]} ∧
  filter_step CommonJS ["price"] ∅ "price_gte" (QStr "")
  = Compiled {["price" := CNode None {["$gte" := ANum (Fin 0)]}]} ∧
  filter_step TypeScript ["price"]
    {["price" := CNode None {["$lte" := ANum (Num.int 9)]}]} "price_gte" (QStr "")
  = Compiled {["price" := CNode None (<["$gte" := ANum (Fin 0)]>
                                        {["$lte" := ANum (Num.int 9)]})]}.
Proof.
  split_and!.
  - apply (proj1 (proj2 (empty_value_compiles_to_zero TypeScript ["price"] ∅ "price")));
      [reflexivity | reflexivity | discriminate].
  - apply (proj1 (proj2 (proj2 (empty_value_compiles_to_zero
                                   CommonJS ["price"] ∅ "price_gte")) "price" Gte
                    eq_refl eq_refl)); reflexivity.
  - etrans.
    { apply (proj2 (proj2 (proj2 (empty_value_compiles_to_zero TypeScript ["price"]
               {["price" := CNode None {["$lte" := ANum (Num.int 9)]}]} "price_gte"))
               "price" Gte eq_refl eq_refl) None {["$lte" := ANum (Num.int 9)]}).
      vm_compute. reflexivity. }
    vm_compute. reflexivity.
Defined.

(** *** Accumulation of operators *)

Lemma ops_seen_foldl v field filters :
  ops_seen v field filters = foldl (see_op v field) ∅ filters.
Proof. reflexivity. Qed.

Lemma write_op_other v q f op a q' field :
  f ≠ field → write_op v q f op a = Compiled q' → q' !! field = q !! field.
Proof.
  intros Hne. unfold write_op.
  destruct (q !! f) as [c|].
  - destruct (truthy c).
    + destruct c as [[n|[s|l|o]]|b props], v; intros [= <-];
        first [reflexivity | by apply lookup_insert_ne].
    + intros [= <-]. by apply lookup_insert_ne.
  - destruct (inherited f); [discriminate|].
    intros [= <-]. by apply lookup_insert_ne.
Qed.

Lemma write_eq_other q key c q' field :
  key ≠ field → write_eq q key c = Compiled q' → q' !! field = q !! field.
Proof.
  intros Hne. unfold write_eq. destruct (bool_decide (key = "__proto__")).
  - destruct c as [a|]; [|discriminate].
    destruct (is_primitive a); [|discriminate]. by intros [= <-].
  - intros [= <-]. by apply lookup_insert_ne.
Qed.

Lemma write_op_same v q field op a q' m :
  holds_node q field m → write_op v q field op a = Compiled q' →
  holds_node q' field (<[op_prop op := a]> m).
Proof.
  intros [[-> Hq]|[Hm Hq]]; unfold write_op; rewrite Hq.
  - destruct (inherited field); [discriminate|]. intros [= <-].
    right. split; [apply insert_non_empty|].
    rewrite lookup_insert_eq. by rewrite insert_empty.
  - simpl. intros [= <-]. right. split; [apply insert_non_empty|].
    by rewrite lookup_insert_eq.
Qed.

Lemma filter_step_node v filterBy q key value q' field m :
  isFilterable v filterBy field = true →
  (classify key = Bare → key ≠ field) →
  holds_node q field m →
  filter_step v filterBy q key value = Compiled q' →
  holds_node q' field (see_op v field m (key, value)).
Proof.
  intros Hf Hbare Hq. unfold filter_step, see_op. simpl.
  assert (Hsame : ∀ q1, q1 !! field = q !! field → holds_node q1 field m).
  { intros q1 E. unfold holds_node. rewrite E. exact Hq. }
  destruct (classify key) as [|f op|] eqn:Hc.
  - intros [= <-]. exact Hq.
  - destruct (decide (f = field)) as [->|Hne].
    + rewrite bool_decide_eq_true_2 by reflexivity. rewrite Hf. simpl.
      by apply write_op_same.
    + rewrite bool_decide_eq_false_2 by exact Hne.
      destruct (isFilterable v filterBy f); simpl.
      * intros H. apply Hsame. by eapply write_op_other.
      * intros [= <-]. exact Hq.
  - specialize (Hbare eq_refl).
    destruct (isFilterable v filterBy key); simpl.
    + intros H. apply Hsame.
      destruct value as [s| |]; [destruct (_ && _)|..];
        by eapply write_eq_other.
    + intros [= <-]. exact Hq.
Qed.

Lemma filter_loop_node v filterBy filters q q' field m :
  isFilterable v filterBy field = true →
  (∀ key value, (key, value) ∈ filters → classify key = Bare → key ≠ field) →
  holds_node q field m →
  filter_loop v filterBy q filters = Compiled q' →
  holds_node q' field (foldl (see_op v field) m filters).
Proof.
  intros Hf. revert q m.
  induction filters as [|[key value] rest IH]; intros q m Hbare Hq; simpl.
  - by intros [= <-].
  - destruct (filter_step v filterBy q key value) as [q1| |] eqn:Hs; [|discriminate..].
    apply IH.
    + intros k x Hin. apply (Hbare k x). by apply list_elem_of_further.
    + eapply filter_step_node; [exact Hf| |exact Hq|exact Hs].
      apply (Hbare key value). apply list_elem_of_here.
Qed.

(** A query with operator keys only (beside dropped and internal keys)
    always compiles, provided no filterable field bears the name of a
    member of [Object.prototype]. *)
Lemma filter_loop_operators_total v filterBy filters q :
  (∀ key value, (key, value) ∈ filters →
     classify key = Bare → isFilterable v filterBy key = false) →
  (∀ f, isFilterable v filterBy f = true → inherited f = false) →
  (∀ f c, q !! f = Some c → ∃ b m, c = CNode b m) →
  ∃ q', filter_loop v filterBy q filters = Compiled q'.
Proof.
  intros Hbare Hinh. revert q Hbare.
  induction filters as [|[key value] rest IH]; intros q Hbare Hq; simpl; [by eexists|].
  assert (∃ q1, filter_step v filterBy q key value = Compiled q1
                ∧ ∀ f c, q1 !! f = Some c → ∃ b m, c = CNode b m) as (q1 & -> & Hq1).
  { unfold filter_step. destruct (classify key) as [|f op|] eqn:Hc.
    - by exists q.
    - destruct (isFilterable v filterBy f) eqn:Hf; simpl; [|by exists q].
      assert (Hins : ∀ b m f' c, <[f := CNode b m]> q !! f' = Some c →
                                 ∃ b' m', c = CNode b' m').
      { intros b m f' c. destruct (decide (f = f')) as [<-|Hne].
        - rewrite lookup_insert_eq. intros [= <-]. by eexists _, _.
        - rewrite lookup_insert_ne by done. apply Hq. }
      unfold write_op. destruct (q !! f) as [c|] eqn:E.
      + destruct (Hq f c E) as (b & m & ->). simpl. eexists. split; [done|]. apply Hins.
      + rewrite (Hinh f Hf). eexists. split; [done|]. apply Hins.
    - rewrite (Hbare key value (list_elem_of_here _ _) Hc). simpl. by exists q. }
  apply IH; [|exact Hq1].
  intros k x Hin. apply (Hbare k x). by apply list_elem_of_further.
Qed.

(** C4 (amended).  For a filterable field that no bare key of the query
    names, the compiled predicate holds exactly one compound node on the
    field, made of every operator seen for it; [?price_gte=10&price_lte=50]
    compiles to the node [{$gte: 10, $lte: 50}], which admits the numbers
    of the closed interval from 10 to 50: not 9.99, and 50. *)
Theorem operators_accumulate :
  (∀ v filterBy filters field q,
     isFilterable v filterBy field = true →
     (∀ key value, (key, value) ∈ filters → classify key = Bare → key ≠ field) →
     compile v filterBy filters = Compiled q →
     holds_node q field (ops_seen v field filters)) ∧
  (∀ v, compile v ["price"] [("price_gte", QStr "10"); ("price_lte", QStr "50")]
        = Compiled {["price" := CNode None price_range]}) ∧
  (∀ x : Q, node_matches price_range (Fin x) = Qle_bool 10 x && Qle_bool x 50) ∧
  node_matches price_range (Fin (999 # 100)) = false ∧
  node_matches price_range (Num.int 50) = true.
Proof.
  split_and!.
  - intros v filterBy filters field q Hf Hbare Hc.
    rewrite ops_seen_foldl. eapply filter_loop_node; [exact Hf|exact Hbare| |exact Hc].
    left. split; [reflexivity|apply lookup_empty].
  - intros []; vm_compute; reflexivity.
  - intros x. unfold node_matches, bound_holds.
    change (price_range !! "$gt") with (@None atom).
    change (price_range !! "$lt") with (@None atom).
    change (price_range !! "$ne") with (@None atom).
    change (price_range !! "$gte") with (Some (ANum (Num.int 10))).
    change (price_range !! "$lte") with (Some (ANum (Num.int 50))).
    unfold num_le. simpl. rewrite ?negb_involutive, ?andb_true_r. reflexivity.
  - vm_compute. reflexivity.
  - vm_compute. reflexivity.
Qed.

Lemma operators_accumulate_witness :
  holds_node {["grade" := CAtom (ARaw (QStr "A"));
               "age" := CNode None (<["$lte" := ANum (Num.int 30)]>
                                      {["$gte" := ANum (Num.int 18)]})]}
    "age" (<["$lte" := ANum (Num.int 30)]> {["$gte" := ANum (Num.int 18)]}).
Proof.
  change (<["$lte" := ANum (Num.int 30)]> {["$gte" := ANum (Num.int 18)]})
    with (ops_seen TypeScript "age"
            [("age_gte", QStr "18"); ("grade", QStr "A"); ("age_lte", QStr "30")]) at 2.
  apply (proj1 operators_accumulate TypeScript ["age"; "grade"]).
  - reflexivity.
  - intros key value Hin Hb.
    apply list_elem_of_In in Hin. simpl in Hin.
    destruct Hin as [[= <- <-]|[[= <- <-]|[[= <- <-]|[]]]];
      first [discriminate Hb | discriminate].
  - vm_compute. reflexivity.
Defined.

(** C4 as stated fails: a bare key on the same field, read after the
    operator key, replaces the compound node, and the operator seen for the
    field is in no node (both variants). *)
Lemma operators_accumulate_counterexample :
  let filters := [("price_gte", QStr "10"); ("price", QStr "5")] in
  let q := {["price" := CAtom (ANum (Num.int 5))]} in
  isFilterable CommonJS ["price"] "price" = true ∧
  compile CommonJS ["price"] filters = Compiled q ∧
  compile TypeScript ["price"] filters = Compiled q ∧
  ops_seen CommonJS "price" filters = {["$gte" := ANum (Num.int 10)]} ∧
  ¬ holds_node q "price" (ops_seen CommonJS "price" filters).
Proof.
  intros filters q. split_and!; [reflexivity|by vm_compute..|].
  intros [[H _]|[_ H]].
  - apply (f_equal (λ m : gmap string atom, m !! "$gte")) in H.
    vm_compute in H. discriminate H.
  - vm_compute in H. discriminate H.
Qed.

(** ** The list handler *)

(** *** Arithmetic on integer-valued numbers *)

Lemma Qle_bool_int a b : Qle_bool (inject_Z a) (inject_Z b) = (a <=? b).
Proof. unfold Qle_bool, inject_Z. simpl. by rewrite !Z.mul_1_r. Qed.

Lemma Qred_int z : Qred (inject_Z z) = inject_Z z.
Proof.
  unfold Qred, inject_Z.
  generalize (Z.ggcd_gcd z 1) (Z.ggcd_correct_divisors z 1).
  destruct (Z.ggcd z 1) as [g [a b]]. simpl. rewrite Z.gcd_1_r.
  intros -> [H1 H2].
  assert (a = z) as -> by lia. assert (b = 1) as -> by lia. reflexivity.
Qed.

Lemma Num_max_int a b : Num.max (Num.int a) (Num.int b) = Num.int (Z.max a b).
Proof.
  unfold Num.max, Num.int. rewrite Qle_bool_int.
  destruct (Z.leb_spec a b); f_equal; f_equal; lia.
Qed.

Lemma Num_min_int a b : Num.min (Num.int a) (Num.int b) = Num.int (Z.min a b).
Proof.
  unfold Num.min, Num.int. rewrite Qle_bool_int.
  destruct (Z.leb_spec a b); f_equal; f_equal; lia.
Qed.

Lemma Num_sub_int a b : Num.sub (Num.int a) (Num.int b) = Num.int (a - b).
Proof.
  unfold Num.sub, Num.int. f_equal. rewrite <- (Qred_int (a - b)).
  apply Qred_complete. unfold Qeq, inject_Z. simpl. lia.
Qed.

Lemma Num_mul_int a b : Num.mul (Num.int a) (Num.int b) = Num.int (a * b).
Proof.
  unfold Num.mul, Num.int. f_equal. rewrite <- (Qred_int (a * b)).
  apply Qred_complete. unfold Qeq, inject_Z. simpl. lia.
Qed.

Lemma Num_lt_int a b : Num.lt (Num.int a) (Num.int b) = (a <? b).
Proof.
  unfold Num.lt, Num.int. rewrite Qle_bool_int.
  destruct (Z.leb_spec b a), (Z.ltb_spec a b); simpl; try reflexivity; lia.
Qed.

Lemma Num_sign_int z : Num.sign (inject_Z z) = (z ?= 0).
Proof. unfold Num.sign, Qcompare, inject_Z. simpl. by rewrite Z.mul_1_r. Qed.

(** [Math.ceil(total / limit)] for a non-zero integer limit is the ceiling
    of the exact quotient. *)
Lemma Num_ceil_div_int t l :
  l ≠ 0 →
  Num.ceil (Num.div (Num.int t) (Num.int l))
  = Num.int (Qceiling (inject_Z t / inject_Z l)).
Proof.
  intros Hl. unfold Num.div, Num.int. rewrite (Num_sign_int l).
  destruct (Z.compare_spec l 0) as [?|?|?]; [lia|..];
    simpl; unfold Num.int; do 2 f_equal; apply Qceiling_comp, Qred_correct.
Qed.

(** The ceiling of a quotient of integers, in integer arithmetic. *)
Lemma Qceiling_div_int t l :
  0 < l → Qceiling (inject_Z t / inject_Z l) = (t + l - 1) / l.
Proof.
  intros Hl. unfold Qceiling.
  assert (E : (- (inject_Z t / inject_Z l) == (- t) # (Z.to_pos l))%Q).
  { unfold Qeq, Qdiv, Qinv, inject_Z, Qmult, Qopp. destruct l as [|p|p]; try lia.
    simpl. lia. }
  rewrite (Qfloor_comp _ _ E). unfold Qfloor.
  rewrite Z2Pos.id by lia.
  assert (H1 := Z.div_mod (- t) l ltac:(lia)).
  assert (H2 := Z.mod_pos_bound (- t) l Hl).
  apply Z.div_unique with (r := l - 1 - (- t) mod l); [lia|].
  rewrite Z.mul_opp_r. lia.
Qed.

(** *** Rounding to a double *)

Lemma ilog2_int a : 0 < a → Num.ilog2 a 1 = Z.log2 a.
Proof.
  intros Ha. unfold Num.ilog2. change (Z.log2 1) with 0. rewrite Z.sub_0_r.
  pose proof (Z.log2_nonneg a) as Hk. pose proof (Z.log2_spec a Ha) as [Hlo _].
  rewrite (proj2 (Z.leb_le 0 _) Hk), Z.mul_1_l.
  by rewrite (proj2 (Z.leb_le _ _) Hlo).
Qed.

Lemma nearest_even_1 n : Num.nearest_even n 1 = n.
Proof. unfold Num.nearest_even. by rewrite Z.div_1_r, Z.mod_1_r. Qed.


Lemma Qred_scaled a c : 0 < c → Qred (Qmake (a * c) (Z.to_pos c)) = inject_Z a.
Proof.
  intros Hc. rewrite <- (Qred_int a). apply Qred_complete.
  unfold Qeq, inject_Z. simpl. rewrite Z2Pos.id by done. lia.
Qed.

(** An integer below 2^53 is a double. *)
Lemma round_pos_exact a : 0 < a < 2 ^ 53 → Num.round_pos a 1 = Num.int a.
Proof.
  intros [Ha Hb]. unfold Num.round_pos. rewrite ilog2_int by done.
  assert (Hlg : 0 ≤ Z.log2 a < 53).
  { split; [apply Z.log2_nonneg|]. by apply Z.log2_lt_pow2. }
  set (e := Z.max (Z.log2 a - 52) (-1074)).
  assert (He : -1074 ≤ e ≤ 0) by (unfold e; lia).
  destruct (Z.leb_spec 0 e) as [H0|H0].
  - assert (E : e = 0) by lia. rewrite E. change (2 ^ 0) with 1.
    rewrite nearest_even_1, Z.mul_1_r.
    assert (Hbig : 2 ^ 53 ≤ 2 ^ 1024) by (apply Z.pow_le_mono_r; lia).
    rewrite (proj2 (Z.leb_gt (2 ^ 1024) a)); [reflexivity|].
    eapply Z.lt_le_trans; [exact Hb|exact Hbig].
  - rewrite nearest_even_1. unfold Num.int. f_equal.
    apply Qred_scaled. apply Z.pow_pos_nonneg; lia.
Qed.

Lemma round_int_exact z : - 2 ^ 53 < z < 2 ^ 53 → Num.round (inject_Z z) = Num.int z.
Proof.
  intros Hz. unfold Num.round. simpl Qnum. simpl Qden.
  destruct z as [|a|a]; [reflexivity| |].
  - apply round_pos_exact. lia.
  - rewrite round_pos_exact by lia. reflexivity.
Qed.



Lemma fl_int_exact z : - 2 ^ 53 < z < 2 ^ 53 → Num.fl (Num.int z) = Num.int z.
Proof. apply round_int_exact. Qed.

(** *** The window and the pagination object *)

Lemma getList_trace {World} v searchBy filterBy (env : Env World) rq w w' t out :
  getList v searchBy filterBy env rq w = (w', t, out) →
  (t = [] ∧ (out = LeavesModel ∨ ∃ e, out = Next e)) ∨
  ∃ q select r1 r2,
    t = [EFind q select (sort_arg v (q_sort rq))
           (skip (q_page rq) (q_limit rq)) (limitNum (q_limit rq)) r1;
         ECount q r2] ∧
    ((∃ e, out = Next e) ∨
     ∃ data n, r1 = Ok data ∧ r2 = Ok n ∧
       out = Respond 200 (RespList data
               (make_pagination n (pageNum (q_page rq)) (limitNum (q_limit rq))))).
Proof.
  unfold getList.
  destruct (compile v filterBy (q_filters rq)) as [q| |];
    [|intros [= <- <- <-]; left; eauto..].
  destruct (search_clause v searchBy (q_search rq)) as [or|];
    [|intros [= <- <- <-]; left; eauto].
  destruct (selectFields v (q_fields rq)) as [select|];
    [|intros [= <- <- <-]; left; eauto].
  unfold find_and_count.
  destruct (Model_find env _ _ _ _ _ w) as [w1 r1].
  destruct (Model_countDocuments env _ w1) as [w2 r2].
  intros H. right. exists (with_search q or), select, r1, r2.
  destruct r1 as [data|e1], r2 as [n|e2]; injection H as <- <- <-;
    (split; [reflexivity|]); eauto 10.
Qed.





Lemma window_values (page limit : option qsval) (p l : Z) :
  Num.parseInt (page_string page) = Num.int p →
  Num.parseInt (limit_string limit) = Num.int l →
  limitNum limit = Num.int (Z.min 100 (Z.max 1 l)) ∧
  pageNum page = Num.int (Z.max 1 p) ∧
  skip page limit
  = Num.fl (Num.mul (Num.fl (Num.int (Z.max 1 p - 1))) (Num.int (Z.min 100 (Z.max 1 l)))) ∧
  ((Z.max 1 p - 1) * Z.min 100 (Z.max 1 l) < 2 ^ 53 →
   skip page limit = Num.int ((Z.max 1 p - 1) * Z.min 100 (Z.max 1 l))).
Proof.
  intros Hp Hl.
  assert (HL : limitNum limit = Num.int (Z.min 100 (Z.max 1 l))).
  { unfold limitNum. by rewrite Hl, Num_max_int, Num_min_int. }
  assert (HP : pageNum page = Num.int (Z.max 1 p)).
  { unfold pageNum. by rewrite Hp, Num_max_int. }
  assert (HS : skip page limit
               = Num.fl (Num.mul (Num.fl (Num.int (Z.max 1 p - 1)))
                           (Num.int (Z.min 100 (Z.max 1 l))))).
  { unfold skip. by rewrite HP, HL, Num_sub_int. }
  split_and!; [exact HL|exact HP|exact HS|].
  intros Hsmall. rewrite HS.
  assert (Hbig : 0 < 2 ^ 53) by (apply Z.pow_pos_nonneg; lia).
  rewrite fl_int_exact by nia. rewrite Num_mul_int. apply fl_int_exact. nia.
Qed.






Example destructure_example :
  destructure [("page", QStr "2"); ("price_gte", QStr "10"); ("limit", QStr "5")]
  = {| q_page := Some (QStr "2"); q_limit := Some (QStr "5"); q_sort := None;
       q_fields := None; q_search := None; q_filters := [("price_gte", QStr "10")] |}.
Proof. reflexivity. Qed.

Example pagination_defaults :
  pageNum None = Num.int 1 ∧ limitNum None = Num.int 10 ∧ skip None None = Num.int 0.
Proof. repeat split; vm_compute; reflexivity. Qed.

(** A page or limit that [parseInt] cannot read is NaN, and stays NaN
    through [Math.max] and [Math.min]. *)
Example pagination_not_a_number :
  limitNum (Some (QStr "abc")) = NaN ∧ pageNum (Some (QStr "")) = NaN.
Proof. split; reflexivity. Qed.

(** C5.  In a successful list response, the count is the one the store
    returned for the predicate given to [find], and [totalPages] is
    ceil(total / limit), [hasNext] is page < totalPages, [hasPrev] is
    page > 1, on the effective page and limit. *)
Theorem pagination_metadata {World} (v : variant) (searchBy filterBy : list string)
    (env : Env World) (rq : list_query) (w w' : World) (t : list event)
    (status : Z) (data : list (gmap string jsval)) (pg : pagination) :
  getList v searchBy filterBy env rq w = (w', t, Respond status (RespList data pg)) →
  (∃ q select,
     t = [EFind q select (sort_arg v (q_sort rq))
            (skip (q_page rq) (q_limit rq)) (limitNum (q_limit rq)) (Ok data);
          ECount q (Ok (total pg))]) ∧
  page pg = pageNum (q_page rq) ∧
  limit pg = limitNum (q_limit rq) ∧
  totalPages pg = Num.ceil (Num.div (Num.int (total pg)) (limit pg)) ∧
  hasNext pg = Num.lt (page pg) (totalPages pg) ∧
  hasPrev pg = Num.gt (page pg) (Num.int 1) ∧
  ∀ p l,
    Num.parseInt (page_string (q_page rq)) = Num.int p →
    Num.parseInt (limit_string (q_limit rq)) = Num.int l →
    let P := Z.max 1 p in
    let L := Z.min 100 (Z.max 1 l) in
    let pages := Qceiling (inject_Z (total pg) / inject_Z L) in
    pages = (total pg + L - 1) / L ∧
    totalPages pg = Num.int pages ∧
    hasNext pg = (P <? pages) ∧
    hasPrev pg = (1 <? P).
Proof.
  intros Hrun.
  apply getList_trace in Hrun
    as [[_ [[=]|[e [=]]]]|(q & sel & r1 & r2 & -> & [[e [=]]|Hok])].
  destruct Hok as (data' & n & -> & -> & [= _ <- ->]).
  split; [by exists q, sel|].
  unfold make_pagination. cbn [total page limit totalPages hasNext hasPrev].
  split_and!; try reflexivity.
  intros p l Hp Hl. cbv zeta.
  set (P := Z.max 1 p). set (L := Z.min 100 (Z.max 1 l)).
  set (pages := Qceiling (inject_Z n / inject_Z L)).
  destruct (window_values (q_page rq) (q_limit rq) p l Hp Hl) as (HL & HP & _).
  rewrite HL, HP. fold P L.
  assert (0 < L) by (unfold L; lia).
  rewrite Num_ceil_div_int by lia. fold pages.
  rewrite Num_lt_int. unfold Num.gt. rewrite Num_lt_int.
  split_and!; try reflexivity. by apply Qceiling_div_int.
Qed.

(** The list scenario: twelve products, [?page=2&limit=5&sort=-price]. *)
Example list_scenario :
  getList TypeScript [] [] (listing_env products) page2_limit5 tt
  = (tt,
     [EFind ∅ "" (QStr "-price") (Num.int 5) (Num.int 5)
        (Ok ((λ n : nat, {["price" := VNum (Num.int (Z.of_nat n))]})
               <$> [7; 6; 5; 4; 3]%nat));
      ECount ∅ (Ok 12)],
     Respond 200
       (RespList ((λ n : nat, {["price" := VNum (Num.int (Z.of_nat n))]})
                    <$> [7; 6; 5; 4; 3]%nat)
                 scenario_pagination)).
Proof. vm_compute. reflexivity. Qed.

Lemma pagination_metadata_witness :
  totalPages scenario_pagination = Num.int 3 ∧
  hasNext scenario_pagination = (2 <? 3) ∧
  hasPrev scenario_pagination = (1 <? 2) ∧
  3 = (12 + 5 - 1) / 5.
Proof.
  destruct (pagination_metadata TypeScript [] [] (listing_env products) page2_limit5
              tt tt _ 200 _ scenario_pagination list_scenario)
    as (_ & _ & _ & _ & _ & _ & H).
  destruct (H 2 5 eq_refl eq_refl) as (H1 & H2 & H3 & H4).
  split_and!; [exact H2|exact H3|exact H4|exact H1].
Defined.

(** ** Attachments *)

Example toFixed2_examples :
  toFixed2 (inject_Z 6291456 / 1048576) = "6.00" ∧
  toFixed2 (inject_Z 5767168 / 1048576) = "5.50" ∧
  toFixed2 (inject_Z 10486 / 1048576) = "0.01" ∧
  toFixed2 (inject_Z 0 / 1048576) = "0.00".
Proof. repeat split; vm_compute; reflexivity. Qed.

Example plain_extname_examples :
  plain_extname "cv.pdf" = ".pdf" ∧ plain_extname "a.tar.gz" = ".gz" ∧
  plain_extname ".bashrc" = "" ∧ plain_extname "README" = "" ∧
  plain_extname "note." = ".".
Proof. repeat split; vm_compute; reflexivity. Qed.

(** *** Facts about the validation *)

Lemma validate_loop_flat_map P files isCreate fileFields errors :
  validate_loop P files isCreate fileFields errors
  = errors ++ flat_map (field_violations P files isCreate) fileFields.
Proof.
  revert errors. induction fileFields as [|ff rest IH]; intros errors; simpl.
  - by rewrite app_nil_r.
  - unfold field_violations at 1.
    destruct (uploaded_for files ff) as [file|] eqn:Hup.
    + rewrite bool_decide_eq_true_2 by eauto. rewrite andb_false_r.
      rewrite IH. destruct (too_large ff file), (wrong_type P ff file); simpl;
        by rewrite <- ?app_assoc.
    + rewrite bool_decide_eq_false_2 by (by intros [? ?]). rewrite andb_true_r.
      destruct (required ff && isCreate); rewrite IH; simpl; by rewrite <- ?app_assoc.
Qed.

Lemma append_cons c s t : String c s +:+ t = String c (s +:+ t).
Proof. reflexivity. Qed.

Lemma required_size_distinct P ff ff' file :
  required_message ff ≠ size_message P ff' file.
Proof.
  unfold required_message, size_message, dq.
  change "File field " with (String "F" (String "i" (String "l" (String "e"
            (String " " (String "f" "ield ")))))).
  change "File " with (String "F" (String "i" (String "l" (String "e"
            (String " " ""))))).
  rewrite !append_cons. intros [=].
Qed.

Lemma required_type_distinct ff ff' file :
  required_message ff ≠ type_message ff' file.
Proof.
  unfold required_message, type_message, dq.
  change "File field " with (String "F" (String "i" (String "l" (String "e"
            (String " " (String "f" "ield ")))))).
  change "File " with (String "F" (String "i" (String "l" (String "e"
            (String " " ""))))).
  rewrite !append_cons. intros [=].
Qed.

Lemma size_type_distinct P ff file file' :
  size_message P ff file ≠ type_message ff file'.
Proof.
  unfold size_message, type_message. intros H.
  do 4 apply String.app_inj in H.
  change " exceeds max size of " with (String " " (String "e" "xceeds max size of ")) in H.
  change " type " with (String " " (String "t" "ype ")) in H.
  rewrite !append_cons in H. by injection H.
Qed.

Lemma replace_first_wildcard (t : list ascii) :
  "*"%char ∉ t →
  Str.replace_first_l ["/"; "*"]%char ["/"%char] (t ++ ["/"; "*"]%char) = t ++ ["/"%char].
Proof.
  induction t as [|c t IH]; intros Hstar; [reflexivity|].
  apply not_elem_of_cons in Hstar as [Hc Ht].
  change ((c :: t) ++ ["/"; "*"]%char) with (c :: (t ++ ["/"; "*"]%char)).
  assert (Hnone : Str.strip_prefix ["/"; "*"]%char (c :: (t ++ ["/"; "*"]%char)) = None).
  { simpl. destruct (Ascii.eqb "/" c); [|done].
    destruct t as [|d t']; simpl; [done|].
    apply not_elem_of_cons in Ht as [Hd _].
    destruct (Ascii.eqb "*" d) eqn:E; [|done].
    apply Ascii.eqb_eq in E. congruence. }
  unfold Str.replace_first_l; fold Str.replace_first_l.
  rewrite Hnone. simpl. f_equal. by apply IH.
Qed.

Lemma endsWith_app s suf : Str.endsWith (s +:+ suf) suf = true.
Proof.
  unfold Str.endsWith. apply bool_decide_eq_true_2.
  rewrite StrFacts.chars_app, StrFacts.strip_suffix_app. by eexists.
Qed.

Lemma rule_accepts_extension P file rule :
  Str.startsWith rule "." = true →
  rule_accepts P file rule
  = bool_decide (Str.toLowerCase (path_extname P (originalname file)) = rule).
Proof. intros H. unfold rule_accepts. by rewrite H. Qed.

Lemma rule_accepts_wildcard P file type :
  Str.startsWith (type +:+ "/*") "." = false →
  "*"%char ∉ Str.chars type →
  rule_accepts P file (type +:+ "/*")
  = Str.startsWith (Str.toLowerCase (mimetype file)) (type +:+ "/").
Proof.
  intros H Hstar. unfold rule_accepts. rewrite H, endsWith_app.
  f_equal. unfold Str.replace_first. rewrite StrFacts.chars_app.
  change (Str.chars "/*") with ["/"; "*"]%char. change (Str.chars "/") with ["/"%char].
  rewrite replace_first_wildcard by done.
  apply StrFacts.chars_inj. by rewrite StrFacts.chars_str, StrFacts.chars_app.
Qed.

Lemma rule_accepts_exact P file rule :
  Str.startsWith rule "." = false → Str.endsWith rule "/*" = false →
  rule_accepts P file rule = bool_decide (Str.toLowerCase (mimetype file) = rule).
Proof. intros H1 H2. unfold rule_accepts. by rewrite H1, H2. Qed.

Lemma field_violations_update P files ff msg :
  msg ∈ field_violations P files false ff →
  ∃ file, msg = size_message P ff file ∨ msg = type_message ff file.
Proof.
  unfold field_violations. rewrite andb_false_r.
  destruct (uploaded_for files ff) as [file|]; [|by intros ?%not_elem_of_nil].
  intros [H|H]%elem_of_app; exists file.
  - destruct (too_large ff file); [|by apply not_elem_of_nil in H].
    apply list_elem_of_singleton in H. by left.
  - destruct (wrong_type P ff file); [|by apply not_elem_of_nil in H].
    apply list_elem_of_singleton in H. by right.
Qed.

Lemma elem_of_flat_map_violations P files isCreate fileFields ff msg :
  ff ∈ fileFields → msg ∈ field_violations P files isCreate ff →
  msg ∈ validateFiles P files fileFields isCreate.
Proof.
  intros Hff Hmsg. unfold validateFiles. rewrite validate_loop_flat_map. simpl.
  apply list_elem_of_In, in_flat_map. exists ff. by rewrite <- !list_elem_of_In.
Qed.

(** C7.  [validateFiles] returns, in one pass over the configured file
    fields, the violations of every field: a required file missing on
    create, a file above [maxSize] megabytes, a file whose type no accept
    rule admits; each has its own message, and nothing is required on
    update.  A rule with a leading dot compares the extension of the file
    name, a rule [<type>/*] the prefix of the media type, any other rule
    the whole media type. *)
Theorem validation_collects_all (P : Platform)
    (files : option (gmap string (list MulterFile)))
    (fileFields : list FileFieldConfig) (isCreate : bool) :
  validateFiles P files fileFields isCreate
  = flat_map (field_violations P files isCreate) fileFields ∧
  (∀ ff, ff ∈ fileFields → required ff = true → isCreate = true →
         uploaded_for files ff = None →
         required_message ff ∈ validateFiles P files fileFields isCreate) ∧
  (∀ ff file, ff ∈ fileFields → uploaded_for files ff = Some file →
     (too_large ff file = true →
      size_message P ff file ∈ validateFiles P files fileFields isCreate) ∧
     (wrong_type P ff file = true →
      type_message ff file ∈ validateFiles P files fileFields isCreate)) ∧
  (∀ ff ff' file file',
     required_message ff ≠ size_message P ff' file ∧
     required_message ff ≠ type_message ff' file ∧
     size_message P ff file ≠ type_message ff file') ∧
  (isCreate = false → ∀ ff, required_message ff ∉ validateFiles P files fileFields isCreate) ∧
  (∀ ff file,
     wrong_type P ff file = true ↔
     ∃ a, accept ff = Some a ∧ a ≠ "" ∧
          ∀ rule, rule ∈ accept_rules a → rule_accepts P file rule = false) ∧
  (∀ file rule,
     (Str.startsWith rule "." = true →
      rule_accepts P file rule
      = bool_decide (Str.toLowerCase (path_extname P (originalname file)) = rule)) ∧
     (Str.startsWith rule "." = false → Str.endsWith rule "/*" = false →
      rule_accepts P file rule = bool_decide (Str.toLowerCase (mimetype file) = rule))) ∧
  (∀ file type,
     Str.startsWith (type +:+ "/*") "." = false → "*"%char ∉ Str.chars type →
     rule_accepts P file (type +:+ "/*")
     = Str.startsWith (Str.toLowerCase (mimetype file)) (type +:+ "/")).
Proof.
  split_and!.
  - unfold validateFiles. by rewrite validate_loop_flat_map.
  - intros ff Hff Hreq -> Hup. eapply elem_of_flat_map_violations; [exact Hff|].
    unfold field_violations. rewrite Hup, Hreq. apply list_elem_of_here.
  - intros ff file Hff Hup. split; intros H;
      (eapply elem_of_flat_map_violations; [exact Hff|]);
      unfold field_violations; rewrite Hup, H; apply elem_of_app.
    + left. apply list_elem_of_here.
    + right. apply list_elem_of_here.
  - intros ff ff' file file'. split_and!.
    + apply required_size_distinct.
    + apply required_type_distinct.
    + apply size_type_distinct.
  - intros -> ff Hin. unfold validateFiles in Hin.
    rewrite validate_loop_flat_map in Hin. simpl in Hin.
    apply list_elem_of_In, in_flat_map in Hin as (ff' & _ & Hin).
    apply list_elem_of_In, field_violations_update in Hin as [file [H|H]].
    + by apply required_size_distinct in H.
    + by apply required_type_distinct in H.
  - intros ff file. unfold wrong_type, isFileAccepted. split.
    + destruct (accept ff) as [a|]; [|done]. intros [Ha Hr]%andb_true_iff.
      exists a. split_and!; [done|..].
      * apply negb_true_iff, bool_decide_eq_false in Ha. exact Ha.
      * intros rule Hin. apply negb_true_iff in Hr.
        destruct (rule_accepts P file rule) eqn:E; [|done].
        rewrite <- Hr. symmetry. apply existsb_exists. exists rule.
        by rewrite <- list_elem_of_In.
    + intros (a & -> & Ha & Hr). apply andb_true_iff. split.
      * by apply negb_true_iff, bool_decide_eq_false.
      * apply negb_true_iff. destruct (existsb _ _) eqn:E; [|done].
        apply existsb_exists in E as (rule & Hin & Hacc).
        apply list_elem_of_In in Hin. by rewrite Hr in Hacc.
  - intros file rule. split.
    + apply rule_accepts_extension.
    + apply rule_accepts_exact.
  - intros file type. apply rule_accepts_wildcard.
Qed.

Example validateFiles_create :
  validateFiles plain_platform (Some {["photo" := [notes_txt]]}) [idCard; photo] true
  = [required_message idCard; size_message plain_platform photo notes_txt;
     type_message photo notes_txt] ∧
  size_message plain_platform photo notes_txt
  = "File " +:+ dq +:+ "photo" +:+ dq +:+ " exceeds max size of 1MB (got 2.00MB)".
Proof. split; vm_compute; reflexivity. Qed.

Example validateFiles_update :
  validateFiles plain_platform (Some {["photo" := [notes_txt]]}) [idCard; photo] false
  = [size_message plain_platform photo notes_txt; type_message photo notes_txt] ∧
  validateFiles plain_platform (Some {["idCard" := [scan_pdf]]}) [idCard; photo] true = [].
Proof. split; vm_compute; reflexivity. Qed.

Example isFileAccepted_examples :
  isFileAccepted plain_platform scan_pdf ".pdf,.jpg" = true ∧
  isFileAccepted plain_platform scan_pdf "image/*" = false ∧
  isFileAccepted plain_platform notes_txt "image/*, TEXT/*" = true ∧
  isFileAccepted plain_platform notes_txt "text/plain" = true ∧
  isFileAccepted plain_platform notes_txt "text" = false.
Proof. repeat split; vm_compute; reflexivity. Qed.

Lemma validation_collects_all_witness :
  (required_message idCard ∈ validateFiles plain_platform photo_only [idCard; photo] true) ∧
  (size_message plain_platform photo notes_txt
     ∈ validateFiles plain_platform photo_only [idCard; photo] true) ∧
  (type_message photo notes_txt
     ∈ validateFiles plain_platform photo_only [idCard; photo] true) ∧
  (required_message idCard ∉ validateFiles plain_platform photo_only [idCard; photo] false) ∧
  rule_accepts plain_platform scan_pdf ".pdf" = true ∧
  rule_accepts plain_platform notes_txt ("text" +:+ "/*") = true.
Proof.
  destruct (validation_collects_all plain_platform photo_only [idCard; photo] true)
    as (_ & Hreq & Hfile & _ & _ & _ & Hrule & Hwild).
  destruct (validation_collects_all plain_platform photo_only [idCard; photo] false)
    as (_ & _ & _ & _ & Hupd & _).
  assert (Hphoto : photo ∈ [idCard; photo]) by (apply list_elem_of_further, list_elem_of_here).
  split_and!.
  - apply Hreq; [apply list_elem_of_here|reflexivity..].
  - apply (Hfile photo notes_txt Hphoto); reflexivity.
  - apply (Hfile photo notes_txt Hphoto); reflexivity.
  - apply Hupd. reflexivity.
  - rewrite (proj1 (Hrule scan_pdf ".pdf")) by reflexivity. reflexivity.
  - rewrite (Hwild notes_txt "text"); [reflexivity|reflexivity|].
    apply (proj1 (bool_decide_eq_false _)). reflexivity.
Defined.

(** ** Theorems on the write handlers *)

Lemma body_missing_spread body : body_missing body = true → hasBody (spread body) = false.
Proof.
  unfold hasBody. destruct body as [b|]; simpl.
  - intros ->%bool_decide_eq_true. by rewrite bool_decide_eq_true_2.
  - intros _. by rewrite bool_decide_eq_true_2.
Qed.

(** C8.  A create, replace or partial-update request with an empty body and
    no uploaded file is answered with the 400 "Request body cannot be
    empty" and calls neither the storage engine nor the blob store: the
    trace is empty and the world unchanged (both variants). *)
Theorem empty_write_rejected {World} (P : Platform) (env : Env World) (resourceName : string)
    (fileFields : list FileFieldConfig) (blobToken : option string)
    (req : request) (w : World) :
  body_missing (req_body req) = true →
  hasUploadedFiles (req_files req) = false →
  postHandler P env resourceName fileFields blobToken req w = (w, [], empty_body_response) ∧
  putHandler P env resourceName fileFields blobToken req w = (w, [], empty_body_response) ∧
  patchHandler P env resourceName fileFields blobToken req w = (w, [], empty_body_response) ∧
  postHandler_js env req w = (w, [], empty_body_response) ∧
  putHandler_js env resourceName req w = (w, [], empty_body_response) ∧
  patchHandler_js env resourceName req w = (w, [], empty_body_response).
Proof.
  intros Hbody Hfiles. pose proof (body_missing_spread _ Hbody) as Hspread.
  unfold postHandler, putHandler, patchHandler, postHandler_js, putHandler_js,
    patchHandler_js, update_js, handle.
  rewrite Hspread, Hfiles, Hbody. simpl. done.
Qed.

Lemma empty_write_rejected_witness :
  postHandler plain_platform (listing_env products) "students" [idCard] (Some "token")
    empty_request tt = (tt, [], empty_body_response) ∧
  patchHandler_js (listing_env products) "students" empty_request tt
  = (tt, [], empty_body_response).
Proof.
  destruct (empty_write_rejected plain_platform (listing_env products) "students"
              [idCard] (Some "token") empty_request tt eq_refl eq_refl)
    as (H1 & _ & _ & _ & _ & H6).
  exact (conj H1 H6).
Defined.

(** *** The rollback of the create handler *)

Lemma obj_update_fresh o key value : key ∉ o.*1 → obj_update o key value = None.
Proof.
  induction o as [|[k x] o IH]; simpl; [done|].
  intros [Hk Ho]%not_elem_of_cons.
  rewrite bool_decide_eq_false_2 by congruence. by rewrite IH.
Qed.

Lemma obj_insert_index_perm o i key value :
  obj_insert_index o i key value ≡ₚ o ++ [(key, value)].
Proof.
  induction o as [|[k x] o IH]; simpl; [done|].
  destruct (array_index k) as [j|]; [destruct (j <? i)|].
  - by rewrite IH.
  - etrans; [apply perm_swap|]. constructor. apply Permutation_cons_append.
  - etrans; [apply perm_swap|]. constructor. apply Permutation_cons_append.
Qed.

(** A new property: somewhere among the others, and at the end unless its
    name is an array index. *)
Lemma obj_set_fresh o key value :
  key ≠ "__proto__" → key ∉ o.*1 →
  obj_set o key value ≡ₚ o ++ [(key, value)] ∧
  (array_index key = None → obj_set o key value = o ++ [(key, value)]).
Proof.
  intros Hk Ho. unfold obj_set. rewrite bool_decide_eq_false_2 by done.
  rewrite obj_update_fresh by done.
  destruct (array_index key) as [i|]; [|done].
  split; [apply obj_insert_index_perm|done].
Qed.

(** Property order and insertion order: the upload of the fields [b] and
    [1], in this order, leaves an object whose values are listed with the
    one of [1] first. *)
Example obj_set_order :
  obj_set (obj_set [] "b" "url-b") "1" "url-1" = [("1", "url-1"); ("b", "url-b")] ∧
  obj_set (obj_set (obj_set [] "10" "x") "b" "y") "9" "z" = [("9", "z"); ("10", "x"); ("b", "y")] ∧
  obj_set (obj_set [] "01" "x") "1" "y" = [("1", "y"); ("01", "x")] ∧
  obj_set (obj_set [] "idCard" "x") "photo" "y" = [("idCard", "x"); ("photo", "y")].
Proof. repeat split; vm_compute; reflexivity. Qed.

Lemma upload_loop_trace {World} P (env : Env World) files rn id tok fileFields urls w w' t r :
  upload_loop P env files rn id tok fileFields urls w = (w', t, r) →
  Forall is_put t.
Proof.
  revert urls w t. induction fileFields as [|ff rest IH]; intros urls w t; simpl.
  - intros [= <- <- <-]. constructor.
  - destruct (uploaded_for files ff) as [file|]; [|apply IH].
    unfold mbind, M_bind, bind, draw, call.
    destruct (Date_now env w) as [w1 now].
    destruct (blob_put env _ _ _ w1) as [w2 [url|e]].
    + destruct (upload_loop _ _ _ _ _ _ rest _ w2) as [[w3 t3] r3] eqn:Hrest.
      intros [= <- <- <-]. simpl. constructor; [by eexists _, _, _, _|]. by eapply IH.
    + intros [= <- <- <-]. simpl. constructor; [by eexists _, _, _, _|constructor].
Qed.

Lemma upload_loop_ok {World} P (env : Env World) files rn id tok fileFields urls w w' t urls' :
  NoDup (fieldName <$> fileFields) →
  "__proto__" ∉ fieldName <$> fileFields →
  (∀ k, k ∈ urls.*1 → k ∉ fieldName <$> fileFields) →
  upload_loop P env files rn id tok fileFields urls w = (w', t, Ok urls') →
  Forall is_put_ok t ∧ urls'.*2 ≡ₚ urls.*2 ++ put_urls t ∧
  (Forall (λ ff, array_index (fieldName ff) = None) fileFields →
   urls'.*2 = urls.*2 ++ put_urls t).
Proof.
  revert urls w t. induction fileFields as [|ff rest IH]; intros urls w t; simpl.
  - intros _ _ _ [= <- <- <-]. rewrite app_nil_r. split_and!; [constructor|done|done].
  - intros [Hff Hnd]%NoDup_cons [Hp Hproto]%not_elem_of_cons Hfresh.
    assert (Hfresh' : ∀ k, k ∈ urls.*1 → k ∉ fieldName <$> rest).
    { intros k Hk. specialize (Hfresh k Hk). by apply not_elem_of_cons in Hfresh as [_ ?]. }
    destruct (uploaded_for files ff) as [file|].
    2:{ intros Hrun. destruct (IH urls w t Hnd Hproto Hfresh' Hrun) as (H1 & H2 & H3).
        split_and!; [done..|]. intros [_ Hall]%Forall_cons. by apply H3. }
    unfold mbind, M_bind, bind, draw, call.
    destruct (Date_now env w) as [w1 now].
    destruct (blob_put env _ _ _ w1) as [w2 [url|e]]; [|intros [=]].
    destruct (upload_loop _ _ _ _ _ _ rest _ w2) as [[w3 t3] r3] eqn:Hrest.
    intros [= <- <- ->].
    assert (Hname : fieldName ff ∉ urls.*1).
    { intros Hin. apply (Hfresh _ Hin). apply list_elem_of_here. }
    destruct (obj_set_fresh urls (fieldName ff) url (not_eq_sym Hp) Hname) as [Hperm Heq].
    apply IH in Hrest as (Hok & Hurls & Hlist); [|done|done|].
    + split_and!.
      * constructor; [by eexists _, _, _, _|exact Hok].
      * rewrite Hurls, Hperm, fmap_app. simpl. by rewrite <- app_assoc.
      * intros [Hidx Hall]%Forall_cons. rewrite (Hlist Hall), (Heq Hidx), fmap_app.
        simpl. by rewrite <- app_assoc.
    + intros k. rewrite Hperm, fmap_app.
      intros [Hk|Hk]%elem_of_app; [by apply Hfresh'|].
      simpl in Hk. apply list_elem_of_singleton in Hk as ->. exact Hff.
Qed.

Lemma deleteBlobs_trace {World} (env : Env World) urls tok w :
  ∃ w' t, deleteBlobs env urls tok w = (w', t, Ok tt) ∧ Forall is_del t ∧ del_urls t = urls.
Proof.
  revert w. induction urls as [|url rest IH]; intros w; simpl.
  - exists w, []. by split_and!.
  - unfold mbind, M_bind, bind, call_quiet.
    destruct (blob_del env url tok w) as [w1 r].
    destruct (IH w1) as (w2 & t2 & -> & Hdel & Hurls).
    exists w2, ([EDel url tok r] ++ t2). split_and!; [done| |].
    + constructor; [by eexists _, _, _|exact Hdel].
    + simpl. by rewrite Hurls.
Qed.

Lemma create_with_rollback_run {World} (env : Env World) body urls tok w :
  (∃ w1 doc, create_with_rollback env body urls tok w
             = (w1, [ECreate body (Ok doc)], Ok (Respond 201 (RespData doc)))) ∨
  (∃ w2 e t_del, create_with_rollback env body urls tok w
                 = (w2, [ECreate body (Throw e)] ++ t_del, Throw e)
                 ∧ Forall is_del t_del ∧ del_urls t_del = urls.*2).
Proof.
  unfold create_with_rollback, catch, mbind, M_bind, bind, call, ret, mret, M_ret, throw.
  destruct (Model_create env body w) as [w1 [doc|e]].
  - left. by exists w1, doc.
  - right. destruct urls as [|u urls].
    + exists w1, e, []. by split_and!.
    + destruct (deleteBlobs_trace env ((u :: urls).*2) tok w1) as (w2 & t & Hrun & Hdel & Hurls).
      rewrite Hrun. exists w2, e, t. split_and!; [|done..].
      by rewrite app_nil_r.
Qed.

Lemma create_not_put t body r : Forall is_put t → ECreate body r ∉ t.
Proof.
  intros Hall Hin. rewrite Forall_forall in Hall.
  destruct (Hall _ Hin) as (? & ? & ? & ? & [=]).
Qed.

Lemma create_not_del t body r : Forall is_del t → ECreate body r ∉ t.
Proof.
  intros Hall Hin. rewrite Forall_forall in Hall.
  destruct (Hall _ Hin) as (? & ? & ? & [=]).
Qed.

Lemma is_put_ok_is_put t : Forall is_put_ok t → Forall is_put t.
Proof.
  intros H. eapply Forall_impl; [exact H|].
  intros ev (p & b & k & u & ->). by eexists _, _, _, _.
Qed.

(** C6.  In a create request whose uploads succeeded and whose
    [Model.create] fails, the trace is: the uploads, the failed create,
    then one [del] for each URL the uploads returned and no other call;
    the error reaches the client after them (through the error mapping of
    the handler).  The deletions follow the property order of the object
    of uploaded URLs, which is the order of the uploads unless the name of
    a file field is an array index.  The file fields have distinct names,
    none of them [__proto__], as [extractFileFields] yields them from the
    keys of a schema. *)
Theorem create_rollback {World} (P : Platform) (env : Env World) (resourceName : string)
    (fileFields : list FileFieldConfig) (blobToken : option string) (req : request)
    (w w' : World) (t : list event) (out : outcome)
    (body : gmap string jsval) (e : error) :
  NoDup (fieldName <$> fileFields) →
  "__proto__" ∉ fieldName <$> fileFields →
  postHandler P env resourceName fileFields blobToken req w = (w', t, out) →
  ECreate body (Throw e) ∈ t →
  ∃ t_up t_del,
    t = t_up ++ [ECreate body (Throw e)] ++ t_del ∧
    Forall is_put_ok t_up ∧ Forall is_del t_del ∧
    del_urls t_del ≡ₚ put_urls t_up ∧
    (Forall (λ ff, array_index (fieldName ff) = None) fileFields →
     del_urls t_del = put_urls t_up) ∧
    out = create_error TypeScript e.
Proof.
  intros Hnd Hproto. unfold postHandler, handle.
  destruct (negb (hasBody _) && negb (hasUploadedFiles _)).
  { intros [= <- <- <-] Hin. by apply not_elem_of_nil in Hin. }
  assert (Hcreate : ∀ b urls tok w0 w1 t_up t1 out1,
            Forall is_put_ok t_up →
            (let '(w2, t2, r) := create_with_rollback env b urls tok w0 in
             (w2, t_up ++ t2, r)) = (w1, t1, out1) →
            ECreate body (Throw e) ∈ t1 →
            ∃ t_del, t1 = t_up ++ [ECreate body (Throw e)] ++ t_del ∧
                     Forall is_del t_del ∧ del_urls t_del = urls.*2 ∧
                     out1 = Throw e).
  { intros b urls tok w0 w1 t_up t1 out1 Hup.
    destruct (create_with_rollback_run env b urls tok w0)
      as [(w2 & doc & ->)|(w2 & e' & t_del & -> & Hdel & Hdu)].
    - intros [= <- <- <-] [Hin|Hin]%elem_of_app.
      + by apply create_not_put in Hin; [|apply is_put_ok_is_put].
      + apply list_elem_of_singleton in Hin. discriminate Hin.
    - intros [= <- <- <-] [Hin|Hin]%elem_of_app.
      + by apply create_not_put in Hin; [|apply is_put_ok_is_put].
      + apply elem_of_cons in Hin as [Hin|Hin].
        * injection Hin as <- <-.
          exists t_del. by split_and!.
        * by apply create_not_del in Hin. }
  destruct (hasFiles fileFields blobToken).
  - destruct (validateFiles P _ fileFields true).
    + unfold mbind, M_bind, bind at 1, draw.
      destruct (new_ObjectId env w) as [w1 docId].
      unfold bind.
      destruct (uploadFiles P env _ fileFields resourceName docId _ w1)
        as [[w2 t_up] [urls|e_up]] eqn:Hup.
      * apply upload_loop_ok in Hup as (Hok & Hurls & Hlist);
          [|done|done|by intros k ?%not_elem_of_nil].
        simpl in Hurls, Hlist.
        destruct (create_with_rollback env _ urls _ w2) as [[w3 t3] r3] eqn:Hrun.
        intros Heq Hin.
        assert (Ht : t = t_up ++ t3).
        { destruct r3; simpl in Heq; by injection Heq as _ <- _. }
        subst t.
        destruct (Hcreate (assign_urls (<["_id" := VObjectId docId]> (spread (req_body req))) urls)
                    urls (default "" blobToken) w2 w3 t_up (t_up ++ t3) r3 Hok)
          as (t_del & Ht & Hdel & Hdu & ->); [by rewrite Hrun|exact Hin|].
        simpl in Heq. injection Heq as <- <-.
        exists t_up, t_del. split_and!; [done..|by rewrite Hdu|by rewrite Hdu|done].
      * intros [= <- <- <-] Hin. simpl in Hin.
        apply upload_loop_trace in Hup. by apply create_not_put in Hin.
    + intros [= <- <- <-] Hin. by apply not_elem_of_nil in Hin.
  - destruct (create_with_rollback env _ [] _ w) as [[w3 t3] r3] eqn:Hrun.
    intros Heq Hin.
    assert (Ht : t = t3).
    { destruct r3; simpl in Heq; by injection Heq as _ <- _. }
    subst t.
    destruct (Hcreate (spread (req_body req)) [] (default "" blobToken) w w3 [] t3 r3)
      as (t_del & Ht & Hdel & Hdu & ->); [constructor|by rewrite Hrun|exact Hin|].
    simpl in Heq. injection Heq as <- <-. exists [], t_del.
    split_and!; [done..|by rewrite Hdu|by rewrite Hdu|done].
Qed.

Example create_rollback_run :
  postHandler plain_platform rollback_env "students" [idCard] (Some "token")
    create_request 0%nat
  = (0%nat, rollback_trace, duplicate_response ["email"]).
Proof. vm_compute. reflexivity. Qed.

Lemma create_rollback_witness :
  ∃ t_up t_del,
    rollback_trace = t_up ++ [ECreate created_body (Throw duplicate_email)] ++ t_del ∧
    Forall is_put_ok t_up ∧ Forall is_del t_del ∧
    del_urls t_del ≡ₚ put_urls t_up ∧
    del_urls t_del = put_urls t_up ∧
    duplicate_response ["email"] = create_error TypeScript duplicate_email.
Proof.
  destruct (create_rollback plain_platform rollback_env "students" [idCard] (Some "token")
              create_request 0%nat 0%nat rollback_trace (duplicate_response ["email"])
              created_body duplicate_email)
    as (t_up & t_del & H1 & H2 & H3 & H4 & H5 & H6).
  - apply NoDup_singleton.
  - apply (proj1 (bool_decide_eq_false _)). reflexivity.
  - exact create_rollback_run.
  - apply list_elem_of_further, list_elem_of_here.
  - exists t_up, t_del. split_and!; [exact H1|exact H2|exact H3|exact H4| |exact H6].
    apply H5. constructor; [reflexivity|constructor].
Defined.

(** With the file fields [b] and [1], in this order, the blob of [b] is
    uploaded first and deleted last. *)
Example create_rollback_index_order :
  ∃ body,
    postHandler plain_platform rollback_env "students" [field_b; field_1] (Some "token")
      indexed_request 0%nat
    = (0%nat,
       [EPut "students/65f0c0ffee0000000000abcd/b-1700000000000.PDF" "%PDF" "token"
          (Ok stored_b);
        EPut "students/65f0c0ffee0000000000abcd/1-1700000000000.PDF" "%PDF" "token"
          (Ok stored_1);
        ECreate body (Throw duplicate_email);
        EDel stored_1 "token" (Ok tt);
        EDel stored_b "token" (Ok tt)],
       duplicate_response ["email"]).
Proof. eexists. vm_compute. reflexivity. Qed.

(** ** The distinct-values route *)

Section SortFacts.
Context {A : Type} (gt : A → A → bool).

Lemma sort_insert_perm x l : sort_insert gt x l ≡ₚ x :: l.
Proof.
  induction l as [|y l IH]; simpl; [done|].
  destruct (gt x y); [|done]. rewrite IH. apply Permutation_swap.
Qed.

Lemma js_sort_perm l : js_sort gt l ≡ₚ l.
Proof.
  induction l as [|x l IH]; simpl; [done|].
  by rewrite sort_insert_perm, IH.
Qed.

Lemma sort_insert_sorted x l :
  (∀ a b, gt a b = true → gt b a = false) →
  Sorted (λ a b, gt a b = false) l →
  Sorted (λ a b, gt a b = false) (sort_insert gt x l).
Proof.
  intros Hasym. induction l as [|y l IH]; intros Hs; simpl.
  - repeat constructor.
  - destruct (gt x y) eqn:E.
    + apply Sorted_inv in Hs as [Hs Hhd]. constructor; [by apply IH|].
      destruct l as [|z l]; simpl.
      * constructor. by apply Hasym.
      * destruct (gt x z); constructor; [by inversion Hhd|by apply Hasym].
    + constructor; [done|]. by constructor.
Qed.

Lemma js_sort_sorted l :
  (∀ a b, gt a b = true → gt b a = false) →
  Sorted (λ a b, gt a b = false) (js_sort gt l).
Proof.
  intros Hasym. induction l as [|x l IH]; simpl; [constructor|].
  by apply sort_insert_sorted.
Qed.

(** A comparator that orders no two elements of the list leaves it as
    it is. *)
Lemma js_sort_unordered l :
  (∀ a b, a ∈ l → b ∈ l → gt a b = false) → js_sort gt l = l.
Proof.
  induction l as [|x l IH]; intros H; simpl; [done|].
  rewrite IH.
  - destruct l as [|y l]; simpl; [done|].
    rewrite H; [done|apply list_elem_of_here|].
    apply list_elem_of_further, list_elem_of_here.
  - intros a b Ha Hb. apply H; by apply list_elem_of_further.
Qed.
End SortFacts.

Lemma js_sort_fmap {A B} (f : B → A) (gt : A → A → bool) (gt' : B → B → bool) (l : list B) :
  (∀ x y, gt (f x) (f y) = gt' x y) →
  js_sort gt (f <$> l) = f <$> js_sort gt' l.
Proof.
  intros Hf. induction l as [|x l IH]; csimpl; [done|]. rewrite IH.
  generalize (js_sort gt' l). intros s.
  induction s as [|y s IHs]; csimpl; [done|].
  rewrite Hf. destruct (gt' x y); csimpl; [|done]. by rewrite IHs.
Qed.

Lemma Num_gt_int_0 z : Num.gt (Num.int z) (Num.int 0) = (0 <? z).
Proof. unfold Num.gt. apply Num_lt_int. Qed.

Lemma sorts_after_text P x y :
  sorts_after P (VStr x) (VStr y) = (0 <? String_localeCompare P x y).
Proof. unfold sorts_after. simpl. apply Num_gt_int_0. Qed.

Lemma Qle_bool_false_lt x y : Qle_bool x y = false → (y < x)%Q.
Proof.
  intros H. apply Qnot_le_lt. intros Hle. apply Qle_bool_iff in Hle. congruence.
Qed.

Lemma Qle_bool_sub x y : Qle_bool (Qred (x - y)) 0 = Qle_bool x y.
Proof.
  apply eq_true_iff_eq. rewrite !Qle_bool_iff, Qred_correct.
  unfold Qle, Qminus, Qplus, Qopp. simpl. rewrite !Pos2Z.inj_mul. lia.
Qed.

Lemma sorts_after_number P x y : sorts_after P (VNum x) (VNum y) = Num.lt y x.
Proof.
  unfold sorts_after, Num.gt. destruct x as [| | |x], y as [| | |y]; try reflexivity.
  simpl. f_equal. apply Qle_bool_sub.
Qed.

Lemma Num_lt_asym a b : Num.lt a b = true → Num.lt b a = false.
Proof.
  destruct a as [| | |x], b as [| | |y]; try done. simpl.
  intros Hxy%negb_true_iff%Qle_bool_false_lt. apply negb_false_iff, Qle_bool_iff.
  by apply Qlt_le_weak.
Qed.

Lemma num_leq_trans a b c :
  a ≠ NaN → b ≠ NaN → c ≠ NaN → num_leq a b → num_leq b c → num_leq a c.
Proof.
  unfold num_leq. destruct a as [| | |x], b as [| | |y], c as [| | |z]; try done. simpl.
  intros _ _ _ Hab%negb_false_iff%Qle_bool_iff Hbc%negb_false_iff%Qle_bool_iff.
  apply negb_false_iff, Qle_bool_iff. by eapply Qle_trans.
Qed.

(** A list sorted pairwise is sorted throughout when the order is
    transitive on its elements. *)
Lemma Sorted_StronglySorted_on {A} (R : A → A → Prop) (Q : A → Prop) (l : list A) :
  (∀ x y z, Q x → Q y → Q z → R x y → R y z → R x z) →
  Forall Q l → Sorted R l → StronglySorted R l.
Proof.
  intros Htrans. induction l as [|x l IH]; intros HQ Hs; [constructor|].
  apply Forall_cons in HQ as [Hx HQ]. apply Sorted_inv in Hs as [Hs Hhd].
  specialize (IH HQ Hs). constructor; [exact IH|].
  destruct l as [|y l]; [constructor|].
  apply HdRel_inv in Hhd. apply StronglySorted_inv in IH as [_ Hy].
  apply Forall_cons in HQ as [Hqy HQ]. constructor; [exact Hhd|].
  rewrite Forall_forall in Hy, HQ. apply Forall_forall. intros z Hz.
  by apply (Htrans x y z); auto.
Qed.

Lemma code_compare_le x y : code_compare x y ≤ 0 ↔ String.le x y.
Proof.
  unfold String.le, String.leb, code_compare.
  destruct (String.compare x y); simpl; split; intros H; try done; lia.
Qed.

Lemma code_compare_consistent : consistent_collation code_compare.
Proof.
  split.
  - intros x y. unfold code_compare. rewrite (String.compare_antisym y x).
    destruct (String.compare x y); simpl; lia.
  - intros x y z. rewrite !code_compare_le. apply transitivity.
Qed.

Lemma sorted_texts P texts :
  consistent_collation (String_localeCompare P) →
  ∃ texts', js_sort (sorts_after P) (VStr <$> texts) = VStr <$> texts' ∧
            StronglySorted (λ a b, String_localeCompare P a b ≤ 0) texts'.
Proof.
  intros [Hasym Htrans].
  exists (js_sort (λ a b, 0 <? String_localeCompare P a b) texts). split.
  - apply js_sort_fmap. intros x y. apply sorts_after_text.
  - apply (Sorted_StronglySorted_on _ (λ _, True)).
    + intros x y z _ _ _. apply Htrans.
    + apply Forall_forall. done.
    + eapply Sorted_ind with (P := Sorted (λ a b, String_localeCompare P a b ≤ 0));
        [constructor| |apply js_sort_sorted].
      * intros a l _ IH Hhd. constructor; [exact IH|].
        destruct Hhd as [|b l Hb]; constructor. apply Z.ltb_ge in Hb. exact Hb.
      * intros a b Hab%Z.ltb_lt. apply Z.ltb_ge. by apply Hasym.
Qed.

Lemma sorted_numbers P numbers :
  Forall (λ n, n ≠ NaN) numbers →
  ∃ numbers', js_sort (sorts_after P) (VNum <$> numbers) = VNum <$> numbers' ∧
              StronglySorted num_leq numbers'.
Proof.
  intros Hnan. exists (js_sort (λ a b, Num.lt b a) numbers). split.
  - apply js_sort_fmap. intros x y. apply sorts_after_number.
  - apply (Sorted_StronglySorted_on _ (λ n, n ≠ NaN)).
    + intros x y z. apply num_leq_trans.
    + rewrite Forall_forall in Hnan. apply Forall_forall. intros n Hn.
      apply Hnan. by rewrite <- (js_sort_perm (λ a b, Num.lt b a) numbers).
    + apply (js_sort_sorted (λ a b, Num.lt b a)). intros a b. apply Num_lt_asym.
Qed.

Lemma sorted_others P values :
  Forall (λ v, is_text_or_number v = false) values →
  js_sort (sorts_after P) values = values.
Proof.
  intros Hall. apply js_sort_unordered. intros a b Ha Hb.
  rewrite Forall_forall in Hall. specialize (Hall a Ha).
  by destruct a.
Qed.

(** C9 (amended).  On a resource with filterable fields, a field outside
    [filterBy] gets the 400 that lists the allowed fields, without a call
    to the store; an allowed field gets the values the store returned and
    their count, ordered by [localeCompare] when they are all text, by the
    numeric order when they are all numbers, and left as the store
    returned them when none of them is text or a number. *)
Theorem distinct_values_lookup {World} (P : Platform) (env : Env World)
    (resourceName : string) (filterBy : list string) (field : string) (w : World) :
  filterBy ≠ [] →
  ∃ h, filters_route P env resourceName filterBy = Some h ∧
    (field ∉ filterBy →
     h field w = (w, [], Respond 400 (RespError (not_filterable_message field filterBy) None))) ∧
    (field ∈ filterBy → ∀ w' values,
       Model_distinct env field w = (w', Ok values) →
       ∃ sorted,
         h field w = (w', [EDistinct field (Ok values)],
                      Respond 200 (RespDistinct resourceName field
                                     (Z.of_nat (length values)) sorted)) ∧
         sorted ≡ₚ values ∧
         (consistent_collation (String_localeCompare P) →
          ∀ texts, values = VStr <$> texts →
            ∃ texts', sorted = VStr <$> texts' ∧
                      StronglySorted (λ a b, String_localeCompare P a b ≤ 0) texts') ∧
         (∀ numbers, values = VNum <$> numbers → Forall (λ n, n ≠ NaN) numbers →
            ∃ numbers', sorted = VNum <$> numbers' ∧ StronglySorted num_leq numbers') ∧
         (Forall (λ v, is_text_or_number v = false) values → sorted = values)).
Proof.
  intros Hne. exists (filtersHandler P env resourceName filterBy).
  split_and!.
  - by destruct filterBy.
  - intros Hnot. unfold filtersHandler.
    rewrite isFilterable_nonempty by done. by rewrite bool_decide_eq_false_2.
  - intros Hin w' values Hd. exists (js_sort (sorts_after P) values).
    unfold filtersHandler. rewrite isFilterable_nonempty by done.
    rewrite bool_decide_eq_true_2 by done. simpl. rewrite Hd.
    rewrite (Permutation_length (js_sort_perm (sorts_after P) values)).
    split_and!; [done|apply js_sort_perm|..].
    + intros Hc texts ->. by apply sorted_texts.
    + intros numbers -> Hn. by apply sorted_numbers.
    + apply sorted_others.
Qed.

(** The distinct scenario: grades B, A, B, C, of which the store returns
    the distinct ones. *)
Example distinct_scenario :
  filtersHandler plain_platform (distinct_env [VStr "B"; VStr "A"; VStr "C"])
    "students" ["grade"] "grade" tt
  = (tt, [EDistinct "grade" (Ok [VStr "B"; VStr "A"; VStr "C"])],
     Respond 200 (RespDistinct "students" "grade" 3 [VStr "A"; VStr "B"; VStr "C"])).
Proof. vm_compute. reflexivity. Qed.

Example distinct_numbers :
  js_sort (sorts_after plain_platform)
    [VNum (Num.int 10); VNum (Fin (5 # 2)); VNum (Num.int (-1)); VNum (Num.int 7)]
  = [VNum (Num.int (-1)); VNum (Fin (5 # 2)); VNum (Num.int 7); VNum (Num.int 10)].
Proof. vm_compute. reflexivity. Qed.

Lemma distinct_values_lookup_witness :
  ∃ h, filters_route plain_platform (distinct_env [VStr "B"; VStr "A"; VStr "C"])
         "students" ["grade"] = Some h ∧
       h "age" tt
       = (tt, [], Respond 400 (RespError (not_filterable_message "age" ["grade"]) None)).
Proof.
  destruct (distinct_values_lookup plain_platform
              (distinct_env [VStr "B"; VStr "A"; VStr "C"]) "students" ["grade"] "age" tt)
    as (h & Hroute & H400 & _); [discriminate|].
  exists h. split; [exact Hroute|]. apply H400.
  apply (proj1 (bool_decide_eq_false _)). reflexivity.
Defined.

(** C9 as stated fails on values of mixed types: the comparator still
    orders the strings among themselves, so the values do not stay in the
    order the store returned them in. *)
Lemma distinct_mixed_counterexample :
  filtersHandler plain_platform (distinct_env [VStr "b"; VStr "a"; VNum (Num.int 1)])
    "students" ["grade"] "grade" tt
  = (tt, [EDistinct "grade" (Ok [VStr "b"; VStr "a"; VNum (Num.int 1)])],
     Respond 200 (RespDistinct "students" "grade" 3
                    [VStr "a"; VStr "b"; VNum (Num.int 1)])) ∧
  [VStr "a"; VStr "b"; VNum (Num.int 1)] ≠ [VStr "b"; VStr "a"; VNum (Num.int 1)].
Proof. split; [vm_compute; reflexivity|discriminate]. Qed.

(** ** The file fields of a schema *)

Lemma file_field_of_name entry ff : file_field_of entry = Some ff → fieldName ff = entry.1.
Proof.
  unfold file_field_of. destruct entry as [key [s|[t|] r m a|]]; simpl;
    repeat case_match; by intros [= <-].
Qed.

Lemma extractFileFields_names schema name :
  name ∈ fieldName <$> extractFileFields schema → name ∈ schema.*1.
Proof.
  induction schema as [|entry schema IH]; csimpl; [done|].
  unfold extractFileFields in *. csimpl.
  destruct (file_field_of entry) as [ff|] eqn:E; csimpl.
  - apply file_field_of_name in E. rewrite E.
    intros [->|H]%elem_of_cons; [apply list_elem_of_here|].
    by apply list_elem_of_further, IH.
  - intros H. by apply list_elem_of_further, IH.
Qed.

(** The keys of an object are distinct, hence so are the names of the file
    fields a router is given. *)
Lemma extractFileFields_NoDup schema :
  NoDup schema.*1 → NoDup (fieldName <$> extractFileFields schema).
Proof.
  induction schema as [|entry schema IH]; csimpl; [constructor|].
  intros [Hk Hnd]%NoDup_cons. unfold extractFileFields in *. csimpl.
  destruct (file_field_of entry) as [ff|] eqn:E; csimpl; [|by apply IH].
  apply NoDup_cons. split; [|by apply IH].
  apply file_field_of_name in E. rewrite E.
  intros H. by apply Hk, extractFileFields_names.
Qed.

(** ** Further facts about the filter compiler *)

(** What one turn of the loop can leave under a field: what was there, an
    equality or regex clause for a bare key, or a node with the operator of
    an operator key written on it. *)
Lemma filter_step_lookup v filterBy q key value q' k c :
  filter_step v filterBy q key value = Compiled q' →
  q' !! k = Some c →
  q !! k = Some c ∨
  (classify key = Bare ∧ k = key ∧
   (c = CAtom (coerce v value) ∨ ∃ s, value = QStr s ∧ c = regex_node s)) ∨
  (∃ op, classify key = OpKey k op ∧
     ∃ b props, c = CNode b (<[op_prop op := coerce v value]> props) ∧
                (props = ∅ ∨ q !! k = Some (CNode b props))).
Proof.
  unfold filter_step.
  destruct (classify key) as [|field op|] eqn:Hc.
  - intros [= <-] Hk. by left.
  - destruct (isFilterable v filterBy field); simpl; [|intros [= <-] Hk; by left].
    unfold write_op.
    assert (Hnew : ∀ b,
              <[field := CNode b {[op_prop op := coerce v value]}]> q !! k = Some c →
              q !! k = Some c ∨
              (OpKey field op = Bare ∧ k = key ∧
               (c = CAtom (coerce v value) ∨ ∃ s, value = QStr s ∧ c = regex_node s)) ∨
              (∃ op0, OpKey field op = OpKey k op0 ∧
                 ∃ b0 props, c = CNode b0 (<[op_prop op0 := coerce v value]> props) ∧
                             (props = ∅ ∨ q !! k = Some (CNode b0 props)))).
    { intros b Hk. destruct (decide (field = k)) as [->|Hne].
      - rewrite lookup_insert_eq in Hk. injection Hk as <-.
        right. right. exists op. split; [done|]. exists b, ∅. split; [done|by left].
      - rewrite lookup_insert_ne in Hk by done. by left. }
    destruct (q !! field) as [c0|] eqn:Hq.
    + destruct (truthy c0) eqn:Ht.
      * destruct c0 as [[n|[s|l|o]]|b props].
        -- destruct v; [|done]. intros [= <-] Hk. by left.
        -- destruct v; [|done]. intros [= <-] Hk. by left.
        -- intros [= <-]. apply Hnew.
        -- intros [= <-]. apply Hnew.
        -- intros [= <-] Hk. destruct (decide (field = k)) as [->|Hne].
           ++ rewrite lookup_insert_eq in Hk. injection Hk as <-.
              right. right. exists op. split; [done|]. exists b, props. split; [done|by right].
           ++ rewrite lookup_insert_ne in Hk by done. by left.
      * intros [= <-]. apply Hnew.
    + destruct (inherited field); [done|]. intros [= <-]. apply Hnew.
  - destruct (isFilterable v filterBy key); simpl; [|intros [= <-] Hk; by left].
    assert (Heq : ∀ c0, write_eq q key c0 = Compiled q' → q' !! k = Some c →
                        q !! k = Some c ∨ (k = key ∧ c = c0)).
    { intros c0. unfold write_eq. destruct (bool_decide (key = "__proto__")).
      - destruct c0 as [a|]; [|done]. destruct (is_primitive a); [|done].
        intros [= <-] Hk. by left.
      - intros [= <-] Hk. destruct (decide (key = k)) as [->|Hne].
        + rewrite lookup_insert_eq in Hk. injection Hk as <-. by right.
        + rewrite lookup_insert_ne in Hk by done. by left. }
    destruct value as [s|l|o].
    + destruct (Str.startsWith s "/" && Str.endsWith s "/").
      * intros Hw Hk. destruct (Heq _ Hw Hk) as [?|[-> ->]]; [by left|].
        right. left. split_and!; [done..|]. right. by exists s.
      * intros Hw Hk. destruct (Heq _ Hw Hk) as [?|[-> ->]]; [by left|].
        right. left. split_and!; [done..|]. by left.
    + intros Hw Hk. destruct (Heq _ Hw Hk) as [?|[-> ->]]; [by left|].
      right. left. split_and!; [done..|]. by left.
    + intros Hw Hk. destruct (Heq _ Hw Hk) as [?|[-> ->]]; [by left|].
      right. left. split_and!; [done..|]. by left.
Qed.

(** A property of the clauses that every turn of the loop keeps holds of
    the compiled predicate. *)
Lemma filter_loop_invariant (Inv : string → clause → Prop) v filterBy :
  (∀ q key value q', (∀ k c, q !! k = Some c → Inv k c) →
     filter_step v filterBy q key value = Compiled q' →
     ∀ k c, q' !! k = Some c → Inv k c) →
  ∀ filters q q', (∀ k c, q !! k = Some c → Inv k c) →
    filter_loop v filterBy q filters = Compiled q' →
    ∀ k c, q' !! k = Some c → Inv k c.
Proof.
  intros Hstep filters. induction filters as [|[key value] rest IH]; intros q q' Hq; simpl.
  - by intros [= <-].
  - destruct (filter_step v filterBy q key value) as [q1| |] eqn:Hs; [|done..].
    apply IH. by eapply Hstep.
Qed.

Lemma startsWith_app s t p : Str.startsWith s p = true → Str.startsWith (s +:+ t) p = true.
Proof.
  unfold Str.startsWith. intros [r Hr]%bool_decide_eq_true.
  apply StrFacts.strip_prefix_Some in Hr.
  apply bool_decide_eq_true. exists (r ++ Str.chars t).
  rewrite StrFacts.chars_app, Hr, <- app_assoc. apply StrFacts.strip_prefix_app.
Qed.

(** A key that the loop reads (one that does not start with an underscore)
    names a field that does not start with one either. *)
Lemma classify_field_not_internal key :
  match classify key with
  | Internal => True
  | OpKey field _ => Str.startsWith field "_" = false
  | Bare => Str.startsWith key "_" = false
  end.
Proof.
  unfold classify. destruct (Str.startsWith key "_") eqn:Hs; [done|].
  destruct (operatorMatch key) as [[field op]|] eqn:Hm; [|done].
  apply operatorMatch_Some in Hm as [-> _].
  destruct (Str.startsWith field "_") eqn:Hf; [|done].
  by rewrite (startsWith_app _ _ _ Hf) in Hs.
Qed.

(** No field that starts with an underscore ([_id], [__v], ...) is ever
    filtered on, in either variant and whatever [filterBy] lists: the
    compiled predicate has no entry for it, after any sequence of query
    parameters. *)
Theorem internal_fields_never_filtered (v : variant) (filterBy : list string)
    (filters : list (string * qsval)) (q : gmap string clause) (field : string) :
  compile v filterBy filters = Compiled q →
  Str.startsWith field "_" = true →
  q !! field = None.
Proof.
  intros Hc Hf. destruct (q !! field) as [c|] eqn:E; [exfalso|done].
  assert (Hinv : Str.startsWith field "_" = false); [|congruence].
  revert E. generalize field c. clear Hf.
  eapply (filter_loop_invariant (λ k _, Str.startsWith k "_" = false));
    [|intros k c0; by rewrite lookup_empty|exact Hc].
  intros q0 key value q1 Hq0 Hs k c0 Hk.
  pose proof (classify_field_not_internal key) as Hcl.
  destruct (filter_step_lookup _ _ _ _ _ _ _ _ Hs Hk)
    as [Hold|[(Hb & -> & _)|(op & Ho & _)]].
  - by eapply Hq0.
  - by rewrite Hb in Hcl.
  - by rewrite Ho in Hcl.
Qed.

Lemma internal_fields_never_filtered_witness :
  ({["age" := CAtom (ANum (Num.int 7))]} : gmap string clause) !! "_id" = None.
Proof.
  apply (internal_fields_never_filtered CommonJS ["_id"; "age"]
           [("_id", QStr "5"); ("_id_ne", QStr "6"); ("age", QStr "7")]).
  - vm_compute. reflexivity.
  - reflexivity.
Defined.

(** The TypeScript variant without [filterBy] ignores every filter
    parameter: whatever the query string holds, the compiled predicate is
    empty and nothing is raised. *)
Theorem typescript_without_filterBy_ignores_filters (filters : list (string * qsval)) :
  compile TypeScript [] filters = Compiled ∅.
Proof.
  unfold compile. induction filters as [|[key value] rest IH]; simpl; [done|].
  rewrite filter_step_dropped; [exact IH|]. by destruct (classify key).
Qed.

Lemma coerce_not_NaN v value : atom_not_NaN (coerce v value).
Proof.
  unfold atom_not_NaN, coerce. destruct v.
  - destruct (ToNumber value); simpl; discriminate.
  - destruct (Num.StringToNumber (ToString value)); simpl; discriminate.
Qed.

Lemma compiled_not_NaN v filterBy filters q field c :
  compile v filterBy filters = Compiled q →
  q !! field = Some c →
  clause_not_NaN c.
Proof.
  intros Hc. revert field c.
  eapply (filter_loop_invariant (λ _ c, clause_not_NaN c));
    [|intros k c0; by rewrite lookup_empty|exact Hc].
  intros q0 key value q1 Hq0 Hs k c0 Hk.
  destruct (filter_step_lookup _ _ _ _ _ _ _ _ Hs Hk)
    as [Hold|[(_ & _ & [->|(s & _ & ->)])|(op & _ & b & props & -> & Hp)]].
  - by eapply Hq0.
  - apply coerce_not_NaN.
  - intros p a. unfold regex_node.
    destruct (decide ("$options" = p)) as [<-|Hne].
    + rewrite lookup_insert_eq. by intros [= <-].
    + rewrite lookup_insert_ne by done.
      destruct (decide ("$regex" = p)) as [<-|Hne'].
      * rewrite lookup_singleton_eq. by intros [= <-].
      * by rewrite lookup_singleton_ne.
  - intros p a. destruct (decide (op_prop op = p)) as [<-|Hne].
    + rewrite lookup_insert_eq. intros [= <-]. apply coerce_not_NaN.
    + rewrite lookup_insert_ne by done. destruct Hp as [->|Hold].
      * by rewrite lookup_empty.
      * apply (Hq0 _ _ Hold).
Qed.

Lemma coerce_atom_of_value v value : atom_of_value v value (coerce v value).
Proof.
  unfold atom_of_value, coerce, ToNumber.
  destruct v; cbv zeta; destruct (Num.StringToNumber (ToString value)) eqn:E; simpl;
    try (by right); left; (split; [discriminate|reflexivity]).
Qed.

(** The base of a node is an array or object that the loop stored under
    the same field before. *)
Lemma filter_step_base v filterBy q key value q' k raw props :
  filter_step v filterBy q key value = Compiled q' →
  q' !! k = Some (CNode (Some raw) props) →
  (∃ props', q !! k = Some (CNode (Some raw) props')) ∨ q !! k = Some (CAtom (ARaw raw)).
Proof.
  unfold filter_step.
  destruct (classify key) as [|field op|] eqn:Hc.
  - intros [= <-] Hk. left. by exists props.
  - destruct (isFilterable v filterBy field); simpl; [|intros [= <-] Hk; left; by exists props].
    unfold write_op.
    assert (Hnew : <[field := CNode None {[op_prop op := coerce v value]}]> q !! k
                   = Some (CNode (Some raw) props) →
                   (∃ props', q !! k = Some (CNode (Some raw) props')) ∨
                   q !! k = Some (CAtom (ARaw raw))).
    { intros Hk. destruct (decide (field = k)) as [->|Hne].
      - rewrite lookup_insert_eq in Hk. discriminate Hk.
      - rewrite lookup_insert_ne in Hk by done. left. by exists props. }
    assert (Hraw : ∀ r, q !! field = Some (CAtom (ARaw r)) →
                   <[field := CNode (Some r) {[op_prop op := coerce v value]}]> q !! k
                   = Some (CNode (Some raw) props) →
                   (∃ props', q !! k = Some (CNode (Some raw) props')) ∨
                   q !! k = Some (CAtom (ARaw raw))).
    { intros r Hq Hk. destruct (decide (field = k)) as [->|Hne].
      - rewrite lookup_insert_eq in Hk. injection Hk as -> _. by right.
      - rewrite lookup_insert_ne in Hk by done. left. by exists props. }
    destruct (q !! field) as [c0|] eqn:Hq.
    + destruct (truthy c0) eqn:Ht.
      * destruct c0 as [[n|[s|l|o]]|b props0].
        -- destruct v; [|done]. intros [= <-] Hk. left. by exists props.
        -- destruct v; [|done]. intros [= <-] Hk. left. by exists props.
        -- intros [= <-]. by apply Hraw.
        -- intros [= <-]. by apply Hraw.
        -- intros [= <-] Hk. destruct (decide (field = k)) as [->|Hne].
           ++ rewrite lookup_insert_eq in Hk. injection Hk as -> _.
              left. by exists props0.
           ++ rewrite lookup_insert_ne in Hk by done. left. by exists props.
      * intros [= <-]. apply Hnew.
    + destruct (inherited field); [done|]. intros [= <-]. apply Hnew.
  - intros Hs Hk.
    destruct (filter_step_lookup v filterBy q key value q' k (CNode (Some raw) props))
      as [Hold|[(_ & _ & [Heq|(s & _ & Heq)])|(op & Ho & _)]]; [| |left; by exists props| | |].
    + unfold filter_step. by rewrite Hc.
    + exact Hk.
    + discriminate Heq.
    + discriminate Heq.
    + unfold filter_step in Hs. congruence.
Qed.

Lemma filter_step_kept v filterBy filters q key value q' :
  (key, value) ∈ filters →
  (∀ k c, q !! k = Some c → clause_kept v filters k c) →
  filter_step v filterBy q key value = Compiled q' →
  ∀ k c, q' !! k = Some c → clause_kept v filters k c.
Proof.
  intros Hin Hq Hs k c Hk. destruct c as [a|base props].
  - destruct (filter_step_lookup _ _ _ _ _ _ _ _ Hs Hk)
      as [Hold|[(Hb & -> & [Heq|(s & _ & Heq)])|(op & _ & b & props & Heq & _)]].
    + apply (Hq _ _ Hold).
    + injection Heq as ->. exists value. split_and!; [done..|apply coerce_atom_of_value].
    + discriminate Heq.
    + discriminate Heq.
  - split.
    + intros raw ->.
      destruct (filter_step_base _ _ _ _ _ _ _ _ _ Hs Hk) as [(props' & Hold)|Hold].
      * by apply (proj1 (Hq _ _ Hold)).
      * apply (Hq _ _ Hold).
    + intros p a Hp.
      destruct (filter_step_lookup _ _ _ _ _ _ _ _ Hs Hk)
        as [Hold|[(Hb & -> & [Heq|(s & -> & Heq)])|(op & Ho & b & props0 & Heq & Hprev)]].
      * by apply (proj2 (Hq _ _ Hold)).
      * discriminate Heq.
      * injection Heq as -> ->. right. exists s. split_and!; [done..|].
        destruct (decide ("$options" = p)) as [<-|Hne].
        { rewrite lookup_insert_eq in Hp. injection Hp as <-. by right. }
        rewrite lookup_insert_ne in Hp by done.
        destruct (decide ("$regex" = p)) as [<-|Hne'].
        { rewrite lookup_singleton_eq in Hp. injection Hp as <-. by left. }
        by rewrite lookup_singleton_ne in Hp.
      * injection Heq as -> ->.
        destruct (decide (op_prop op = p)) as [<-|Hne].
        { rewrite lookup_insert_eq in Hp. injection Hp as <-.
          left. exists key, op, value. split_and!; [done..|apply coerce_atom_of_value]. }
        rewrite lookup_insert_ne in Hp by done.
        destruct Hprev as [->|Hold]; [by rewrite lookup_empty in Hp|].
        by apply (proj2 (Hq _ _ Hold)).
Qed.

Lemma filter_loop_kept v filterBy filters rest q q' :
  (∀ kv, kv ∈ rest → kv ∈ filters) →
  (∀ k c, q !! k = Some c → clause_kept v filters k c) →
  filter_loop v filterBy q rest = Compiled q' →
  ∀ k c, q' !! k = Some c → clause_kept v filters k c.
Proof.
  revert q. induction rest as [|[key value] rest IH]; intros q Hsub Hq; simpl.
  - by intros [= <-].
  - destruct (filter_step v filterBy q key value) as [q1| |] eqn:Hs; [|done..].
    apply IH.
    + intros kv Hkv. by apply Hsub, list_elem_of_further.
    + eapply filter_step_kept; [|exact Hq|exact Hs]. apply Hsub, list_elem_of_here.
Qed.

(** A value that does not read as a number is kept as it came: no clause
    of a compiled predicate, equality or operator, ever holds NaN, and
    every value in it stands for the value of a parameter of the request
    on that field: the number [Number] reads in it or, when that is NaN,
    the value itself (its string in the TypeScript variant). *)
Theorem compiled_predicate_has_no_NaN (v : variant) (filterBy : list string)
    (filters : list (string * qsval)) (q : gmap string clause) (field : string) (c : clause) :
  compile v filterBy filters = Compiled q →
  q !! field = Some c →
  clause_not_NaN c ∧ clause_kept v filters field c.
Proof.
  intros Hc Hq. split; [by eapply compiled_not_NaN|].
  eapply (filter_loop_kept v filterBy filters filters ∅ q); [done| |exact Hc|exact Hq].
  intros k c0. by rewrite lookup_empty.
Qed.

Example kept_values :
  compile TypeScript ["price"; "tags"]
    [("price_gte", QStr "abc"); ("price_lte", QStr "0x10"); ("tags", QArr [QStr "a"; QStr "b"])]
  = Compiled (<["tags" := CAtom (ARaw (QStr "a,b"))]>
                {["price" := CNode None (<["$lte" := ANum (Num.int 16)]>
                                           {["$gte" := ARaw (QStr "abc")]})]}) ∧
  compile CommonJS ["tags"] [("tags", QArr [QStr "a"; QStr "b"]); ("tags_ne", QStr "x")]
  = Compiled {["tags" := CNode (Some (QArr [QStr "a"; QStr "b"])) {["$ne" := ARaw (QStr "x")]}]}.
Proof. split; vm_compute; reflexivity. Qed.

Lemma compiled_predicate_has_no_NaN_witness :
  clause_not_NaN (CNode None {["$gte" := ARaw (QStr "abc")]}) ∧
  clause_kept TypeScript [("price_gte", QStr "abc")] "price"
    (CNode None {["$gte" := ARaw (QStr "abc")]}).
Proof.
  apply (compiled_predicate_has_no_NaN TypeScript ["price"] [("price_gte", QStr "abc")]
           {["price" := CNode None {["$gte" := ARaw (QStr "abc")]}]} "price").
  - vm_compute. reflexivity.
  - vm_compute. reflexivity.
Defined.

Lemma coerce_string v s : coerce v (QStr s) = coerce TypeScript (QStr s).
Proof. by destruct v. Qed.

Lemma coerce_string_primitive s : is_primitive (coerce TypeScript (QStr s)) = true.
Proof.
  unfold coerce. cbn [ToString]. by destruct (Num.isNaN (Num.StringToNumber s)).
Qed.

Lemma isFilterable_elem v filterBy field :
  field ∈ filterBy → isFilterable v filterBy field = true.
Proof.
  intros Hin. rewrite isFilterable_nonempty.
  - by apply bool_decide_eq_true.
  - intros ->. by apply not_elem_of_nil in Hin.
Qed.

(** A bare key with a plain string: the equality clause. *)
Lemma filter_step_equality v filterBy q key s :
  classify key = Bare → isFilterable v filterBy key = true → key ≠ "__proto__" →
  Str.startsWith s "/" && Str.endsWith s "/" = false →
  filter_step v filterBy q key (QStr s)
  = Compiled (<[key := CAtom (coerce v (QStr s))]> q).
Proof.
  intros Hc Hf Hk Hre. unfold filter_step. rewrite Hc, Hf. simpl negb. cbv iota.
  rewrite Hre. unfold write_eq. by rewrite bool_decide_eq_false_2.
Qed.

(** An operator key on a field that already holds a truthy primitive: the
    write is lost in sloppy mode and raises in strict mode. *)
Lemma filter_step_on_primitive v filterBy q key field op value a :
  classify key = OpKey field op → isFilterable v filterBy field = true →
  q !! field = Some (CAtom a) → is_primitive a = true → truthy (CAtom a) = true →
  filter_step v filterBy q key value
  = match v with CommonJS => Compiled q | TypeScript => TypeError field end.
Proof.
  intros Hc Hf Hq Hp Ht. unfold filter_step. rewrite Hc, Hf. simpl negb. cbv iota.
  unfold write_op. rewrite Hq, Ht.
  by destruct a as [n|[s|l|o]].
Qed.

(** An equality filter followed by an operator filter on the same field
    ([?age=25&age_gte=18]): the CommonJS variant keeps the equality and
    drops the operator without a word; the TypeScript variant, which runs
    in strict mode, raises a TypeError, so the list request ends in the
    error middleware without any call to the store. *)
Theorem operator_after_equality {World} (searchBy filterBy : list string) (field : string)
    (op : operator) (s : string) (value : qsval)
    (env : Env World) (rq : list_query) (w : World) :
  field ∈ filterBy →
  classify field = Bare →
  classify (field +:+ "_" +:+ op_name op) = OpKey field op →
  field ≠ "__proto__" →
  Str.startsWith s "/" && Str.endsWith s "/" = false →
  truthy (CAtom (coerce TypeScript (QStr s))) = true →
  q_filters rq = [(field, QStr s); (field +:+ "_" +:+ op_name op, value)] →
  compile CommonJS filterBy (q_filters rq)
  = Compiled {[field := CAtom (coerce CommonJS (QStr s))]} ∧
  compile TypeScript filterBy (q_filters rq) = TypeError field ∧
  ∃ e, getList TypeScript searchBy filterBy env rq w = (w, [], Next e)
       ∧ err_name e = "TypeError".
Proof.
  intros Hin Hb Ho Hk Hre Ht Hrq.
  assert (Hrun : ∀ v, compile v filterBy (q_filters rq)
                      = match v with
                        | CommonJS => Compiled {[field := CAtom (coerce v (QStr s))]}
                        | TypeScript => TypeError field
                        end).
  { intros v. rewrite Hrq. unfold compile. cbn [filter_loop].
    rewrite filter_step_equality by (try apply isFilterable_elem; done).
    rewrite (filter_step_on_primitive v filterBy _ _ field op value (coerce v (QStr s)));
      [by destruct v|done|by apply isFilterable_elem|apply lookup_insert_eq|..].
    - rewrite coerce_string. apply coerce_string_primitive.
    - by rewrite coerce_string. }
  split_and!; [apply (Hrun CommonJS)|apply (Hrun TypeScript)|].
  unfold getList. rewrite (Hrun TypeScript). by eexists.
Qed.

(** A value that underflows to zero is no truthy equality: the operator
    that follows replaces it, in both variants. *)
Example operator_after_underflow :
  truthy (CAtom (coerce TypeScript (QStr "1e-400"))) = false ∧
  ∀ v, compile v ["age"] [("age", QStr "1e-400"); ("age_gte", QStr "18")]
       = Compiled {["age" := CNode None {["$gte" := ANum (Num.int 18)]}]}.
Proof. split; [|intros []]; vm_compute; reflexivity. Qed.

Lemma operator_after_equality_witness :
  compile CommonJS ["age"] [("age", QStr "25"); ("age_gte", QStr "18")]
  = Compiled {["age" := CAtom (ANum (Num.int 25))]} ∧
  compile TypeScript ["age"] [("age", QStr "25"); ("age_gte", QStr "18")]
  = TypeError "age".
Proof.
  destruct (operator_after_equality [] ["age"] "age" Gte "25" (QStr "18")
              (listing_env [])
              {| q_page := None; q_limit := None; q_sort := None; q_fields := None;
                 q_search := None;
                 q_filters := [("age", QStr "25"); ("age_gte", QStr "18")] |} tt)
    as (H1 & H2 & _).
  - apply list_elem_of_here.
  - reflexivity.
  - reflexivity.
  - discriminate.
  - reflexivity.
  - reflexivity.
  - reflexivity.
  - split; [exact H1|exact H2].
Defined.

Lemma slice_of_slashes p : Str.slice_1_m1 ("/" +:+ p +:+ "/") = p.
Proof.
  unfold Str.slice_1_m1. rewrite !StrFacts.chars_app.
  change (Str.chars "/") with ["/"%char]. cbn [app length drop].
  rewrite length_app, drop_0. cbn [length].
  replace (S (length (Str.chars p) + 1) - 2)%nat with (length (Str.chars p)) by lia.
  rewrite take_app_length. apply StrFacts.str_chars.
Qed.

(** A value written between two slashes is a pattern: whatever stands
    between them, a number included, is given to the store as the
    [$regex] of a case-insensitive match, unchanged and without coercion. *)
Theorem regex_filter_keeps_pattern (v : variant) (filterBy : list string)
    (q : gmap string clause) (key p : string) :
  classify key = Bare → isFilterable v filterBy key = true → key ≠ "__proto__" →
  filter_step v filterBy q key (QStr ("/" +:+ p +:+ "/"))
  = Compiled (<[key := CNode None (<["$options" := ARaw (QStr "i")]>
                                     {["$regex" := ARaw (QStr p)]})]> q).
Proof.
  intros Hc Hf Hk. unfold filter_step. rewrite Hc, Hf. simpl negb. cbv iota.
  assert (Hs : Str.startsWith ("/" +:+ p +:+ "/") "/" = true).
  { apply (startsWith_app "/" (p +:+ "/") "/"). reflexivity. }
  assert (He : Str.endsWith ("/" +:+ p +:+ "/") "/" = true).
  { change ("/" +:+ p +:+ "/") with (("/" +:+ p) +:+ "/"). apply endsWith_app. }
  rewrite Hs, He. cbn [andb]. unfold write_eq, regex_node.
  rewrite bool_decide_eq_false_2 by exact Hk. by rewrite slice_of_slashes.
Qed.

Lemma regex_filter_keeps_pattern_witness :
  filter_step TypeScript ["zip"] ∅ "zip" (QStr "/^90/")
  = Compiled {["zip" := CNode None (<["$options" := ARaw (QStr "i")]>
                                      {["$regex" := ARaw (QStr "^90")]})]}.
Proof.
  apply (regex_filter_keeps_pattern TypeScript ["zip"] ∅ "zip" "^90").
  - reflexivity.
  - reflexivity.
  - discriminate.
Defined.

(** *** Writes that land on the prototype *)

Lemma filter_loop_PrototypeWrite v filterBy filters q field :
  filter_loop v filterBy q filters = PrototypeWrite field →
  ∃ q0 key value, filter_step v filterBy q0 key value = PrototypeWrite field.
Proof.
  revert q. induction filters as [|[key value] rest IH]; intros q; simpl; [done|].
  destruct (filter_step v filterBy q key value) as [q1| |] eqn:Hs; [apply IH|done|].
  intros [= <-]. by exists q, key, value.
Qed.

Lemma isFilterable_allowed v filterBy field :
  v = TypeScript ∨ filterBy ≠ [] →
  isFilterable v filterBy field = true → field ∈ filterBy.
Proof.
  intros Hv. destruct filterBy as [|f l].
  - destruct Hv as [->|?]; done.
  - simpl. by intros ?%bool_decide_eq_true.
Qed.

(** With an allow-list (a non-empty [filterBy], or the TypeScript variant)
    that names no member of [Object.prototype], no query string makes the
    loop write on the prototype: the run stays an ordinary one. *)
Theorem allow_list_protects_prototype (v : variant) (filterBy : list string)
    (filters : list (string * qsval)) (field : string) :
  v = TypeScript ∨ filterBy ≠ [] →
  (∀ name, name ∈ filterBy → inherited name = false) →
  compile v filterBy filters ≠ PrototypeWrite field.
Proof.
  intros Hv Hsafe Hrun.
  apply filter_loop_PrototypeWrite in Hrun as (q & key & value & Hs).
  revert Hs. unfold filter_step.
  pose proof (classify_field_not_internal key) as Hcl.
  destruct (classify key) as [|f op|]; [done| |].
  - destruct (isFilterable v filterBy f) eqn:Hf; simpl; [|done].
    apply (isFilterable_allowed _ _ _ Hv), Hsafe in Hf.
    unfold write_op. rewrite Hf.
    destruct (q !! f) as [c|]; [|done].
    destruct (truthy c); [|done].
    destruct c as [[n|[s|l|o]]|b props]; try done; by destruct v.
  - destruct (isFilterable v filterBy key); simpl; [|done].
    assert (Hk : key ≠ "__proto__") by (intros ->; discriminate Hcl).
    unfold write_eq. rewrite bool_decide_eq_false_2 by exact Hk.
    by repeat case_match.
Qed.

Lemma allow_list_protects_prototype_witness :
  compile CommonJS ["price"] [("constructor_gt", QStr "1"); ("toString", QStr "x")]
  ≠ PrototypeWrite "constructor".
Proof.
  apply (allow_list_protects_prototype CommonJS ["price"]).
  - right. discriminate.
  - intros name Hin. apply list_elem_of_singleton in Hin. rewrite Hin. reflexivity.
Defined.

(** Without [filterBy], the CommonJS variant accepts every field name, the
    members of [Object.prototype] included: a parameter such as
    [constructor_gt] or [toString_ne] finds the inherited member under the
    field and writes the operator on that shared object, and the list
    request leaves the model. *)
Theorem unrestricted_filters_reach_prototype {World} (searchBy : list string)
    (name : string) (op : operator) (value : qsval) (q : gmap string clause)
    (env : Env World) (rq : list_query) (w : World) :
  name ∈ inherited_names → Str.startsWith name "_" = false →
  (q !! name = None →
   filter_step CommonJS [] q (name +:+ "_" +:+ op_name op) value = PrototypeWrite name) ∧
  (q_filters rq = [(name +:+ "_" +:+ op_name op, value)] →
   getList CommonJS searchBy [] env rq w = (w, [], LeavesModel)).
Proof.
  intros Hin Hs.
  assert (Hcl : classify (name +:+ "_" +:+ op_name op) = OpKey name op).
  { unfold inherited_names in Hin.
    repeat (apply elem_of_cons in Hin as [->|Hin]);
      try discriminate Hs; try (destruct op; vm_compute; reflexivity).
    by apply not_elem_of_nil in Hin. }
  assert (Hi : inherited name = true) by (by apply bool_decide_eq_true).
  assert (Hstep : ∀ q0, q0 !! name = None →
            filter_step CommonJS [] q0 (name +:+ "_" +:+ op_name op) value
            = PrototypeWrite name).
  { intros q0 Hq. unfold filter_step. rewrite Hcl. cbn [isFilterable negb].
    unfold write_op. by rewrite Hq, Hi. }
  split; [apply Hstep|].
  intros Hrq. unfold getList, compile. rewrite Hrq. cbn [filter_loop].
  by rewrite Hstep by apply lookup_empty.
Qed.

Lemma unrestricted_filters_reach_prototype_witness :
  filter_step CommonJS [] ∅ "constructor_gt" (QStr "1") = PrototypeWrite "constructor".
Proof.
  apply (unrestricted_filters_reach_prototype [] "constructor" Gt (QStr "1") ∅
           (listing_env [])
           {| q_page := None; q_limit := None; q_sort := None; q_fields := None;
              q_search := None; q_filters := [] |} tt).
  - apply list_elem_of_here.
  - reflexivity.
  - reflexivity.
Defined.

(** ** Further facts about the list handler *)




Example huge_page_run :
  getList TypeScript [] [] (listing_env products) huge_page tt
  = (tt, [EFind ∅ "" (QStr "-createdAt") PInf (Num.int 100) (Ok []); ECount ∅ (Ok 12)],
     Respond 200 (RespList [] (make_pagination 12 PInf (Num.int 100)))).
Proof. vm_compute. reflexivity. Qed.


(** In a successful list response, [hasNext] is true exactly when
    documents remain after the page (page * limit < total), [hasPrev]
    exactly when the page is not the first, and an empty result has zero
    pages and no next page. *)
Theorem hasNext_iff_documents_remain {World} (v : variant) (searchBy filterBy : list string)
    (env : Env World) (rq : list_query) (w w' : World) (t : list event)
    (status : Z) (data : list (gmap string jsval)) (pg : pagination) (p l : Z) :
  getList v searchBy filterBy env rq w = (w', t, Respond status (RespList data pg)) →
  Num.parseInt (page_string (q_page rq)) = Num.int p →
  Num.parseInt (limit_string (q_limit rq)) = Num.int l →
  (hasNext pg = true ↔ Z.max 1 p * Z.min 100 (Z.max 1 l) < total pg) ∧
  (hasPrev pg = true ↔ 1 < Z.max 1 p) ∧
  (total pg = 0 → totalPages pg = Num.int 0 ∧ hasNext pg = false).
Proof.
  intros Hrun Hp Hl.
  apply getList_trace in Hrun
    as [[_ [[=]|[e [=]]]]|(q & sel & r1 & r2 & -> & [[e [=]]|Hok])].
  destruct Hok as (data' & n & -> & -> & [= _ <- ->]).
  unfold make_pagination. cbn [total totalPages hasNext hasPrev].
  destruct (window_values (q_page rq) (q_limit rq) p l Hp Hl) as (-> & -> & _).
  set (P := Z.max 1 p). set (L := Z.min 100 (Z.max 1 l)).
  assert (HL : 0 < L) by (unfold L; lia).
  rewrite Num_ceil_div_int, Qceiling_div_int by lia.
  unfold Num.gt. rewrite !Num_lt_int.
  assert (Hdiv : P < (n + L - 1) / L ↔ P * L < n).
  { split; intros H.
    - assert (H1 : (P + 1) * L ≤ n + L - 1).
      { etrans; [|apply (Z.mul_div_le (n + L - 1) L HL)]. nia. }
      lia.
    - assert (H1 : P + 1 ≤ (n + L - 1) / L) by (apply Z.div_le_lower_bound; lia).
      lia. }
  split_and!.
  - rewrite Z.ltb_lt. exact Hdiv.
  - apply Z.ltb_lt.
  - intros ->. replace ((0 + L - 1) / L) with 0.
    + split; [done|]. apply Z.ltb_ge. unfold P. lia.
    + symmetry. apply Z.div_small. lia.
Qed.

Lemma hasNext_iff_documents_remain_witness :
  (hasNext scenario_pagination = true ↔ Z.max 1 2 * Z.min 100 (Z.max 1 5) < 12) ∧
  (hasPrev scenario_pagination = true ↔ 1 < Z.max 1 2).
Proof.
  destruct (hasNext_iff_documents_remain TypeScript [] [] (listing_env products)
              page2_limit5 tt tt _ 200 _ scenario_pagination 2 5 list_scenario
              eq_refl eq_refl) as (H1 & H2 & _).
  exact (conj H1 H2).
Defined.

Lemma search_clause_spec v searchBy search or :
  search_clause v searchBy search = Ok or →
  match search with
  | None => or = None
  | Some x =>
      ∃ s, as_string v "search.trim" x = Ok s ∧
           or = if bool_decide (Str.trim s = "") || bool_decide (searchBy = [])
                then None
                else Some ((λ field, (field, Str.trim s)) <$> searchBy)
  end.
Proof.
  unfold search_clause. destruct search as [x|]; [|by intros [= <-]].
  destruct (qs_truthy x) eqn:Ht.
  - destruct (as_string v "search.trim" x) as [s|e]; [|done].
    intros Heq. exists s. split; [done|].
    destruct (bool_decide (Str.trim s = "")), (bool_decide (searchBy = []));
      simpl in *; by injection Heq.
  - intros [= <-]. destruct x as [s|l|o]; [|done..].
    simpl in Ht. apply negb_false_iff, bool_decide_eq_true in Ht as ->.
    exists "". split; [by destruct v|]. reflexivity.
Qed.

(** The predicate of a list request is the compiled filters plus the
    search, and [find] and [countDocuments] receive the same predicate.
    Without a search parameter, with one that is blank once trimmed, or
    without [searchBy] fields, it is the compiled filters and nothing
    else.  Otherwise it is the compiled filters with the property [$or]
    set to one alternative per [searchBy] field, in order, each with the
    trimmed search string: every compiled clause is in it, except a
    clause compiled for a field named [$or] itself, which the search
    replaces. *)
Theorem search_adds_to_filters {World} (v : variant) (searchBy filterBy : list string)
    (env : Env World) (rq : list_query) (w w' : World) (t : list event) (out : outcome)
    (query : gmap string top_clause) (select : string) (sort : qsval) (sk lim : jsnum)
    (r : result (list (gmap string jsval))) :
  getList v searchBy filterBy env rq w = (w', t, out) →
  EFind query select sort sk lim r ∈ t →
  ∃ q r2,
    compile v filterBy (q_filters rq) = Compiled q ∧
    t = [EFind query select sort sk lim r; ECount query r2] ∧
    match q_search rq with
    | None => query = Field <$> q
    | Some x =>
        ∃ s, as_string v "search.trim" x = Ok s ∧
             query = if bool_decide (Str.trim s = "") || bool_decide (searchBy = [])
                     then Field <$> q
                     else <["$or" := Or ((λ field, (field, Str.trim s)) <$> searchBy)]>
                            (Field <$> q)
    end.
Proof.
  unfold getList.
  destruct (compile v filterBy (q_filters rq)) as [q| |];
    [|intros [= <- <- <-] Hin; by apply not_elem_of_nil in Hin..].
  destruct (search_clause v searchBy (q_search rq)) as [or|] eqn:Hsearch;
    [|intros [= <- <- <-] Hin; by apply not_elem_of_nil in Hin].
  destruct (selectFields v (q_fields rq)) as [sel|];
    [|intros [= <- <- <-] Hin; by apply not_elem_of_nil in Hin].
  unfold find_and_count.
  destruct (Model_find env _ _ _ _ _ w) as [w1 r1].
  destruct (Model_countDocuments env _ w1) as [w2 r2].
  intros Hrun Hin.
  assert (Ht : t = [EFind (with_search q or) sel (sort_arg v (q_sort rq))
                      (skip (q_page rq) (q_limit rq)) (limitNum (q_limit rq)) r1;
                    ECount (with_search q or) r2]).
  { destruct r1, r2; by injection Hrun as _ <- _. }
  subst t. apply elem_of_cons in Hin as [Hin|Hin];
    [|apply list_elem_of_singleton in Hin; discriminate Hin].
  injection Hin as -> -> -> -> -> ->.
  exists q, r2. split_and!; [done..|].
  apply search_clause_spec in Hsearch.
  destruct (q_search rq) as [x|]; [|by subst or].
  destruct Hsearch as (s & Hs & ->). exists s. split; [exact Hs|].
  by destruct (bool_decide (Str.trim s = "") || bool_decide (searchBy = [])).
Qed.

Example search_run :
  getList TypeScript ["name"; "brand"] ["price"] (listing_env []) searched_query tt
  = (tt,
     [EFind searched_predicate "" (QStr "-createdAt") (Num.int 0) (Num.int 10) (Ok []);
      ECount searched_predicate (Ok 0)],
     Respond 200 (RespList [] (make_pagination 0 (Num.int 1) (Num.int 10)))).
Proof. vm_compute. reflexivity. Qed.

(** A filter on a field named [$or] is lost to the search. *)
Example search_replaces_or_filter :
  compile CommonJS ["$or"] [("$or", QStr "x")] = Compiled {["$or" := CAtom (ARaw (QStr "x"))]} ∧
  ∃ out,
    getList CommonJS ["name"] ["$or"] (listing_env [])
      {| q_page := None; q_limit := None; q_sort := None; q_fields := None;
         q_search := Some (QStr "pro"); q_filters := [("$or", QStr "x")] |} tt
    = (tt,
       [EFind {["$or" := Or [("name", "pro")]]} "" (QStr "-createdAt") (Num.int 0)
          (Num.int 10) (Ok []);
        ECount {["$or" := Or [("name", "pro")]]} (Ok 0)], out).
Proof. split; [|eexists]; vm_compute; reflexivity. Qed.

Lemma search_adds_to_filters_witness :
  ∃ q r2,
    compile TypeScript ["price"] (q_filters searched_query) = Compiled q ∧
    [EFind searched_predicate "" (QStr "-createdAt") (Num.int 0) (Num.int 10) (Ok []);
     ECount searched_predicate (Ok 0)]
    = [EFind searched_predicate "" (QStr "-createdAt") (Num.int 0) (Num.int 10) (Ok []);
       ECount searched_predicate r2] ∧
    match q_search searched_query with
    | None => searched_predicate = Field <$> q
    | Some x =>
        ∃ s, as_string TypeScript "search.trim" x = Ok s ∧
             searched_predicate
             = if bool_decide (Str.trim s = "") || bool_decide (["name"; "brand"] = [])
               then Field <$> q
               else <["$or" := Or ((λ field, (field, Str.trim s)) <$> ["name"; "brand"])]>
                      (Field <$> q)
    end.
Proof.
  eapply (search_adds_to_filters TypeScript ["name"; "brand"] ["price"] (listing_env [])
            searched_query tt tt).
  - exact search_run.
  - apply list_elem_of_here.
Defined.

(** A search or fields parameter given twice reaches the handler as an
    array.  The CommonJS variant calls [trim] (or [split]) on it, which
    raises a TypeError: the request ends in the error middleware and the
    store is not called.  The TypeScript variant converts the value to a
    string first and goes on to query the store. *)
Theorem repeated_search_parameter {World} (searchBy filterBy : list string)
    (env : Env World) (rq : list_query) (w : World) (x : qsval) :
  (∀ s, x ≠ QStr s) →
  (q_search rq = Some x ∨ (q_search rq = None ∧ q_fields rq = Some x)) →
  (∀ q, compile CommonJS filterBy (q_filters rq) = Compiled q →
     ∃ e, getList CommonJS searchBy filterBy env rq w = (w, [], Next e)
          ∧ err_name e = "TypeError") ∧
  (∀ q, compile TypeScript filterBy (q_filters rq) = Compiled q →
     ∃ w' query select sort sk lim r1 r2 out,
       getList TypeScript searchBy filterBy env rq w
       = (w', [EFind query select sort sk lim r1; ECount query r2], out)).
Proof.
  intros Hx Hrq. split; intros q Hq; unfold getList; rewrite Hq.
  - assert (Ht : qs_truthy x = true) by (destruct x; [by destruct (Hx s)|done..]).
    destruct Hrq as [Hs|[Hs Hf]]; rewrite Hs; unfold search_clause.
    + rewrite Ht. destruct x; [by destruct (Hx s)|by eexists..].
    + unfold selectFields. rewrite Hf, Ht.
      destruct x; [by destruct (Hx s)|by eexists..].
  - assert (Hsearch : ∃ or, search_clause TypeScript searchBy (q_search rq) = Ok or).
    { unfold search_clause. destruct (q_search rq) as [y|]; [|by eexists].
      destruct (qs_truthy y); [|by eexists]. simpl.
      destruct (_ && _); by eexists. }
    destruct Hsearch as [or ->].
    assert (Hsel : ∃ sel, selectFields TypeScript (q_fields rq) = Ok sel).
    { unfold selectFields. destruct (q_fields rq) as [y|]; [|by eexists].
      destruct (qs_truthy y); by eexists. }
    destruct Hsel as [sel ->].
    unfold find_and_count.
    destruct (Model_find env _ _ _ _ _ w) as [w1 r1].
    destruct (Model_countDocuments env _ w1) as [w2 r2].
    destruct r1, r2; by eexists _, _, _, _, _, _, _, _, _.
Qed.

Lemma repeated_search_parameter_witness :
  ∃ e, getList CommonJS ["name"] [] (listing_env products)
         {| q_page := None; q_limit := None; q_sort := None; q_fields := None;
            q_search := Some (QArr [QStr "a"; QStr "b"]); q_filters := [] |} tt
       = (tt, [], Next e) ∧ err_name e = "TypeError".
Proof.
  apply (proj1 (repeated_search_parameter ["name"] [] (listing_env products)
                  {| q_page := None; q_limit := None; q_sort := None; q_fields := None;
                     q_search := Some (QArr [QStr "a"; QStr "b"]); q_filters := [] |} tt
                  (QArr [QStr "a"; QStr "b"])
                  ltac:(discriminate) (or_introl eq_refl)) ∅).
  reflexivity.
Defined.

(** ** Further facts about the write handlers *)

Lemma upload_loop_throw {World} P (env : Env World) files rn id tok fileFields urls w w' t e :
  upload_loop P env files rn id tok fileFields urls w = (w', t, Throw e) →
  ∃ t_ok path buf, t = t_ok ++ [EPut path buf tok (Throw e)] ∧ Forall is_put_ok t_ok.
Proof.
  revert urls w t. induction fileFields as [|ff rest IH]; intros urls w t; simpl; [done|].
  destruct (uploaded_for files ff) as [file|]; [|apply IH].
  unfold mbind, M_bind, bind, draw, call.
  destruct (Date_now env w) as [w1 now].
  destruct (blob_put env _ _ _ w1) as [w2 [url|e']].
  - destruct (upload_loop _ _ _ _ _ _ rest _ w2) as [[w3 t3] r3] eqn:Hrest.
    intros [= <- <- ->]. apply IH in Hrest as (t_ok & path & buf & -> & Hok).
    eexists (_ :: t_ok), path, buf. split; [reflexivity|].
    constructor; [by eexists _, _, _, _|exact Hok].
  - intros [= <- <- <-]. by eexists [], _, _.
Qed.

Lemma after_update_run {World} (env : Env World) rn id tok urls olds doc w :
  ∃ w' t_del,
    after_update env rn id tok urls olds doc w
    = (w', t_del, Ok (match doc with
                      | None => not_found_response rn id
                      | Some d => Respond 200 (RespData d)
                      end)) ∧
    Forall is_del t_del ∧
    del_urls t_del = match doc with None => urls.*2 | Some _ => olds end.
Proof.
  unfold after_update, mbind, M_bind, bind, ret, mret, M_ret.
  destruct doc as [d|].
  - destruct olds as [|u olds].
    + exists w, []. by split_and!.
    + destruct (deleteBlobs_trace env (u :: olds) tok w) as (w2 & t & -> & Hdel & Hurls).
      exists w2, (t ++ []). rewrite app_nil_r. by split_and!.
  - destruct urls as [|u urls].
    + exists w, []. by split_and!.
    + destruct (deleteBlobs_trace env ((u :: urls).*2) tok w) as (w2 & t & -> & Hdel & Hurls).
      exists w2, (t ++ []). rewrite app_nil_r. by split_and!.
Qed.

(** The calls of a trace that are neither an update nor a deletion of a
    blob. *)
Lemma before_update_reads t_up oldr id :
  Forall is_put t_up →
  (∀ id' u r, EUpdate id' u r ∉ EFindById id oldr :: t_up) ∧
  del_urls (EFindById id oldr :: t_up) = [] ∧
  put_urls (EFindById id oldr :: t_up) = put_urls t_up.
Proof.
  intros Hput. split_and!.
  - intros id' u r [Hin|Hin]%elem_of_cons; [discriminate Hin|].
    rewrite Forall_forall in Hput. destruct (Hput _ Hin) as (? & ? & ? & ? & [=]).
  - simpl. induction Hput as [|ev l (? & ? & ? & ? & ->) _ IH]; [done|exact IH].
  - reflexivity.
Qed.

(** How a replace or a partial update runs: it ends before the update is
    called (and then deletes no blob), or its trace is the reads and
    uploads, the update, and the deletions that the result of the update
    calls for. *)
Lemma update_run {World} P (env : Env World) rn id tok files fileFields body
    (mode : gmap string jsval → update) (olds : option (gmap string jsval) → list string)
    (empty with_files : bool) (errors : list string) w w' t out :
  NoDup (fieldName <$> fileFields) →
  "__proto__" ∉ fieldName <$> fileFields →
  handle
    (if empty then ret empty_body_response
     else if with_files then
       match errors with
       | [] =>
           oldDoc ← call (Model_findById env id) (EFindById id);
           uploadedUrls ← uploadFiles P env files fileFields rn id tok;
           doc ← call (Model_findByIdAndUpdate env id (mode (assign_urls body uploadedUrls)))
                      (EUpdate id (mode (assign_urls body uploadedUrls)));
           after_update env rn id tok uploadedUrls (olds oldDoc) doc
       | err :: rest => ret (file_errors_response (err :: rest))
       end
     else
       doc ← call (Model_findByIdAndUpdate env id (mode body)) (EUpdate id (mode body));
       after_update env rn id tok [] [] doc)
    (update_error TypeScript id) w = (w', t, out) →
  ((∀ id' u r, EUpdate id' u r ∉ t) ∧ del_urls t = []) ∨
  ∃ pre u r_up t_del,
    t = pre ++ [EUpdate id u r_up] ++ t_del ∧
    (∀ id' u' r, EUpdate id' u' r ∉ pre) ∧ del_urls pre = [] ∧ Forall is_del t_del ∧
    match r_up with
    | Throw e => t_del = [] ∧ out = update_error TypeScript id e
    | Ok None =>
        del_urls t_del ≡ₚ put_urls pre ∧
        (Forall (λ ff, array_index (fieldName ff) = None) fileFields →
         del_urls t_del = put_urls pre) ∧
        out = not_found_response rn id
    | Ok (Some d) =>
        out = Respond 200 (RespData d) ∧
        if with_files
        then ∃ oldDoc t_up, pre = EFindById id (Ok oldDoc) :: t_up ∧
                            Forall is_put_ok t_up ∧ del_urls t_del = olds oldDoc
        else pre = [] ∧ t_del = []
    end.
Proof.
  intros Hnd Hproto. unfold handle.
  destruct empty.
  { intros [= <- <- <-]. left. split; [|done]. intros ??? Hin. by apply not_elem_of_nil in Hin. }
  destruct with_files.
  - destruct errors as [|err errors].
    + unfold mbind, M_bind, bind at 1, call at 1.
      destruct (Model_findById env id w) as [w1 [oldDoc|e]].
      2:{ intros [= <- <- <-]. left. split; [|done].
          intros ??? Hin. apply list_elem_of_singleton in Hin. discriminate Hin. }
      unfold bind at 1.
      destruct (uploadFiles P env files fileFields rn id tok w1)
        as [[w2 t_up] [urls|e]] eqn:Hup.
      2:{ intros [= <- <- <-]. left. apply upload_loop_trace in Hup.
          destruct (before_update_reads t_up (Ok oldDoc) id Hup) as (H1 & H2 & _).
          by split. }
      assert (Hput := Hup). apply upload_loop_trace in Hput.
      apply upload_loop_ok in Hup as (Hok & Hurls & Hlist);
        [|done|done|by intros k ?%not_elem_of_nil].
      simpl in Hurls, Hlist.
      destruct (before_update_reads t_up (Ok oldDoc) id Hput) as (H1 & H2 & H3).
      unfold bind, call.
      destruct (Model_findByIdAndUpdate env id _ w2) as [w3 [doc|e]].
      * destruct (after_update_run env rn id tok urls (olds oldDoc) doc w3)
          as (w4 & t_del & -> & Hdel & Hdu).
        intros [= <- <- <-]. right.
        exists (EFindById id (Ok oldDoc) :: t_up), (mode (assign_urls body urls)),
               (Ok doc), t_del.
        split_and!; [done..|].
        destruct doc as [d|].
        -- split; [done|]. by exists oldDoc, t_up.
        -- rewrite H3, Hdu. split_and!; [exact Hurls|exact Hlist|done].
      * intros [= <- <- <-]. right.
        exists (EFindById id (Ok oldDoc) :: t_up), (mode (assign_urls body urls)),
               (Throw e), [].
        split_and!; done.
    + intros [= <- <- <-]. left. split; [|done].
      intros ??? Hin. by apply not_elem_of_nil in Hin.
  - unfold mbind, M_bind, bind, call.
    destruct (Model_findByIdAndUpdate env id _ w) as [w3 [doc|e]].
    + destruct (after_update_run env rn id tok [] [] doc w3)
        as (w4 & t_del & -> & Hdel & Hdu).
      intros [= <- <- <-]. right. exists [], (mode body), (Ok doc), t_del.
      split_and!; [done| |done|done|].
      { intros ??? Hin. by apply not_elem_of_nil in Hin. }
      destruct doc as [d|]; [|by rewrite Hdu].
      split; [done|]. split; [done|].
      destruct Hdel as [|ev l (? & ? & ? & ->) _]; [done|discriminate Hdu].
    + intros [= <- <- <-]. right. exists [], (mode body), (Throw e), [].
      split_and!; [done| |done..].
      intros ??? Hin. by apply not_elem_of_nil in Hin.
Qed.

Lemma putHandler_run {World} P (env : Env World) rn fileFields blobToken req w w' t out :
  NoDup (fieldName <$> fileFields) →
  "__proto__" ∉ fieldName <$> fileFields →
  putHandler P env rn fileFields blobToken req w = (w', t, out) →
  ((∀ id' u r, EUpdate id' u r ∉ t) ∧ del_urls t = []) ∨
  ∃ pre u r_up t_del,
    t = pre ++ [EUpdate (req_id req) u r_up] ++ t_del ∧
    (∀ id' u' r, EUpdate id' u' r ∉ pre) ∧ del_urls pre = [] ∧ Forall is_del t_del ∧
    match r_up with
    | Throw e => t_del = [] ∧ out = update_error TypeScript (req_id req) e
    | Ok None =>
        del_urls t_del ≡ₚ put_urls pre ∧
        (Forall (λ ff, array_index (fieldName ff) = None) fileFields →
         del_urls t_del = put_urls pre) ∧
        out = not_found_response rn (req_id req)
    | Ok (Some d) =>
        out = Respond 200 (RespData d) ∧
        if hasFiles fileFields blobToken
        then ∃ oldDoc t_up, pre = EFindById (req_id req) (Ok oldDoc) :: t_up ∧
                            Forall is_put_ok t_up ∧
                            del_urls t_del = match oldDoc with
                                             | Some d => extractBlobUrls d fileFields
                                             | None => []
                                             end
        else pre = [] ∧ t_del = []
    end.
Proof.
  intros Hnd Hproto.
  apply (update_run P env rn (req_id req) (default "" blobToken) (req_files req) fileFields
           (spread (req_body req)) Overwrite
           (λ oldDoc, match oldDoc with
                      | Some d => extractBlobUrls d fileFields
                      | None => []
                      end)
           (negb (hasBody (spread (req_body req))) && negb (hasUploadedFiles (req_files req)))
           (hasFiles fileFields blobToken)
           (validateFiles P (req_files req) fileFields false) w w' t out Hnd Hproto).
Qed.

Lemma patchHandler_run {World} P (env : Env World) rn fileFields blobToken req w w' t out :
  NoDup (fieldName <$> fileFields) →
  "__proto__" ∉ fieldName <$> fileFields →
  patchHandler P env rn fileFields blobToken req w = (w', t, out) →
  ((∀ id' u r, EUpdate id' u r ∉ t) ∧ del_urls t = []) ∨
  ∃ pre u r_up t_del,
    t = pre ++ [EUpdate (req_id req) u r_up] ++ t_del ∧
    (∀ id' u' r, EUpdate id' u' r ∉ pre) ∧ del_urls pre = [] ∧ Forall is_del t_del ∧
    match r_up with
    | Throw e => t_del = [] ∧ out = update_error TypeScript (req_id req) e
    | Ok None =>
        del_urls t_del ≡ₚ put_urls pre ∧
        (Forall (λ ff, array_index (fieldName ff) = None) fileFields →
         del_urls t_del = put_urls pre) ∧
        out = not_found_response rn (req_id req)
    | Ok (Some d) =>
        out = Respond 200 (RespData d) ∧
        if hasFiles fileFields blobToken && hasUploadedFiles (req_files req)
        then ∃ oldDoc t_up, pre = EFindById (req_id req) (Ok oldDoc) :: t_up ∧
                            Forall is_put_ok t_up ∧
                            del_urls t_del = match oldDoc with
                                             | Some d => replaced_urls (req_files req) d fileFields
                                             | None => []
                                             end
        else pre = [] ∧ t_del = []
    end.
Proof.
  intros Hnd Hproto.
  apply (update_run P env rn (req_id req) (default "" blobToken) (req_files req) fileFields
           (spread (req_body req)) SetFields
           (λ oldDoc, match oldDoc with
                      | Some d => replaced_urls (req_files req) d fileFields
                      | None => []
                      end)
           (negb (hasBody (spread (req_body req))) && negb (hasUploadedFiles (req_files req)))
           (hasFiles fileFields blobToken && hasUploadedFiles (req_files req))
           (validateFiles P (req_files req) fileFields false) w w' t out Hnd Hproto).
Qed.

(** Where an update sits in a trace of that shape. *)
Lemma update_in_run pre id u r t_del id' u' r' :
  (∀ i x y, EUpdate i x y ∉ pre) → Forall is_del t_del →
  EUpdate id' u' r' ∈ pre ++ [EUpdate id u r] ++ t_del →
  id' = id ∧ u' = u ∧ r' = r.
Proof.
  intros Hpre Hdel [Hin|Hin]%elem_of_app; [by destruct (Hpre _ _ _ Hin)|].
  apply elem_of_cons in Hin as [Hin|Hin]; [by injection Hin|].
  rewrite Forall_forall in Hdel. destruct (Hdel _ Hin) as (? & ? & ? & [=]).
Qed.

Lemma del_urls_app t1 t2 : del_urls (t1 ++ t2) = del_urls t1 ++ del_urls t2.
Proof. unfold del_urls. apply omap_app. Qed.

Lemma validate_update_needs_file P files fileFields :
  validateFiles P files fileFields false ≠ [] → hasUploadedFiles files = true.
Proof.
  unfold validateFiles. rewrite validate_loop_flat_map. simpl.
  intros Hne. destruct (hasUploadedFiles files) eqn:Hup; [done|].
  exfalso. apply Hne. clear Hne.
  induction fileFields as [|ff rest IH]; [done|]. simpl. rewrite IH, app_nil_r.
  unfold field_violations, uploaded_for.
  destruct files as [m|]; [|by rewrite andb_false_r].
  simpl in Hup. apply negb_false_iff, bool_decide_eq_true in Hup.
  apply dom_empty_inv_L in Hup as ->. rewrite lookup_empty. by rewrite andb_false_r.
Qed.

(** A write whose files fail the validation is answered with 400 and the
    list of violations, and does nothing else: no read or write of the
    store and no upload, in the create, the replace and the partial-update
    handler alike. *)
Theorem file_validation_failure_writes_nothing {World} (P : Platform) (env : Env World)
    (resourceName : string) (fileFields : list FileFieldConfig) (blobToken : option string)
    (req : request) (w : World) :
  hasFiles fileFields blobToken = true →
  negb (hasBody (spread (req_body req))) && negb (hasUploadedFiles (req_files req)) = false →
  (validateFiles P (req_files req) fileFields true ≠ [] →
   postHandler P env resourceName fileFields blobToken req w
   = (w, [], file_errors_response (validateFiles P (req_files req) fileFields true))) ∧
  (validateFiles P (req_files req) fileFields false ≠ [] →
   putHandler P env resourceName fileFields blobToken req w
   = (w, [], file_errors_response (validateFiles P (req_files req) fileFields false)) ∧
   patchHandler P env resourceName fileFields blobToken req w
   = (w, [], file_errors_response (validateFiles P (req_files req) fileFields false))).
Proof.
  intros Hf He. split_and!.
  - intros Hv. unfold postHandler, handle. rewrite He, Hf.
    by destruct (validateFiles P (req_files req) fileFields true).
  - intros Hv. split.
    + unfold putHandler, handle. rewrite He, Hf.
      by destruct (validateFiles P (req_files req) fileFields false).
    + unfold patchHandler, handle.
      rewrite He, Hf, (validate_update_needs_file _ _ _ Hv). cbn [andb].
      by destruct (validateFiles P (req_files req) fileFields false).
Qed.

Lemma file_validation_failure_writes_nothing_witness :
  postHandler plain_platform rollback_env "students" [idCard; photo] (Some "token")
    {| req_id := ""; req_body := None; req_files := photo_only |} 7%nat
  = (7%nat, [],
     file_errors_response
       (validateFiles plain_platform photo_only [idCard; photo] true)).
Proof.
  apply (proj1 (file_validation_failure_writes_nothing plain_platform rollback_env
                  "students" [idCard; photo] (Some "token")
                  {| req_id := ""; req_body := None; req_files := photo_only |} 7%nat
                  eq_refl ltac:(vm_compute; reflexivity))).
  vm_compute. discriminate.
Defined.

(** When an upload of a create request fails, the document is not created,
    the error goes through the error mapping of the handler, and the blobs
    that earlier uploads of the same request stored are left where they
    are: the trace is successful uploads followed by the failed one, with
    no creation and no deletion. *)
Theorem failed_upload_leaves_earlier_blobs {World} (P : Platform) (env : Env World)
    (resourceName : string) (fileFields : list FileFieldConfig) (blobToken : option string)
    (req : request) (w w' : World) (t : list event) (out : outcome)
    (path buf tok : string) (e : error) :
  postHandler P env resourceName fileFields blobToken req w = (w', t, out) →
  EPut path buf tok (Throw e) ∈ t →
  (∃ t_ok, t = t_ok ++ [EPut path buf tok (Throw e)] ∧ Forall is_put_ok t_ok) ∧
  (∀ body r, ECreate body r ∉ t) ∧
  del_urls t = [] ∧
  out = create_error TypeScript e.
Proof.
  unfold postHandler, handle.
  destruct (negb (hasBody _) && negb (hasUploadedFiles _)).
  { intros [= <- <- <-] Hin. by apply not_elem_of_nil in Hin. }
  assert (Hno : ∀ b urls tk w0 w1 t1 r1,
            create_with_rollback env b urls tk w0 = (w1, t1, r1) →
            EPut path buf tok (Throw e) ∉ t1).
  { intros b urls tk w0 w1 t1 r1 Hrun.
    destruct (create_with_rollback_run env b urls tk w0)
      as [(w2 & doc & Heq)|(w2 & e' & t_del & Heq & Hdel & _)];
      rewrite Heq in Hrun; injection Hrun as <- <- <-.
    - intros Hin. apply list_elem_of_singleton in Hin. discriminate Hin.
    - intros [Hin|Hin]%elem_of_cons; [discriminate Hin|].
      rewrite Forall_forall in Hdel. destruct (Hdel _ Hin) as (? & ? & ? & [=]). }
  destruct (hasFiles fileFields blobToken).
  - destruct (validateFiles P _ fileFields true).
    + unfold mbind, M_bind, bind at 1, draw.
      destruct (new_ObjectId env w) as [w1 docId].
      unfold bind.
      destruct (uploadFiles P env _ fileFields resourceName docId _ w1)
        as [[w2 t_up] [urls|e_up]] eqn:Hup.
      * apply upload_loop_trace in Hup as Hput.
        destruct (create_with_rollback env _ urls _ w2) as [[w3 t3] r3] eqn:Hrun.
        intros Heq Hin. exfalso.
        assert (Ht : t = t_up ++ t3).
        { destruct r3; simpl in Heq; by injection Heq as _ <- _. }
        subst t. apply elem_of_app in Hin as [Hin|Hin].
        -- clear Hrun Heq. revert Hup Hin. unfold uploadFiles.
           generalize (@nil (string * string)) as acc. revert w1 t_up Hput.
           induction fileFields as [|ff rest IH]; intros w1 t_up Hput acc; simpl.
           ++ intros [= <- <- <-] Hin. by apply not_elem_of_nil in Hin.
           ++ destruct (uploaded_for (req_files req) ff) as [file|]; [|by apply IH].
              unfold mbind, M_bind, bind, draw, call.
              destruct (Date_now env w1) as [w4 now].
              destruct (blob_put env _ _ _ w4) as [w5 [url|e']]; [|done].
              destruct (upload_loop _ _ _ _ _ _ rest _ w5) as [[w6 t6] r6] eqn:Hrest.
              intros [= <- <- ->] [Hin|Hin]%elem_of_cons; [discriminate Hin|].
              apply upload_loop_trace in Hrest as Hput6.
              by eapply IH.
        -- by eapply Hno.
      * intros [= <- <- <-] Hin. simpl in *.
        apply upload_loop_throw in Hup as (t_ok & p & b & -> & Hok).
        apply elem_of_app in Hin as [Hin|Hin].
        { rewrite Forall_forall in Hok. destruct (Hok _ Hin) as (? & ? & ? & ? & [=]). }
        apply list_elem_of_singleton in Hin. injection Hin as -> -> -> ->.
        split_and!; [by exists t_ok| | |done].
        -- intros body r. apply create_not_put.
           apply Forall_app. split; [by apply is_put_ok_is_put|].
           constructor; [by eexists _, _, _, _|constructor].
        -- rewrite del_urls_app. simpl. rewrite app_nil_r.
           clear -Hok. induction Hok as [|ev l (? & ? & ? & ? & ->) _ IH]; [done|exact IH].
    + intros [= <- <- <-] Hin. by apply not_elem_of_nil in Hin.
  - destruct (create_with_rollback env _ [] _ w) as [[w3 t3] r3] eqn:Hrun.
    intros Heq Hin. exfalso.
    assert (Ht : t = t3).
    { destruct r3; simpl in Heq; by injection Heq as _ <- _. }
    subst t. by eapply Hno.
Qed.

Lemma failed_upload_leaves_earlier_blobs_witness :
  (∃ t_ok, [EPut "students/000000000000000000000000/idCard-0.PDF" "%PDF" "token"
              (Throw unavailable)]
           = t_ok ++ [EPut "students/000000000000000000000000/idCard-0.PDF" "%PDF" "token"
                        (Throw unavailable)]
           ∧ Forall is_put_ok t_ok) ∧
  Next unavailable = create_error TypeScript unavailable.
Proof.
  destruct (failed_upload_leaves_earlier_blobs plain_platform (listing_env [])
              "students" [idCard] (Some "token") create_request tt tt
              [EPut "students/000000000000000000000000/idCard-0.PDF" "%PDF" "token"
                 (Throw unavailable)]
              (Next unavailable)
              "students/000000000000000000000000/idCard-0.PDF" "%PDF" "token" unavailable)
    as (H1 & _ & _ & H4).
  - vm_compute. reflexivity.
  - apply list_elem_of_here.
  - exact (conj H1 H4).
Defined.

(** When the document of a replace or a partial update does not exist, the
    blobs that the request has just uploaded are deleted again, one [del]
    per uploaded URL and nothing else after the update, and the answer is
    404.  The deletions go through the values of the object of uploaded
    URLs in its property order: they are the uploaded URLs up to their
    order, and in the order of the uploads when no file field has the name
    of an array index. *)
Theorem update_not_found_rolls_back {World} (P : Platform) (env : Env World)
    (resourceName : string) (fileFields : list FileFieldConfig) (blobToken : option string)
    (req : request) (w w' : World) (t : list event) (out : outcome)
    (id : string) (u : update) :
  NoDup (fieldName <$> fileFields) →
  "__proto__" ∉ fieldName <$> fileFields →
  putHandler P env resourceName fileFields blobToken req w = (w', t, out) ∨
  patchHandler P env resourceName fileFields blobToken req w = (w', t, out) →
  EUpdate id u (Ok None) ∈ t →
  ∃ pre t_del,
    t = pre ++ [EUpdate id u (Ok None)] ++ t_del ∧
    del_urls pre = [] ∧ Forall is_del t_del ∧
    del_urls t_del ≡ₚ put_urls pre ∧
    (Forall (λ ff, array_index (fieldName ff) = None) fileFields →
     del_urls t_del = put_urls pre) ∧
    id = req_id req ∧ out = not_found_response resourceName id.
Proof.
  intros Hnd Hproto Hrun Hin.
  assert (Hshape : ((∀ id' u r, EUpdate id' u r ∉ t) ∧ del_urls t = []) ∨
            ∃ pre u r_up t_del,
              t = pre ++ [EUpdate (req_id req) u r_up] ++ t_del ∧
              (∀ id' u' r, EUpdate id' u' r ∉ pre) ∧ del_urls pre = [] ∧ Forall is_del t_del ∧
              match r_up with
              | Ok None =>
                  del_urls t_del ≡ₚ put_urls pre ∧
                  (Forall (λ ff, array_index (fieldName ff) = None) fileFields →
                   del_urls t_del = put_urls pre) ∧
                  out = not_found_response resourceName (req_id req)
              | _ => True
              end).
  { destruct Hrun as [Hrun|Hrun];
      [apply putHandler_run in Hrun as [?|(pre & u0 & r_up & t_del & H)]
      |apply patchHandler_run in Hrun as [?|(pre & u0 & r_up & t_del & H)]];
      try done; try (by left);
      right; exists pre, u0, r_up, t_del;
      destruct H as (H1 & H2 & H3 & H4 & H5); split_and!; try done;
      by destruct r_up as [[d|]|e]. }
  destruct Hshape as [[Hno _]|(pre & u0 & r_up & t_del & -> & Hpre & Hdp & Hdel & Hres)].
  { by destruct (Hno _ _ _ Hin). }
  apply update_in_run in Hin as (-> & -> & <-); [|done..].
  destruct Hres as (Hd & Hl & ->). by exists pre, t_del.
Qed.

Example update_not_found_run :
  putHandler plain_platform (update_env None (Ok None)) "students" [idCard] (Some "token")
    update_request 0%nat
  = (1%nat,
     [EFindById "65f0c0ffee0000000000abcd" (Ok None);
      EPut "students/65f0c0ffee0000000000abcd/idCard-1700000000000.PDF" "%PDF" "token"
        (Ok stored_url);
      EUpdate "65f0c0ffee0000000000abcd" (Overwrite updated_body) (Ok None);
      EDel stored_url "token" (Throw unavailable)],
     not_found_response "students" "65f0c0ffee0000000000abcd").
Proof. vm_compute. reflexivity. Qed.

(** With the file fields [b] and [1], in this order, the upload of [b]
    comes first and its deletion last. *)
Example update_not_found_index_order :
  ∃ u, putHandler plain_platform (update_env None (Ok None)) "students" [field_b; field_1]
         (Some "token") indexed_request 0%nat
  = (2%nat,
     [EFindById "65f0c0ffee0000000000abcd" (Ok None);
      EPut "students/65f0c0ffee0000000000abcd/b-1700000000000.PDF" "%PDF" "token"
        (Ok stored_b);
      EPut "students/65f0c0ffee0000000000abcd/1-1700000000000.PDF" "%PDF" "token"
        (Ok stored_1);
      EUpdate "65f0c0ffee0000000000abcd" u (Ok None);
      EDel stored_1 "token" (Throw unavailable);
      EDel stored_b "token" (Throw unavailable)],
     not_found_response "students" "65f0c0ffee0000000000abcd").
Proof. eexists. vm_compute. reflexivity. Qed.

Lemma update_not_found_rolls_back_witness :
  ∃ pre t_del,
    [EFindById "65f0c0ffee0000000000abcd" (Ok None);
     EPut "students/65f0c0ffee0000000000abcd/idCard-1700000000000.PDF" "%PDF" "token"
       (Ok stored_url);
     EUpdate "65f0c0ffee0000000000abcd" (Overwrite updated_body) (Ok None);
     EDel stored_url "token" (Throw unavailable)]
    = pre ++ [EUpdate "65f0c0ffee0000000000abcd" (Overwrite updated_body) (Ok None)] ++ t_del ∧
    del_urls pre = [] ∧ Forall is_del t_del ∧
    del_urls t_del ≡ₚ put_urls pre ∧
    (Forall (λ ff, array_index (fieldName ff) = None) [idCard] →
     del_urls t_del = put_urls pre) ∧
    "65f0c0ffee0000000000abcd" = req_id update_request ∧
    not_found_response "students" "65f0c0ffee0000000000abcd"
    = not_found_response "students" "65f0c0ffee0000000000abcd".
Proof.
  apply (update_not_found_rolls_back plain_platform (update_env None (Ok None)) "students"
           [idCard] (Some "token") update_request 0%nat 1%nat).
  - apply NoDup_singleton.
  - apply (proj1 (bool_decide_eq_false _)). reflexivity.
  - left. exact update_not_found_run.
  - apply list_elem_of_further, list_elem_of_further, list_elem_of_here.
Defined.

(** When the update of a replace or a partial update throws (a validation
    error, a malformed identifier), the handler deletes no blob: what the
    request has uploaded stays in the blob store, unlike in the create
    handler; the error goes through the error mapping of the handler. *)
Theorem update_failure_leaves_uploads {World} (P : Platform) (env : Env World)
    (resourceName : string) (fileFields : list FileFieldConfig) (blobToken : option string)
    (req : request) (w w' : World) (t : list event) (out : outcome)
    (id : string) (u : update) (e : error) :
  NoDup (fieldName <$> fileFields) →
  "__proto__" ∉ fieldName <$> fileFields →
  putHandler P env resourceName fileFields blobToken req w = (w', t, out) ∨
  patchHandler P env resourceName fileFields blobToken req w = (w', t, out) →
  EUpdate id u (Throw e) ∈ t →
  del_urls t = [] ∧
  last t = Some (EUpdate id u (Throw e)) ∧
  out = update_error TypeScript (req_id req) e.
Proof.
  intros Hnd Hproto Hrun Hin.
  assert (Hshape : ((∀ id' u r, EUpdate id' u r ∉ t) ∧ del_urls t = []) ∨
            ∃ pre u r_up t_del,
              t = pre ++ [EUpdate (req_id req) u r_up] ++ t_del ∧
              (∀ id' u' r, EUpdate id' u' r ∉ pre) ∧ del_urls pre = [] ∧ Forall is_del t_del ∧
              match r_up with
              | Throw e => t_del = [] ∧ out = update_error TypeScript (req_id req) e
              | _ => True
              end).
  { destruct Hrun as [Hrun|Hrun];
      [apply putHandler_run in Hrun as [?|(pre & u0 & r_up & t_del & H)]
      |apply patchHandler_run in Hrun as [?|(pre & u0 & r_up & t_del & H)]];
      try done; try (by left);
      right; exists pre, u0, r_up, t_del;
      destruct H as (H1 & H2 & H3 & H4 & H5); split_and!; try done;
      by destruct r_up as [[d|]|e0]. }
  destruct Hshape as [[Hno _]|(pre & u0 & r_up & t_del & -> & Hpre & Hdp & Hdel & Hres)].
  { by destruct (Hno _ _ _ Hin). }
  apply update_in_run in Hin as (-> & -> & <-); [|done..].
  destruct Hres as [-> ->]. split_and!; [|apply last_snoc|done].
  rewrite del_urls_app, Hdp. reflexivity.
Qed.

Example update_failure_run :
  patchHandler plain_platform (update_env (Some old_student) (Throw cast_error)) "students"
    [idCard] (Some "token") update_request 0%nat
  = (1%nat,
     [EFindById "65f0c0ffee0000000000abcd" (Ok (Some old_student));
      EPut "students/65f0c0ffee0000000000abcd/idCard-1700000000000.PDF" "%PDF" "token"
        (Ok stored_url);
      EUpdate "65f0c0ffee0000000000abcd" (SetFields updated_body) (Throw cast_error)],
     invalid_id_response "65f0c0ffee0000000000abcd").
Proof. vm_compute. reflexivity. Qed.

Lemma update_failure_leaves_uploads_witness :
  del_urls
    [EFindById "65f0c0ffee0000000000abcd" (Ok (Some old_student));
     EPut "students/65f0c0ffee0000000000abcd/idCard-1700000000000.PDF" "%PDF" "token"
       (Ok stored_url);
     EUpdate "65f0c0ffee0000000000abcd" (SetFields updated_body) (Throw cast_error)] = [] ∧
  invalid_id_response "65f0c0ffee0000000000abcd"
  = update_error TypeScript (req_id update_request) cast_error.
Proof.
  destruct (update_failure_leaves_uploads plain_platform
              (update_env (Some old_student) (Throw cast_error)) "students"
              [idCard] (Some "token") update_request 0%nat 1%nat
              [EFindById "65f0c0ffee0000000000abcd" (Ok (Some old_student));
               EPut "students/65f0c0ffee0000000000abcd/idCard-1700000000000.PDF" "%PDF"
                 "token" (Ok stored_url);
               EUpdate "65f0c0ffee0000000000abcd" (SetFields updated_body) (Throw cast_error)]
              (invalid_id_response "65f0c0ffee0000000000abcd")
              "65f0c0ffee0000000000abcd" (SetFields updated_body) cast_error)
    as (H1 & _ & H3).
  - apply NoDup_singleton.
  - apply (proj1 (bool_decide_eq_false _)). reflexivity.
  - right. exact update_failure_run.
  - apply list_elem_of_further, list_elem_of_further, list_elem_of_here.
  - exact (conj H1 H3).
Defined.

(** A successful replace deletes every blob the stored document held in a
    file field, whether or not the request uploads that field again: the
    deletions of the run are exactly the URLs that [extractBlobUrls] reads
    from the document that [findById] returned. *)
Theorem replace_deletes_old_blobs {World} (P : Platform) (env : Env World)
    (resourceName : string) (fileFields : list FileFieldConfig) (blobToken : option string)
    (req : request) (w w' : World) (t : list event) (out : outcome)
    (id : string) (u : update) (d : gmap string jsval) :
  NoDup (fieldName <$> fileFields) →
  "__proto__" ∉ fieldName <$> fileFields →
  hasFiles fileFields blobToken = true →
  putHandler P env resourceName fileFields blobToken req w = (w', t, out) →
  EUpdate id u (Ok (Some d)) ∈ t →
  out = Respond 200 (RespData d) ∧
  ∃ oldDoc, head t = Some (EFindById (req_id req) (Ok oldDoc)) ∧
            del_urls t = match oldDoc with
                         | Some old => extractBlobUrls old fileFields
                         | None => []
                         end.
Proof.
  intros Hnd Hproto Hf Hrun Hin.
  apply putHandler_run in Hrun; [|done..].
  destruct Hrun as [[Hno _]|(pre & u0 & r_up & t_del & -> & Hpre & Hdp & Hdel & Hres)].
  { by destruct (Hno _ _ _ Hin). }
  apply update_in_run in Hin as (-> & -> & <-); [|done..].
  rewrite Hf in Hres. destruct Hres as (-> & oldDoc & t_up & -> & Hok & Hdu).
  split; [done|]. exists oldDoc. split; [done|].
  rewrite del_urls_app, Hdp. simpl. exact Hdu.
Qed.

Example replace_run :
  putHandler plain_platform (update_env (Some old_student) (Ok (Some updated_body)))
    "students" [idCard; photo] (Some "token") update_request 0%nat
  = (1%nat,
     [EFindById "65f0c0ffee0000000000abcd" (Ok (Some old_student));
      EPut "students/65f0c0ffee0000000000abcd/idCard-1700000000000.PDF" "%PDF" "token"
        (Ok stored_url);
      EUpdate "65f0c0ffee0000000000abcd" (Overwrite updated_body) (Ok (Some updated_body));
      EDel old_url "token" (Throw unavailable);
      EDel old_photo_url "token" (Throw unavailable)],
     Respond 200 (RespData updated_body)).
Proof. vm_compute. reflexivity. Qed.

Lemma replace_deletes_old_blobs_witness :
  ∃ oldDoc,
    Some (EFindById "65f0c0ffee0000000000abcd" (Ok (Some old_student)))
    = Some (EFindById (req_id update_request) (Ok oldDoc)) ∧
    [old_url; old_photo_url]
    = match oldDoc with
      | Some old => extractBlobUrls old [idCard; photo]
      | None => []
      end.
Proof.
  refine (proj2 (replace_deletes_old_blobs plain_platform
                   (update_env (Some old_student) (Ok (Some updated_body)))
                   "students" [idCard; photo] (Some "token") update_request 0%nat 1%nat _ _
                   "65f0c0ffee0000000000abcd" (Overwrite updated_body) updated_body
                   _ _ _ replace_run _)).
  - apply (proj1 (bool_decide_eq_true _)). reflexivity.
  - apply (proj1 (bool_decide_eq_false _)). reflexivity.
  - reflexivity.
  - apply list_elem_of_further, list_elem_of_further, list_elem_of_here.
Defined.

Lemma put_urls_app t1 t2 : put_urls (t1 ++ t2) = put_urls t1 ++ put_urls t2.
Proof. unfold put_urls. apply omap_app. Qed.

Lemma replaced_urls_elem files old fileFields url :
  url ∈ replaced_urls files old fileFields →
  ∃ ff m, ff ∈ fileFields ∧ files = Some m ∧ is_Some (m !! fieldName ff) ∧
          old !! fieldName ff = Some (VStr url).
Proof.
  unfold replaced_urls. intros (ff & Hff & Hurl)%list_elem_of_omap.
  destruct files as [m|]; [|done].
  destruct (m !! fieldName ff) as [l|] eqn:Hm; [|done].
  exists ff, m. split_and!; [done|done|by rewrite Hm|].
  unfold is_blob_url in Hurl.
  destruct (old !! fieldName ff) as [[| | |s| | |]|]; try done.
  destruct (Str.startsWith s "http"); [|done]. by injection Hurl as ->.
Qed.

(** A partial update never deletes the stored blob of a file field that
    the request does not upload again: every URL it deletes is either one
    it has just uploaded itself (the rollback when the document does not
    exist) or the URL that the stored document held for a field with a
    new upload in this request. *)
Theorem patch_deletes_only_replaced {World} (P : Platform) (env : Env World)
    (resourceName : string) (fileFields : list FileFieldConfig) (blobToken : option string)
    (req : request) (w w' : World) (t : list event) (out : outcome) (url : string) :
  NoDup (fieldName <$> fileFields) →
  "__proto__" ∉ fieldName <$> fileFields →
  patchHandler P env resourceName fileFields blobToken req w = (w', t, out) →
  url ∈ del_urls t →
  url ∈ put_urls t ∨
  ∃ ff m old,
    ff ∈ fileFields ∧ req_files req = Some m ∧ is_Some (m !! fieldName ff) ∧
    head t = Some (EFindById (req_id req) (Ok (Some old))) ∧
    old !! fieldName ff = Some (VStr url).
Proof.
  intros Hnd Hproto Hrun Hin.
  apply patchHandler_run in Hrun; [|done..].
  destruct Hrun as [[_ Hno]|(pre & u0 & r_up & t_del & -> & Hpre & Hdp & Hdel & Hres)].
  { rewrite Hno in Hin. by apply not_elem_of_nil in Hin. }
  rewrite !del_urls_app, Hdp in Hin. simpl in Hin.
  destruct r_up as [[d|]|e].
  - destruct Hres as [_ Hres].
    destruct (hasFiles fileFields blobToken && hasUploadedFiles (req_files req)).
    + destruct Hres as (oldDoc & t_up & -> & _ & Hdu). rewrite Hdu in Hin.
      destruct oldDoc as [old|]; [|by apply not_elem_of_nil in Hin].
      apply replaced_urls_elem in Hin as (ff & m & ? & ? & ? & ?).
      right. by exists ff, m, old.
    + destruct Hres as [_ ->]. by apply not_elem_of_nil in Hin.
  - destruct Hres as (Hdu & _ & _). rewrite Hdu in Hin. left.
    rewrite put_urls_app. apply elem_of_app. by left.
  - destruct Hres as [-> _]. by apply not_elem_of_nil in Hin.
Qed.

Example patch_run :
  patchHandler plain_platform (update_env (Some old_student) (Ok (Some updated_body)))
    "students" [idCard; photo] (Some "token") update_request 0%nat
  = (1%nat,
     [EFindById "65f0c0ffee0000000000abcd" (Ok (Some old_student));
      EPut "students/65f0c0ffee0000000000abcd/idCard-1700000000000.PDF" "%PDF" "token"
        (Ok stored_url);
      EUpdate "65f0c0ffee0000000000abcd" (SetFields updated_body) (Ok (Some updated_body));
      EDel old_url "token" (Throw unavailable)],
     Respond 200 (RespData updated_body)).
Proof. vm_compute. reflexivity. Qed.

Lemma patch_deletes_only_replaced_witness :
  old_url ∈ put_urls
    [EFindById "65f0c0ffee0000000000abcd" (Ok (Some old_student));
     EPut "students/65f0c0ffee0000000000abcd/idCard-1700000000000.PDF" "%PDF" "token"
       (Ok stored_url);
     EUpdate "65f0c0ffee0000000000abcd" (SetFields updated_body) (Ok (Some updated_body));
     EDel old_url "token" (Throw unavailable)] ∨
  ∃ ff m old,
    ff ∈ [idCard; photo] ∧ req_files update_request = Some m ∧
    is_Some (m !! fieldName ff) ∧
    head [EFindById "65f0c0ffee0000000000abcd" (Ok (Some old_student));
          EPut "students/65f0c0ffee0000000000abcd/idCard-1700000000000.PDF" "%PDF" "token"
            (Ok stored_url);
          EUpdate "65f0c0ffee0000000000abcd" (SetFields updated_body)
            (Ok (Some updated_body));
          EDel old_url "token" (Throw unavailable)]
    = Some (EFindById (req_id update_request) (Ok (Some old))) ∧
    old !! fieldName ff = Some (VStr old_url).
Proof.
  apply (patch_deletes_only_replaced plain_platform
           (update_env (Some old_student) (Ok (Some updated_body)))
           "students" [idCard; photo] (Some "token") update_request 0%nat 1%nat _
           (Respond 200 (RespData updated_body))).
  - apply (proj1 (bool_decide_eq_true _)). reflexivity.
  - apply (proj1 (bool_decide_eq_false _)). reflexivity.
  - exact patch_run.
  - apply list_elem_of_here.
Defined.

(** ** The handlers that read and delete one document *)

(** A delete asks the store once; when the store returns the document, the
    TypeScript variant then calls [del] for exactly the blob URLs that the
    document holds in its file fields (none without attachments or
    token), and answers 200 whatever the blob store says; a missing
    document is a 404 and an exception goes through the error mapping,
    both without any call to the blob store. *)
Theorem delete_removes_document_blobs {World} (env : Env World) (resourceName : string)
    (fileFields : list FileFieldConfig) (blobToken : option string) (id : string)
    (w w' : World) (t : list event) (out : outcome) :
  deleteHandler env resourceName fileFields blobToken id w = (w', t, out) →
  ∃ r t_del,
    t = EDelete id r :: t_del ∧ Forall is_del t_del ∧
    match r with
    | Ok (Some d) =>
        out = deleted_response resourceName d ∧
        del_urls t_del = if hasFiles fileFields blobToken
                         then extractBlobUrls d fileFields else []
    | Ok None => t_del = [] ∧ out = not_found_response resourceName id
    | Throw e => t_del = [] ∧ out = id_error id e
    end.
Proof.
  unfold deleteHandler, handle, mbind, M_bind, bind, call, ret, mret, M_ret.
  destruct (Model_findByIdAndDelete env id w) as [w1 [[d|]|e]].
  - destruct (hasFiles fileFields blobToken).
    + destruct (extractBlobUrls d fileFields) as [|u urls] eqn:Hurls.
      * intros [= <- <- <-]. exists (Ok (Some d)), []. by split_and!.
      * destruct (deleteBlobs_trace env (u :: urls) (default "" blobToken) w1)
          as (w2 & t2 & Hrun & Hdel & Hdu).
        rewrite Hrun. intros [= <- <- <-]. exists (Ok (Some d)), t2.
        rewrite app_nil_r. split_and!; [reflexivity|exact Hdel|reflexivity|].
        by rewrite Hurls.
    + intros [= <- <- <-]. exists (Ok (Some d)), []. by split_and!.
  - intros [= <- <- <-]. exists (Ok None), []. by split_and!.
  - intros [= <- <- <-]. exists (Throw e), []. by split_and!.
Qed.

Example delete_run :
  deleteHandler (update_env None (Ok (Some old_student))) "students" [idCard; photo]
    (Some "token") "65f0c0ffee0000000000abcd" 0%nat
  = (0%nat,
     [EDelete "65f0c0ffee0000000000abcd" (Ok (Some old_student));
      EDel old_url "token" (Throw unavailable);
      EDel old_photo_url "token" (Throw unavailable)],
     deleted_response "students" old_student).
Proof. vm_compute. reflexivity. Qed.

Lemma delete_removes_document_blobs_witness :
  ∃ r t_del,
    [EDelete "65f0c0ffee0000000000abcd" (Ok (Some old_student));
     EDel old_url "token" (Throw unavailable);
     EDel old_photo_url "token" (Throw unavailable)]
    = EDelete "65f0c0ffee0000000000abcd" r :: t_del ∧ Forall is_del t_del ∧
    match r with
    | Ok (Some d) =>
        deleted_response "students" old_student = deleted_response "students" d ∧
        del_urls t_del = if hasFiles [idCard; photo] (Some "token")
                         then extractBlobUrls d [idCard; photo] else []
    | Ok None => t_del = [] ∧ deleted_response "students" old_student
                              = not_found_response "students" "65f0c0ffee0000000000abcd"
    | Throw e => t_del = [] ∧ deleted_response "students" old_student
                              = id_error "65f0c0ffee0000000000abcd" e
    end.
Proof.
  apply (delete_removes_document_blobs (update_env None (Ok (Some old_student))) "students"
           [idCard; photo] (Some "token") "65f0c0ffee0000000000abcd" 0%nat 0%nat).
  exact delete_run.
Defined.

(** ** Duplicate keys without a key pattern *)

(** A duplicate-key error that carries no [keyPattern] (as servers before
    MongoDB 4.2 report it): the create handler of the CommonJS variant
    reads the keys of the missing pattern inside its [catch], so the
    exception escapes the handler and the request is never answered; the
    TypeScript variant checks the pattern first and hands the error to the
    error middleware. *)
Theorem duplicate_without_keyPattern {World} (P : Platform) (env : Env World)
    (resourceName : string) (req : request) (w w1 : World) (e : error) :
  body_missing (req_body req) = false →
  hasUploadedFiles (req_files req) = false →
  Model_create env (default ∅ (req_body req)) w = (w1, Throw e) →
  err_name e ≠ "ValidationError" → err_code e = Some 11000 → err_keyPattern e = None →
  (∃ e', postHandler_js env req w
         = (w1, [ECreate (default ∅ (req_body req)) (Throw e)], Rejected e')) ∧
  postHandler P env resourceName [] None req w
  = (w1, [ECreate (default ∅ (req_body req)) (Throw e)], Next e).
Proof.
  intros Hb Hf Hrun Hname Hcode Hkp.
  assert (Hbody : hasBody (spread (req_body req)) = true).
  { unfold body_missing in Hb. destruct (req_body req) as [b|]; [|done].
    unfold hasBody, spread. simpl. by rewrite Hb. }
  split.
  - unfold postHandler_js, handle. rewrite Hb.
    unfold mbind, M_bind, bind, call. rewrite Hrun.
    unfold create_error. rewrite bool_decide_eq_false_2 by done. cbn [andb].
    rewrite Hcode, Hkp. by eexists.
  - unfold postHandler, handle. rewrite Hbody. cbn [negb andb hasFiles].
    unfold create_with_rollback, catch, mbind, M_bind, bind, call, ret, throw.
    unfold spread. rewrite Hrun. simpl.
    unfold create_error. rewrite bool_decide_eq_false_2 by done. cbn [andb].
    by rewrite Hkp, andb_false_r.
Qed.

Lemma duplicate_without_keyPattern_witness :
  (∃ e', postHandler_js (create_env (Throw legacy_duplicate)) plain_request tt
         = (tt, [ECreate (default ∅ (req_body plain_request)) (Throw legacy_duplicate)],
            Rejected e')) ∧
  postHandler plain_platform (create_env (Throw legacy_duplicate)) "students" [] None
    plain_request tt
  = (tt, [ECreate (default ∅ (req_body plain_request)) (Throw legacy_duplicate)],
     Next legacy_duplicate).
Proof.
  apply (duplicate_without_keyPattern plain_platform (create_env (Throw legacy_duplicate))
           "students" plain_request tt tt legacy_duplicate).
  - vm_compute. reflexivity.
  - reflexivity.
  - reflexivity.
  - discriminate.
  - reflexivity.
  - reflexivity.
Defined.

(** ** Further facts about the attachments *)

(** The result of the upload loop: the entries it adds are those of the
    file fields with an uploaded file, one upload each; the object holds
    them in its property order, which is the order of the uploads when no
    file field has the name of an array index. *)
Lemma upload_loop_result {World} P (env : Env World) files rn id tok fileFields urls
    w w' t urls' :
  NoDup (fieldName <$> fileFields) →
  "__proto__" ∉ fieldName <$> fileFields →
  (∀ k, k ∈ urls.*1 → k ∉ fieldName <$> fileFields) →
  upload_loop P env files rn id tok fileFields urls w = (w', t, Ok urls') →
  ∃ new,
    urls' ≡ₚ urls ++ new ∧
    (Forall (λ ff, array_index (fieldName ff) = None) fileFields → urls' = urls ++ new) ∧
    new.*1 = fieldName <$> filter (λ ff, is_Some (uploaded_for files ff)) fileFields ∧
    new.*2 = put_urls t ∧
    Forall2 (λ ev ff, ∃ file (now : Z) url,
               uploaded_for files ff = Some file ∧
               ev = EPut (rn +:+ "/" +:+ id +:+ "/" +:+ fieldName ff +:+ "-" +:+ pretty now
                          +:+ path_extname P (originalname file))
                         (buffer file) tok (Ok url))
            t (filter (λ ff, is_Some (uploaded_for files ff)) fileFields).
Proof.
  revert urls w t. induction fileFields as [|ff rest IH]; intros urls w t; simpl.
  - intros _ _ _ [= <- <- <-]. exists []. rewrite app_nil_r.
    split_and!; [done..|constructor].
  - intros [Hff Hnd]%NoDup_cons [Hp Hproto]%not_elem_of_cons Hfresh.
    assert (Hfresh' : ∀ k, k ∈ urls.*1 → k ∉ fieldName <$> rest).
    { intros k Hk. specialize (Hfresh k Hk). by apply not_elem_of_cons in Hfresh as [_ ?]. }
    destruct (uploaded_for files ff) as [file|] eqn:Hup.
    + rewrite filter_cons_True by (rewrite Hup; by eexists).
      unfold mbind, M_bind, bind, draw, call.
      destruct (Date_now env w) as [w1 now].
      destruct (blob_put env _ _ _ w1) as [w2 [url|e]]; [|intros [=]].
      destruct (upload_loop _ _ _ _ _ _ rest _ w2) as [[w3 t3] r3] eqn:Hrest.
      intros [= <- <- ->].
      assert (Hname : fieldName ff ∉ urls.*1).
      { intros Hin. apply (Hfresh _ Hin). apply list_elem_of_here. }
      destruct (obj_set_fresh urls (fieldName ff) url (not_eq_sym Hp) Hname) as [Hperm Heq].
      apply IH in Hrest as (new & Hnew & Hlist & Hk & Hv & Hall); [|done|done|].
      * exists ((fieldName ff, url) :: new). split_and!.
        -- rewrite Hnew, Hperm. by rewrite <- app_assoc.
        -- intros [Hidx Hrestidx]%Forall_cons.
           rewrite (Hlist Hrestidx), (Heq Hidx). by rewrite <- app_assoc.
        -- csimpl. by rewrite Hk.
        -- csimpl. by rewrite Hv.
        -- simpl. constructor; [by exists file, now, url|exact Hall].
      * intros k. rewrite Hperm, fmap_app.
        intros [Hk|Hk]%elem_of_app; [by apply Hfresh'|].
        simpl in Hk. apply list_elem_of_singleton in Hk as ->. exact Hff.
    + rewrite filter_cons_False by (rewrite Hup; by intros [? [=]]).
      intros Hrun. apply IH in Hrun as (new & Hnew & Hlist & Hrest); [|done..].
      destruct Hrest as (Hk & Hv & Hall).
      exists new. split_and!; [done| |done|done|done].
      intros [_ Hidx]%Forall_cons. by apply Hlist.
Qed.

(** [uploadFiles] makes one upload for each file field that has a file in
    the request, in the order of the file fields, under the path
    [<resource>/<document id>/<field>-<timestamp><extension>] and with the
    bytes of the file; a field without a file is skipped.  Its result maps
    exactly those fields, each to the URL the blob store returned for it:
    its properties are the pairs [new] of an uploaded field and its URL,
    in the property order of a JavaScript object, which is the order of
    the uploads when no file field has the name of an array index. *)
Theorem uploads_follow_the_file_fields {World} (P : Platform) (env : Env World)
    (files : option (gmap string (list MulterFile))) (fileFields : list FileFieldConfig)
    (resourceName documentId token : string) (w w' : World) (t : list event)
    (urls : list (string * string)) :
  NoDup (fieldName <$> fileFields) →
  "__proto__" ∉ fieldName <$> fileFields →
  uploadFiles P env files fileFields resourceName documentId token w = (w', t, Ok urls) →
  ∃ new,
    urls ≡ₚ new ∧
    (Forall (λ ff, array_index (fieldName ff) = None) fileFields → urls = new) ∧
    new.*1 = fieldName <$> filter (λ ff, is_Some (uploaded_for files ff)) fileFields ∧
    new.*2 = put_urls t ∧
    Forall2 (λ ev ff, ∃ file (now : Z) url,
               uploaded_for files ff = Some file ∧
               ev = EPut (resourceName +:+ "/" +:+ documentId +:+ "/" +:+ fieldName ff
                          +:+ "-" +:+ pretty now +:+ path_extname P (originalname file))
                         (buffer file) token (Ok url))
            t (filter (λ ff, is_Some (uploaded_for files ff)) fileFields).
Proof.
  intros Hnd Hproto Hrun.
  apply upload_loop_result in Hrun as (new & H0 & H0' & H1 & H2 & H3);
    [|done|done|by intros k ?%not_elem_of_nil].
  by exists new.
Qed.

Example upload_run :
  uploadFiles plain_platform rollback_env (Some {["idCard" := [scan_pdf]]}) [idCard; photo]
    "students" "65f0c0ffee0000000000abcd" "token" 0%nat
  = (1%nat,
     [EPut "students/65f0c0ffee0000000000abcd/idCard-1700000000000.PDF" "%PDF" "token"
        (Ok stored_url)],
     Ok [("idCard", stored_url)]).
Proof. vm_compute. reflexivity. Qed.

(** With the file fields [b] and [1], in this order, [b] is uploaded first
    and is the second property of the result. *)
Example upload_index_order :
  uploadFiles plain_platform rollback_env (req_files indexed_request) [field_b; field_1]
    "students" "65f0c0ffee0000000000abcd" "token" 0%nat
  = (2%nat,
     [EPut "students/65f0c0ffee0000000000abcd/b-1700000000000.PDF" "%PDF" "token"
        (Ok stored_b);
      EPut "students/65f0c0ffee0000000000abcd/1-1700000000000.PDF" "%PDF" "token"
        (Ok stored_1)],
     Ok [("1", stored_1); ("b", stored_b)]).
Proof. vm_compute. reflexivity. Qed.

Lemma uploads_follow_the_file_fields_witness :
  ∃ new,
    [("1", stored_1); ("b", stored_b)] ≡ₚ new ∧
    new.*1 = fieldName <$> filter (λ ff, is_Some (uploaded_for (req_files indexed_request) ff))
                             [field_b; field_1] ∧
    new.*2
    = put_urls [EPut "students/65f0c0ffee0000000000abcd/b-1700000000000.PDF" "%PDF"
                  "token" (Ok stored_b);
                EPut "students/65f0c0ffee0000000000abcd/1-1700000000000.PDF" "%PDF"
                  "token" (Ok stored_1)].
Proof.
  destruct (uploads_follow_the_file_fields plain_platform rollback_env
              (req_files indexed_request) [field_b; field_1]
              "students" "65f0c0ffee0000000000abcd" "token" 0%nat 2%nat
              [EPut "students/65f0c0ffee0000000000abcd/b-1700000000000.PDF" "%PDF"
                 "token" (Ok stored_b);
               EPut "students/65f0c0ffee0000000000abcd/1-1700000000000.PDF" "%PDF"
                 "token" (Ok stored_1)]
              [("1", stored_1); ("b", stored_b)]) as (new & H0 & _ & H1 & H2 & _).
  - apply (proj1 (bool_decide_eq_true _)). reflexivity.
  - apply (proj1 (bool_decide_eq_false _)). reflexivity.
  - exact upload_index_order.
  - exists new. exact (conj H0 (conj H1 H2)).
Defined.

Lemma assign_urls_lookup_ne body urls k :
  k ∉ urls.*1 → assign_urls body urls !! k = body !! k.
Proof.
  unfold assign_urls. revert body. induction urls as [|[k0 u0] urls IH]; intros body; [done|].
  csimpl. intros [Hk Hrest]%not_elem_of_cons.
  rewrite IH by done. by rewrite lookup_insert_ne.
Qed.

Lemma assign_urls_lookup body urls k u :
  NoDup urls.*1 → (k, u) ∈ urls → assign_urls body urls !! k = Some (VStr u).
Proof.
  unfold assign_urls. revert body. induction urls as [|[k0 u0] urls IH]; intros body.
  - intros _ Hin. by apply not_elem_of_nil in Hin.
  - csimpl. intros [Hk0 Hnd]%NoDup_cons [Hin|Hin]%elem_of_cons.
    + injection Hin as -> ->.
      rewrite (assign_urls_lookup_ne _ urls k0 Hk0). apply lookup_insert_eq.
    + by apply IH.
Qed.

Lemma extract_after_assign files doc fileFields urls :
  (∀ k u, (k, u) ∈ urls → doc !! k = Some (VStr u) ∧ Str.startsWith u "http" = true) →
  urls.*1 = fieldName <$> filter (λ ff, is_Some (uploaded_for files ff)) fileFields →
  (∀ ff, ff ∈ fileFields → uploaded_for files ff = None →
         is_blob_url (doc !! fieldName ff) = None) →
  extractBlobUrls doc fileFields = urls.*2.
Proof.
  unfold extractBlobUrls. revert urls.
  induction fileFields as [|ff rest IH]; intros urls Hdoc Hkeys Hnone.
  - by destruct urls.
  - destruct (uploaded_for files ff) as [file|] eqn:Hup.
    + rewrite filter_cons_True in Hkeys by (rewrite Hup; by eexists).
      destruct urls as [|[k u] urls]; [done|]. csimpl in Hkeys. injection Hkeys as -> Hkeys.
      destruct (Hdoc (fieldName ff) u (list_elem_of_here _ _)) as [Hd Hs].
      csimpl. rewrite Hd. simpl. rewrite Hs. f_equal.
      apply IH; [|done|].
      * intros k' u' Hin. by apply Hdoc, list_elem_of_further.
      * intros ff' Hin. by apply Hnone, list_elem_of_further.
    + rewrite filter_cons_False in Hkeys by (rewrite Hup; by intros [? [=]]).
      csimpl. rewrite (Hnone ff (list_elem_of_here _ _) Hup).
      apply IH; [done|done|].
      intros ff' Hin. by apply Hnone, list_elem_of_further.
Qed.

(** What a write stores is what a later cleanup finds: after the uploads
    of a request have been merged into its body, [extractBlobUrls] reads
    from the body exactly the URLs the blob store returned, in order,
    provided they start with [http] and the body holds no URL of its own
    under a file field without an upload. *)
Theorem uploaded_urls_are_found_again {World} (P : Platform) (env : Env World)
    (files : option (gmap string (list MulterFile))) (fileFields : list FileFieldConfig)
    (resourceName documentId token : string) (w w' : World) (t : list event)
    (urls : list (string * string)) (body : gmap string jsval) :
  NoDup (fieldName <$> fileFields) →
  "__proto__" ∉ fieldName <$> fileFields →
  uploadFiles P env files fileFields resourceName documentId token w = (w', t, Ok urls) →
  Forall (λ url, Str.startsWith url "http" = true) (put_urls t) →
  (∀ ff, ff ∈ fileFields → uploaded_for files ff = None →
         is_blob_url (body !! fieldName ff) = None) →
  extractBlobUrls (assign_urls body urls) fileFields = put_urls t.
Proof.
  intros Hnd Hproto Hrun Hhttp Hbody.
  apply upload_loop_result in Hrun as (new & Hnew & _ & Hk & Hv & _);
    [|done|done|by intros k ?%not_elem_of_nil].
  simpl in Hnew. rewrite <- Hv in *.
  assert (Hnd' : NoDup urls.*1).
  { rewrite Hnew, Hk. eapply sublist_NoDup; [exact Hnd|].
    apply fmap_sublist, sublist_filter. }
  apply (extract_after_assign files); [|done|].
  - intros k u Hin. split; [apply assign_urls_lookup; [done|by rewrite Hnew]|].
    rewrite Forall_forall in Hhttp. apply Hhttp.
    apply list_elem_of_fmap. by exists (k, u).
  - intros ff Hin Hup. rewrite assign_urls_lookup_ne; [by apply Hbody|].
    rewrite Hnew, Hk. intros (ff' & Hname & [[file Hf] _]%list_elem_of_filter)%list_elem_of_fmap.
    unfold uploaded_for in Hup, Hf. rewrite Hname in Hup. congruence.
Qed.

Lemma uploaded_urls_are_found_again_witness :
  extractBlobUrls (assign_urls {["email" := VStr "john@example.com"]}
                     [("idCard", stored_url)]) [idCard; photo]
  = put_urls [EPut "students/65f0c0ffee0000000000abcd/idCard-1700000000000.PDF" "%PDF"
                "token" (Ok stored_url)].
Proof.
  apply (uploaded_urls_are_found_again plain_platform rollback_env
           (Some {["idCard" := [scan_pdf]]}) [idCard; photo]
           "students" "65f0c0ffee0000000000abcd" "token" 0%nat 1%nat).
  - apply (proj1 (bool_decide_eq_true _)). reflexivity.
  - apply (proj1 (bool_decide_eq_false _)). reflexivity.
  - exact upload_run.
  - constructor; [reflexivity|constructor].
  - intros ff Hin Hup.
    apply elem_of_cons in Hin as [->|Hin]; [discriminate Hup|].
    apply list_elem_of_singleton in Hin as ->. reflexivity.
Defined.

(** [deleteBlobs] is best effort: it calls [del] once for every URL, in
    order and with the token, swallows every failure, and never throws,
    whatever the blob store answers. *)
Theorem deleteBlobs_is_best_effort {World} (env : Env World) (urls : list string)
    (token : string) (w : World) :
  ∃ w' t,
    deleteBlobs env urls token w = (w', t, Ok tt) ∧
    Forall2 (λ ev url, ∃ r, ev = EDel url token r) t urls.
Proof.
  revert w. induction urls as [|url rest IH]; intros w; simpl.
  - exists w, []. split; [done|constructor].
  - unfold mbind, M_bind, bind, call_quiet.
    destruct (blob_del env url token w) as [w1 r].
    destruct (IH w1) as (w2 & t2 & -> & Hall).
    exists w2, ([EDel url token r] ++ t2). split; [done|].
    constructor; [by exists r|exact Hall].
Qed.

(** ** The file fields of a schema and their conversion *)

(** Reading and writing an own key of a schema with distinct keys. *)
Lemma own_elem schema name d :
  NoDup schema.*1 → (name, d) ∈ schema → own schema name = Some d.
Proof.
  induction schema as [|[k x] schema IH]; csimpl.
  - intros _ Hin. by apply not_elem_of_nil in Hin.
  - intros [Hk Hnd]%NoDup_cons [Hin|Hin]%elem_of_cons.
    + injection Hin as -> ->. by rewrite bool_decide_eq_true_2.
    + rewrite bool_decide_eq_false_2; [by apply IH|].
      intros ->. apply Hk. apply list_elem_of_fmap. by exists (name, d).
Qed.

Lemma assign_keys schema name d : (assign schema name d).*1 = schema.*1.
Proof.
  induction schema as [|[k x] schema IH]; csimpl; [done|].
  destruct (bool_decide (k = name)); csimpl; by rewrite ?IH.
Qed.

Lemma assign_elem schema name d k x :
  NoDup schema.*1 → name ∈ schema.*1 →
  (k, x) ∈ assign schema name d ↔
  (k = name ∧ x = d) ∨ (k ≠ name ∧ (k, x) ∈ schema).
Proof.
  induction schema as [|[k0 x0] schema IH]; csimpl.
  - intros _ Hin. by apply not_elem_of_nil in Hin.
  - intros [Hk Hnd]%NoDup_cons Hin.
    destruct (decide (k0 = name)) as [->|Hne].
    + rewrite bool_decide_eq_true_2 by done. rewrite !elem_of_cons. split.
      * intros [[= -> ->]|Hrest]; [by left|]. right. split; [|by right].
        intros ->. apply Hk. apply list_elem_of_fmap. by exists (name, x).
      * intros [[-> ->]|[Hne [[= -> ->]|Hrest]]]; [by left|done|by right].
    + rewrite bool_decide_eq_false_2 by done.
      apply elem_of_cons in Hin as [->|Hin]; [done|].
      rewrite !elem_of_cons, (IH Hnd Hin). split.
      * intros [[= -> ->]|[[-> ->]|[Hne' Hrest]]]; [right|left|right]; try done.
        -- split; [done|by left].
        -- split; [done|by right].
      * intros [[-> ->]|[Hne' [[= -> ->]|Hrest]]].
        -- right. by left.
        -- by left.
        -- right. right. by split.
Qed.

(** A converted definition is no file field. *)
Lemma convert_def_no_file k d : file_field_of (k, fieldDef_of (convert_def d)) = None.
Proof.
  unfold file_field_of. destruct d as [s|attrs|items|]; simpl; try done.
  - unfold as_String_field. simpl. by rewrite lookup_insert_eq.
  - unfold as_String_field. simpl. by rewrite lookup_insert_eq.
Qed.

(** The loop over file fields that are own keys of the schema: it never
    leaves the model, keeps the keys in place, converts the definitions of
    the file fields and touches no other. *)
Lemma convert_loop schema fileFields :
  NoDup schema.*1 →
  (∀ name, name ∈ fieldName <$> fileFields → name ∈ schema.*1) →
  NoDup (fieldName <$> fileFields) →
  ∃ converted,
    foldl convert_step (Some schema) fileFields = Some converted ∧
    converted.*1 = schema.*1 ∧
    ∀ k x, (k, x) ∈ converted ↔
           (k ∈ fieldName <$> fileFields ∧ ∃ d, (k, d) ∈ schema ∧ x = convert_def d) ∨
           ((k ∉ fieldName <$> fileFields) ∧ (k, x) ∈ schema).
Proof.
  revert schema. induction fileFields as [|ff rest IH]; intros schema Hnd Hown Hff.
  - exists schema. split_and!; [done..|]. intros k x. split.
    + intros Hin. right. split; [|done]. intros H. by apply not_elem_of_nil in H.
    + intros [[H _]|[_ H]]; [by apply not_elem_of_nil in H|done].
  - csimpl in *. apply NoDup_cons in Hff as [Hfresh Hff].
    assert (fieldName ff ∈ schema.*1) as Hin.
    { apply Hown, list_elem_of_here. }
    apply list_elem_of_fmap in Hin as ([k0 d0] & Hk0 & Hin). simpl in Hk0. subst k0.
    rewrite (own_elem _ _ _ Hnd Hin).
    destruct (IH (assign schema (fieldName ff) (convert_def d0))) as (c & Hrun & Hkeys & Hc).
    { by rewrite assign_keys. }
    { intros name Hname. rewrite assign_keys. by apply Hown, list_elem_of_further. }
    { exact Hff. }
    assert (Hname : fieldName ff ∈ schema.*1).
    { apply list_elem_of_fmap. by exists (fieldName ff, d0). }
    assert (Ha := λ k x, assign_elem schema (fieldName ff) (convert_def d0) k x Hnd Hname).
    exists c. split_and!; [exact Hrun|by rewrite Hkeys, assign_keys|].
    intros k x. rewrite Hc. clear Hc. split.
    + intros [[Hk (d & Hd & ->)]|[Hk Hx]].
      * apply Ha in Hd as [[-> ->]|[Hne Hd]]; [exfalso; by apply Hfresh|].
        left. split; [by apply list_elem_of_further|]. by exists d.
      * apply Ha in Hx as [[-> ->]|[Hne Hx]].
        -- left. split; [apply list_elem_of_here|]. by exists d0.
        -- right. split; [|done]. by intros [?|?]%elem_of_cons.
    + intros [[Hk (d & Hd & ->)]|[Hk Hx]].
      * apply elem_of_cons in Hk as [->|Hk].
        -- right. split; [done|]. apply Ha. left. split; [done|].
           f_equal. apply (own_elem _ _ _ Hnd) in Hd. apply (own_elem _ _ _ Hnd) in Hin.
           congruence.
        -- left. split; [done|]. exists d. split; [|done].
           apply Ha. right. split; [|done]. by intros ->.
      * apply not_elem_of_cons in Hk as [Hne Hk]. right. split; [done|].
        apply Ha. right. by split.
Qed.

Lemma schema_view_keys schema : (schema_view schema).*1 = schema.*1.
Proof. unfold schema_view. induction schema as [|[k d] schema IH]; csimpl; by rewrite ?IH. Qed.

Lemma extractFileFields_elem schema name :
  name ∈ fieldName <$> extractFileFields (schema_view schema) ↔
  ∃ d, (name, d) ∈ schema ∧ is_Some (file_field_of (name, fieldDef_of d)).
Proof.
  unfold extractFileFields, schema_view. rewrite list_elem_of_fmap. split.
  - intros (ff & -> & (entry & (e & -> & He)%list_elem_of_fmap & Hff)%list_elem_of_omap).
    destruct e as [k d]. simpl in Hff.
    apply file_field_of_name in Hff as Hname. simpl in Hname. rewrite Hname.
    exists d. split; [done|]. by rewrite Hff.
  - intros (d & Hin & [ff Hff]). exists ff. split.
    + by apply file_field_of_name in Hff.
    + apply list_elem_of_omap. exists (name, fieldDef_of d). split; [|done].
      apply list_elem_of_fmap. by exists (name, d).
Qed.

Lemma extractFileFields_none schema :
  (∀ k d, (k, d) ∈ schema → file_field_of (k, fieldDef_of d) = None) →
  extractFileFields (schema_view schema) = [].
Proof.
  unfold extractFileFields, schema_view.
  induction schema as [|[k d] schema IH]; intros Hall; csimpl; [done|].
  rewrite (Hall k d) by apply list_elem_of_here.
  apply IH. intros k' d' Hin. by apply Hall, list_elem_of_further.
Qed.

(** The schema given to the storage engine.  [rapidAPI] converts the file
    fields it has read from the schema itself; the conversion then stays
    in the model, keeps every key in its place, leaves every definition
    that is not a file field as it is, and turns every file field into a
    field of type [String]: of an object definition it drops [type],
    [maxSize] and [accept] and keeps every other attribute ([required]
    among them).  The converted schema has no file field left. *)
Theorem converted_schema_has_no_file_fields (schema : list (string * schemaDef)) :
  NoDup schema.*1 →
  ∃ converted,
    convertFileFieldsForMongoose schema (extractFileFields (schema_view schema))
    = Some converted ∧
    finalSchema schema = Some converted ∧
    converted.*1 = schema.*1 ∧
    extractFileFields (schema_view converted) = [] ∧
    (∀ k d, (k, d) ∈ schema → file_field_of (k, fieldDef_of d) = None →
            (k, d) ∈ converted) ∧
    (∀ k s, (k, SString s) ∈ schema → is_File s = true →
            (k, SObject {["type" := AStringCtor]}) ∈ converted) ∧
    (∀ k attrs, (k, SObject attrs) ∈ schema →
       is_Some (file_field_of (k, fieldDef_of (SObject attrs))) →
       ∃ attrs', (k, SObject attrs') ∈ converted ∧
                 attrs' !! "type" = Some AStringCtor ∧
                 attrs' !! "maxSize" = None ∧ attrs' !! "accept" = None ∧
                 ∀ a, a ≠ "type" → a ≠ "maxSize" → a ≠ "accept" →
                      attrs' !! a = attrs !! a).
Proof.
  intros Hnd.
  destruct (convert_loop schema (extractFileFields (schema_view schema)))
    as (converted & Hrun & Hkeys & Hc).
  { exact Hnd. }
  { intros name Hname. rewrite <- schema_view_keys. by apply extractFileFields_names. }
  { apply extractFileFields_NoDup. by rewrite schema_view_keys. }
  assert (Hfile : ∀ k d, (k, d) ∈ schema → is_Some (file_field_of (k, fieldDef_of d)) →
                         (k, convert_def d) ∈ converted).
  { intros k d Hin Hff. apply Hc. left. split; [|by exists d].
    apply extractFileFields_elem. by exists d. }
  exists converted. split_and!; [exact Hrun| |exact Hkeys| | | |].
  - unfold finalSchema.
    destruct (extractFileFields (schema_view schema)) eqn:E; [|exact Hrun].
    simpl in Hrun. exact Hrun.
  - apply extractFileFields_none. intros k x [[_ (d & _ & ->)]|[Hk Hx]]%Hc.
    + apply convert_def_no_file.
    + destruct (file_field_of (k, fieldDef_of x)) as [ff|] eqn:Hff; [exfalso|done].
      apply Hk, extractFileFields_elem. exists x. split; [done|]. by rewrite Hff.
  - intros k d Hin Hno. apply Hc. right. split; [|done].
    intros (d' & Hin' & Hff)%extractFileFields_elem.
    apply (own_elem _ _ _ Hnd) in Hin. apply (own_elem _ _ _ Hnd) in Hin'.
    rewrite Hin in Hin'. injection Hin' as <-. rewrite Hno in Hff. by destruct Hff.
  - intros k s Hin Hs. apply (Hfile k (SString s) Hin).
    unfold file_field_of. simpl. rewrite Hs. by eexists.
  - intros k attrs Hin Hff.
    exists (<["type" := AStringCtor]>
              (delete "accept" (delete "maxSize" (delete "type" attrs)))).
    split_and!.
    + apply (Hfile k (SObject attrs) Hin Hff).
    + apply lookup_insert_eq.
    + rewrite lookup_insert_ne by done. rewrite lookup_delete_ne by done.
      apply lookup_delete_eq.
    + rewrite lookup_insert_ne by done. apply lookup_delete_eq.
    + intros a H1 H2 H3. rewrite lookup_insert_ne by done.
      by rewrite !lookup_delete_ne.
Qed.

Lemma converted_schema_has_no_file_fields_witness :
  ∃ converted,
    convertFileFieldsForMongoose student_schema
      (extractFileFields (schema_view student_schema)) = Some converted ∧
    converted.*1 = ["name"; "email"; "idCard"; "photo"] ∧
    extractFileFields (schema_view converted) = [].
Proof.
  destruct (converted_schema_has_no_file_fields student_schema)
    as (converted & H1 & _ & H3 & H4 & _).
  - apply (proj1 (bool_decide_eq_true _)). reflexivity.
  - exists converted. split_and!; [exact H1|exact H3|exact H4].
Defined.

Example extractFileFields_student :
  extractFileFields (schema_view student_schema)
  = [idCard; {| fieldName := "photo"; required := false; maxSize := None; accept := None |}].
Proof. reflexivity. Qed.

(** Once the start-up check of [rapidAPI] has passed, every router that is
    given file fields is also given a token: attachments are handled
    exactly for the resources whose schema has a file field. *)
Theorem routers_with_file_fields_have_a_token (schemas : list (list (string * schemaDef)))
    (blobToken : option string) (schema : list (string * schemaDef)) :
  blobToken_missing schemas blobToken = false →
  schema ∈ schemas →
  hasFiles (extractFileFields (schema_view schema)) blobToken
  = negb (bool_decide (extractFileFields (schema_view schema) = [])).
Proof.
  unfold blobToken_missing, hasFileFields. intros Hcheck Hin.
  destruct (extractFileFields (schema_view schema)) as [|ff l] eqn:E; [done|].
  assert (Hex : existsb (λ s, negb (bool_decide (extractFileFields (schema_view s) = [])))
                  schemas = true).
  { apply existsb_exists. exists schema. split; [by apply list_elem_of_In|]. by rewrite E. }
  rewrite Hex in Hcheck. simpl in Hcheck. simpl.
  destruct blobToken as [tok|]; [|done]. by rewrite Hcheck.
Qed.

Lemma routers_with_file_fields_have_a_token_witness :
  hasFiles (extractFileFields (schema_view student_schema)) (Some "token")
  = negb (bool_decide (extractFileFields (schema_view student_schema) = [])).
Proof.
  apply (routers_with_file_fields_have_a_token [student_schema] (Some "token")).
  - reflexivity.
  - apply list_elem_of_here.
Defined.

(** The file fields that a router is given come from the keys of a schema:
    their names are distinct and none of them is [__proto__], which no
    object literal has as a key of its own. *)
Theorem schema_file_fields_are_well_formed (schema : list (string * schemaDef)) :
  NoDup schema.*1 → "__proto__" ∉ schema.*1 →
  NoDup (fieldName <$> extractFileFields (schema_view schema)) ∧
  "__proto__" ∉ fieldName <$> extractFileFields (schema_view schema).
Proof.
  intros Hnd Hproto. split.
  - apply extractFileFields_NoDup. by rewrite schema_view_keys.
  - intros Hin. apply Hproto. rewrite <- schema_view_keys.
    by apply extractFileFields_names.
Qed.

Lemma schema_file_fields_are_well_formed_witness :
  NoDup (fieldName <$> extractFileFields (schema_view student_schema)) ∧
  "__proto__" ∉ fieldName <$> extractFileFields (schema_view student_schema).
Proof.
  apply (schema_file_fields_are_well_formed student_schema).
  - apply (proj1 (bool_decide_eq_true _)). reflexivity.
  - apply (proj1 (bool_decide_eq_false _)). reflexivity.
Defined.

(** The validation rejects nothing that complies: it returns no error
    exactly when every file field either has no file and is not required
    (a required field counts only on create), or has a file that is
    neither too large nor of a type outside [accept]. *)
Theorem validation_accepts_compliant_files (P : Platform)
    (files : option (gmap string (list MulterFile))) (fileFields : list FileFieldConfig)
    (isCreate : bool) :
  validateFiles P files fileFields isCreate = [] ↔
  ∀ ff, ff ∈ fileFields →
    match uploaded_for files ff with
    | None => required ff && isCreate = false
    | Some file => too_large ff file = false ∧ wrong_type P ff file = false
    end.
Proof.
  unfold validateFiles. rewrite validate_loop_flat_map. simpl.
  induction fileFields as [|ff rest IH]; simpl.
  - split; [|done]. intros _ ff Hin. by apply not_elem_of_nil in Hin.
  - rewrite app_nil, IH. clear IH.
    assert (Hone : field_violations P files isCreate ff = [] ↔
              match uploaded_for files ff with
              | None => required ff && isCreate = false
              | Some file => too_large ff file = false ∧ wrong_type P ff file = false
              end).
    { unfold field_violations. destruct (uploaded_for files ff) as [file|].
      - destruct (too_large ff file), (wrong_type P ff file); simpl; intuition congruence.
      - destruct (required ff && isCreate); intuition congruence. }
    rewrite Hone. split.
    + intros [H1 H2] ff' [->|Hin]%elem_of_cons; [done|by apply H2].
    + intros Hall. split; [apply Hall, list_elem_of_here|].
      intros ff' Hin. by apply Hall, list_elem_of_further.
Qed.

(** ** Parameters on different fields do not interfere *)

Lemma filter_step_other_field v filterBy q key value q' field :
  addressed_field key ≠ Some field →
  filter_step v filterBy q key value = Compiled q' → q' !! field = q !! field.
Proof.
  unfold addressed_field, filter_step.
  destruct (classify key) as [|f op|]; intros Hne.
  - by intros [= <-].
  - destruct (isFilterable v filterBy f); simpl; [|by intros [= <-]].
    apply write_op_other. by intros ->.
  - destruct (isFilterable v filterBy key); simpl; [|by intros [= <-]].
    assert (Hk : key ≠ field) by (by intros ->).
    destruct value as [s|l|o]; [destruct (_ && _)|..]; by apply write_eq_other.
Qed.

Lemma write_op_same_field v q1 q2 field op a q1' :
  q1 !! field = q2 !! field →
  write_op v q1 field op a = Compiled q1' →
  ∃ q2', write_op v q2 field op a = Compiled q2' ∧
         q2' !! field = q1' !! field ∧ ∀ g, g ≠ field → q2' !! g = q2 !! g.
Proof.
  intros Heq. unfold write_op. rewrite <- Heq.
  assert (Hins : ∀ c, ∃ q2', Compiled (<[field := c]> q2) = Compiled q2' ∧
                   q2' !! field = <[field := c]> q1 !! field ∧
                   ∀ g, g ≠ field → q2' !! g = q2 !! g).
  { intros c. eexists. split; [reflexivity|]. split.
    - by rewrite !lookup_insert_eq.
    - intros g Hg. by apply lookup_insert_ne. }
  assert (Hsame : ∃ q2', Compiled q2 = Compiled q2' ∧ q2' !! field = q1 !! field ∧
                         ∀ g, g ≠ field → q2' !! g = q2 !! g).
  { by exists q2. }
  destruct (q1 !! field) as [c|] eqn:Hq1.
  - destruct (truthy c); [|intros [= <-]; apply Hins].
    destruct c as [[n|[s|l|o]]|b props]; try (intros [= <-]; apply Hins);
      destruct v; try done; intros [= <-]; rewrite Hq1; apply Hsame.
  - destruct (inherited field); [done|]. intros [= <-]. apply Hins.
Qed.

Lemma write_eq_same_field q1 q2 key c q1' :
  q1 !! key = q2 !! key →
  write_eq q1 key c = Compiled q1' →
  ∃ q2', write_eq q2 key c = Compiled q2' ∧
         q2' !! key = q1' !! key ∧ ∀ g, g ≠ key → q2' !! g = q2 !! g.
Proof.
  intros Heq. unfold write_eq. destruct (bool_decide (key = "__proto__")).
  - destruct c as [a|]; [|done]. destruct (is_primitive a); [|done].
    intros [= <-]. by exists q2.
  - intros [= <-]. eexists. split; [reflexivity|]. split.
    + by rewrite !lookup_insert_eq.
    + intros g Hg. by apply lookup_insert_ne.
Qed.

Lemma filter_step_same_field v filterBy q1 q2 key value q1' field :
  addressed_field key = Some field →
  q1 !! field = q2 !! field →
  filter_step v filterBy q1 key value = Compiled q1' →
  ∃ q2', filter_step v filterBy q2 key value = Compiled q2' ∧
         q2' !! field = q1' !! field ∧ ∀ g, g ≠ field → q2' !! g = q2 !! g.
Proof.
  unfold addressed_field, filter_step.
  destruct (classify key) as [|f op|]; [done|intros [= ->]|intros [= ->]]; intros Heq.
  - destruct (isFilterable v filterBy field); simpl; [by apply write_op_same_field|].
    intros [= <-]. by exists q2.
  - destruct (isFilterable v filterBy field); simpl; [|intros [= <-]; by exists q2].
    destruct value as [s|l|o]; [destruct (_ && _)|..]; by apply write_eq_same_field.
Qed.

Lemma filter_loop_projection v filterBy filters field q1 q2 q1' :
  q1 !! field = q2 !! field →
  filter_loop v filterBy q1 filters = Compiled q1' →
  ∃ q2', filter_loop v filterBy q2
           (filter (λ kv, addressed_field kv.1 = Some field) filters) = Compiled q2' ∧
         q2' !! field = q1' !! field ∧ ∀ g, g ≠ field → q2' !! g = q2 !! g.
Proof.
  revert q1 q2. induction filters as [|[key value] rest IH]; intros q1 q2 Heq; simpl.
  - intros [= <-]. by exists q2.
  - destruct (filter_step v filterBy q1 key value) as [q1a| |] eqn:Hs; [|done..].
    intros Hrest. rewrite filter_cons. simpl.
    destruct (decide (addressed_field key = Some field)) as [Ha|Ha].
    + destruct (filter_step_same_field _ _ _ _ _ _ _ _ Ha Heq Hs) as (q2a & Hs2 & Hf & Hg).
      simpl. rewrite Hs2.
      destruct (IH q1a q2a (eq_sym Hf) Hrest) as (q2' & Hrun & Hf' & Hg').
      exists q2'. split_and!; [done..|].
      intros g Hne. by rewrite Hg', Hg.
    + apply (IH q1a q2); [|done].
      rewrite <- Heq. by apply (filter_step_other_field _ _ _ _ _ _ _ Ha Hs).
Qed.

(** The clause that a list request compiles for a field is determined by
    the parameters that address this field, in their order: leaving out
    every other parameter gives a run that succeeds as well, compiles the
    same clause for the field, and compiles nothing else.  Parameters on
    different fields can therefore be given in any order. *)
Theorem field_clause_depends_on_its_parameters (v : variant) (filterBy : list string)
    (filters : list (string * qsval)) (q : gmap string clause) (field : string) :
  compile v filterBy filters = Compiled q →
  ∃ q_field,
    compile v filterBy (filter (λ kv, addressed_field kv.1 = Some field) filters)
    = Compiled q_field ∧
    q_field !! field = q !! field ∧
    ∀ other, other ≠ field → q_field !! other = None.
Proof.
  intros Hrun. unfold compile in *.
  destruct (filter_loop_projection v filterBy filters field ∅ ∅ q eq_refl Hrun)
    as (q2 & H1 & H2 & H3).
  exists q2. split_and!; [done..|]. intros g Hg. by rewrite H3.
Qed.

Lemma field_clause_depends_on_its_parameters_witness :
  ∃ q_field,
    compile TypeScript ["price"; "grade"]
      (filter (λ kv, addressed_field kv.1 = Some "price")
         [("price_gte", QStr "10"); ("grade", QStr "A"); ("price_lte", QStr "50")])
    = Compiled q_field ∧
    q_field !! "price"
    = ({["grade" := CAtom (ARaw (QStr "A"));
         "price" := CNode None price_range]} : gmap string clause) !! "price" ∧
    ∀ other, other ≠ "price" → q_field !! other = None.
Proof.
  apply (field_clause_depends_on_its_parameters TypeScript ["price"; "grade"]
           [("price_gte", QStr "10"); ("grade", QStr "A"); ("price_lte", QStr "50")]).
  vm_compute. reflexivity.
Defined.
